(** * IceBurger Tetris: the game-state engine of [tetris.c]

    A shallow embedding of the engine functions of [src/tetris.c]
    (collision, rotation with kicks, lock, line clear, scoring, hold,
    spawn, particle pool) and the properties of the engine stated in
    the specification.

    Conventions.
    - A C [int] is a [Z].  The engine's coordinates and counters stay
      far inside the [int] range; signed overflow is undefined in C, so
      the model follows the defined executions.  [/] on [int] is
      [Z.quot], [%] is [Z.rem].
    - [unsigned char] and [Uint8] are [Z] as well; a cast to [Uint8]
      is written [Z.modulo _ 256].
    - [float] is an abstract type with the operations the source uses
      (class [FloatOps]); no property below depends on rounding.
    - [rand()] reads an oracle tape of naturals and advances a cursor.
    - A C array is a list read with [!!] and written with [<[i:=x]>];
      the 4x4 piece mask is a record of records, always 4x4. *)

From Stdlib Require Import ZArith Lia List Bool.
From stdpp Require Import base tactics option list.

Local Open Scope Z_scope.

(* ===================================================================== *)
(** ** Constants ([#define]s) *)
(* ===================================================================== *)

Definition COLS : Z := 10.
Definition ROWS : Z := 20.
Definition TILE : Z := 32.
Definition START_SPEED_MS : Z := 900.
Definition SPEED_STEP_MS : Z := 70.
Definition MIN_SPEED_MS : Z := 90.
Definition MAX_PARTICLES : nat := 4096.

Definition imax (a b : Z) : Z := if a >? b then a else b.
Definition imin (a b : Z) : Z := if a <? b then a else b.

(* ===================================================================== *)
(** ** Data model *)
(* ===================================================================== *)

(** [typedef struct { bool filled; int type; int tint; } Cell;] *)
Module Cell.
Record t : Type := mk { filled : bool; type : Z; tint : Z }.
End Cell.

(** The all-zero cell, what [memset(...,0,...)] leaves. *)
Definition zero_cell : Cell.t := Cell.mk false 0 0.

(** [unsigned char m[4][4]]: four rows of four bytes. *)
Record Vec4 (A : Type) : Type := mk4 { e0 : A; e1 : A; e2 : A; e3 : A }.
Arguments mk4 {A} _ _ _ _.
Arguments e0 {A} _.
Arguments e1 {A} _.
Arguments e2 {A} _.
Arguments e3 {A} _.

Definition Mask : Type := Vec4 (Vec4 Z).

Definition zero_row4 : Vec4 Z := mk4 0 0 0 0.
Definition zero_mask : Mask := mk4 zero_row4 zero_row4 zero_row4 zero_row4.

(** [v[i]]; indices outside 0..3 are never read by the source, the model
    gives the default [d] there. *)
Definition get4 {A} (d : A) (v : Vec4 A) (i : Z) : A :=
  match i with
  | 0 => e0 v | 1 => e1 v | 2 => e2 v | 3 => e3 v
  | _ => d
  end.

(** [v[i] = a]; nothing is written outside 0..3. *)
Definition set4 {A} (v : Vec4 A) (i : Z) (a : A) : Vec4 A :=
  match i with
  | 0 => mk4 a (e1 v) (e2 v) (e3 v)
  | 1 => mk4 (e0 v) a (e2 v) (e3 v)
  | 2 => mk4 (e0 v) (e1 v) a (e3 v)
  | 3 => mk4 (e0 v) (e1 v) (e2 v) a
  | _ => v
  end.

(** [m[r][c]] and [m[r][c] = v]. *)
Definition mget (m : Mask) (r c : Z) : Z := get4 0 (get4 zero_row4 m r) c.
Definition mset (m : Mask) (r c : Z) (v : Z) : Mask :=
  set4 m r (set4 (get4 zero_row4 m r) c v).

(** The index range [0..3] of [for(int r=0;r<4;r++)]. *)
Definition idx4 : list Z := [0; 1; 2; 3].

(** [typedef struct { int k; int w,h; int x,y; unsigned char m[4][4];
    int type; int tint; } Piece;] *)
Module Piece.
Record t : Type := mk {
  k : Z; w : Z; h : Z; x : Z; y : Z; m : Mask; type : Z; tint : Z
}.
End Piece.

(** [memset(p,0,sizeof *p)] on a piece. *)
Definition zero_piece : Piece.t := Piece.mk 0 0 0 0 0 zero_mask 0 0.

Definition piece_with_m (p : Piece.t) (m' : Mask) : Piece.t :=
  Piece.mk (Piece.k p) (Piece.w p) (Piece.h p) (Piece.x p) (Piece.y p) m'
           (Piece.type p) (Piece.tint p).
Definition piece_with_xy (p : Piece.t) (x' y' : Z) : Piece.t :=
  Piece.mk (Piece.k p) (Piece.w p) (Piece.h p) x' y' (Piece.m p)
           (Piece.type p) (Piece.tint p).

(** [Cell board[ROWS][COLS]], row 0 on top. *)
Abbreviation Board := (list (list Cell.t)).

Definition zero_board_row : list Cell.t := replicate (Z.to_nat COLS) zero_cell.
Definition zero_board : Board := replicate (Z.to_nat ROWS) zero_board_row.

(** [board[y][x]], read only after the bounds test in the source. *)
Definition board_at (b : Board) (y x : Z) : Cell.t :=
  match b !! Z.to_nat y with
  | Some row => match row !! Z.to_nat x with
                | Some cl => cl
                | None => zero_cell
                end
  | None => zero_cell
  end.

(** [board[y][x] = cl]. *)
Definition board_set (b : Board) (y x : Z) (cl : Cell.t) : Board :=
  match b !! Z.to_nat y with
  | Some row => <[Z.to_nat y := <[Z.to_nat x := cl]> row]> b
  | None => b
  end.

(** The board has its declared shape. *)
Definition wf_board (b : Board) : Prop :=
  length b = Z.to_nat ROWS /\ Forall (fun row => length row = Z.to_nat COLS) b.

(** [typedef struct { Cell board[ROWS][COLS]; Piece cur, next, hold; ... } Game;] *)
Module Game.
Record t : Type := mk {
  board : Board;
  cur : Piece.t; next : Piece.t; hold : Piece.t;
  has_hold : bool; can_hold : bool; game_over : bool;
  score : Z; lines : Z; level : Z; fall_ms : Z;
  fall_accum : Z
}.
End Game.

Definition game_with_board (g : Game.t) (b : Board) : Game.t :=
  Game.mk b (Game.cur g) (Game.next g) (Game.hold g) (Game.has_hold g)
          (Game.can_hold g) (Game.game_over g) (Game.score g) (Game.lines g)
          (Game.level g) (Game.fall_ms g) (Game.fall_accum g).
Definition game_with_cur (g : Game.t) (p : Piece.t) : Game.t :=
  Game.mk (Game.board g) p (Game.next g) (Game.hold g) (Game.has_hold g)
          (Game.can_hold g) (Game.game_over g) (Game.score g) (Game.lines g)
          (Game.level g) (Game.fall_ms g) (Game.fall_accum g).
Definition game_with_next (g : Game.t) (p : Piece.t) : Game.t :=
  Game.mk (Game.board g) (Game.cur g) p (Game.hold g) (Game.has_hold g)
          (Game.can_hold g) (Game.game_over g) (Game.score g) (Game.lines g)
          (Game.level g) (Game.fall_ms g) (Game.fall_accum g).
Definition game_with_hold (g : Game.t) (p : Piece.t) : Game.t :=
  Game.mk (Game.board g) (Game.cur g) (Game.next g) p (Game.has_hold g)
          (Game.can_hold g) (Game.game_over g) (Game.score g) (Game.lines g)
          (Game.level g) (Game.fall_ms g) (Game.fall_accum g).
Definition game_with_has_hold (g : Game.t) (v : bool) : Game.t :=
  Game.mk (Game.board g) (Game.cur g) (Game.next g) (Game.hold g) v
          (Game.can_hold g) (Game.game_over g) (Game.score g) (Game.lines g)
          (Game.level g) (Game.fall_ms g) (Game.fall_accum g).
Definition game_with_can_hold (g : Game.t) (v : bool) : Game.t :=
  Game.mk (Game.board g) (Game.cur g) (Game.next g) (Game.hold g)
          (Game.has_hold g) v (Game.game_over g) (Game.score g) (Game.lines g)
          (Game.level g) (Game.fall_ms g) (Game.fall_accum g).
Definition game_with_game_over (g : Game.t) (v : bool) : Game.t :=
  Game.mk (Game.board g) (Game.cur g) (Game.next g) (Game.hold g)
          (Game.has_hold g) (Game.can_hold g) v (Game.score g) (Game.lines g)
          (Game.level g) (Game.fall_ms g) (Game.fall_accum g).
Definition game_with_progress (g : Game.t) (sc li le fm : Z) : Game.t :=
  Game.mk (Game.board g) (Game.cur g) (Game.next g) (Game.hold g)
          (Game.has_hold g) (Game.can_hold g) (Game.game_over g) sc li le fm
          (Game.fall_accum g).

(* ===================================================================== *)
(** ** Shapes *)
(* ===================================================================== *)

Definition row4 (a b c d : Z) : Vec4 Z := mk4 a b c d.

(** [static const unsigned char SHAPES[7][4][4]] *)
Definition SHAPES : list Mask := [
  (* I *) mk4 (row4 0 0 0 0) (row4 1 1 1 1) (row4 0 0 0 0) (row4 0 0 0 0);
  (* O *) mk4 (row4 1 1 0 0) (row4 1 1 0 0) (row4 0 0 0 0) (row4 0 0 0 0);
  (* T *) mk4 (row4 0 1 0 0) (row4 1 1 1 0) (row4 0 0 0 0) (row4 0 0 0 0);
  (* S *) mk4 (row4 0 1 1 0) (row4 1 1 0 0) (row4 0 0 0 0) (row4 0 0 0 0);
  (* Z *) mk4 (row4 1 1 0 0) (row4 0 1 1 0) (row4 0 0 0 0) (row4 0 0 0 0);
  (* J *) mk4 (row4 1 0 0 0) (row4 1 1 1 0) (row4 0 0 0 0) (row4 0 0 0 0);
  (* L *) mk4 (row4 0 0 1 0) (row4 1 1 1 0) (row4 0 0 0 0) (row4 0 0 0 0)
].

(** [SHAPES[k]]; [k] is always [rand()%7]. *)
Definition shape (k : Z) : Mask :=
  match SHAPES !! Z.to_nat k with Some s => s | None => zero_mask end.

(* ===================================================================== *)
(** ** Collision ([collide], lines 151-162) *)
(* ===================================================================== *)

(** The body of the two loops at mask cell [(r,c)]: [true] when the
    source returns [true] there. *)
Definition collide_cell (b : Board) (m : Mask) (nx ny r c : Z) : bool :=
  if mget m r c =? 0 then false
  else
    let x := nx + c in
    let y := ny + r in
    if (x <? 0) || (x >=? COLS) || (y <? 0) || (y >=? ROWS) then true
    else Cell.filled (board_at b y x).

(** [static bool collide(const Game *g, const Piece *p, int nx, int ny)].
    The function reads its arguments and returns a [bool]; it is a pure
    function of board, mask and offset. *)
Definition collide (g : Game.t) (p : Piece.t) (nx ny : Z) : bool :=
  existsb (fun r =>
    existsb (fun c => collide_cell (Game.board g) (Piece.m p) nx ny r c) idx4)
    idx4.

(* ===================================================================== *)
(** ** Rotation ([rotate_cw], [rotate_ccw], [attempt_rotate]) *)
(* ===================================================================== *)

(** [for r for c: t[c][3-r] = p->m[r][c]] into a zeroed [t]. *)
Definition rotate_cw_mask (m : Mask) : Mask :=
  fold_left (fun t r =>
    fold_left (fun t' c => mset t' c (3 - r) (mget m r c)) idx4 t)
    idx4 zero_mask.

(** [for r for c: t[3-c][r] = p->m[r][c]] into a zeroed [t]. *)
Definition rotate_ccw_mask (m : Mask) : Mask :=
  fold_left (fun t r =>
    fold_left (fun t' c => mset t' (3 - c) r (mget m r c)) idx4 t)
    idx4 zero_mask.

(** [rotate_cw(Piece *p)]: [memcpy(p->m,t,sizeof t)]. *)
Definition rotate_cw (p : Piece.t) : Piece.t :=
  piece_with_m p (rotate_cw_mask (Piece.m p)).
Definition rotate_ccw (p : Piece.t) : Piece.t :=
  piece_with_m p (rotate_ccw_mask (Piece.m p)).

(** [int kicks[5][2]={{0,0},{1,0},{-1,0},{0,-1},{0,1}};] *)
Definition kicks : list (Z * Z) := [(0, 0); (1, 0); (-1, 0); (0, -1); (0, 1)].

(** The [for(i=0;i<5;i++) if(!collide(...)){ ...; g->cur=t; return; }] loop
    over the remaining kicks [ks]. *)
Fixpoint try_kicks (g : Game.t) (t : Piece.t) (ks : list (Z * Z)) : Game.t :=
  match ks with
  | [] => g
  | (dx, dy) :: ks' =>
      if negb (collide g t (Piece.x t + dx) (Piece.y t + dy))
      then game_with_cur g (piece_with_xy t (Piece.x t + dx) (Piece.y t + dy))
      else try_kicks g t ks'
  end.

(** [static void attempt_rotate(Game *g, bool cw)] *)
Definition attempt_rotate (g : Game.t) (cw : bool) : Game.t :=
  let t := if cw then rotate_cw (Game.cur g) else rotate_ccw (Game.cur g) in
  try_kicks g t kicks.

(* ===================================================================== *)
(** ** Lock ([lock_piece], lines 164-176) *)
(* ===================================================================== *)

(** The loop body of [lock_piece] at mask cell [(r,c)]. *)
Definition lock_cell (p : Piece.t) (b : Board) (r c : Z) : Board :=
  if mget (Piece.m p) r c =? 0 then b
  else
    let x := Piece.x p + c in
    let y := Piece.y p + r in
    if (y >=? 0) && (y <? ROWS) && (x >=? 0) && (x <? COLS)
    then board_set b y x (Cell.mk true (Piece.type p) (Piece.tint p))
    else b.

(** The mask cells in the order the two loops visit them. *)
Definition cells4 : list (Z * Z) :=
  r ← idx4; c ← idx4; [(r, c)].

Definition lock_board (p : Piece.t) (b : Board) : Board :=
  fold_left (fun b' rc => lock_cell p b' (fst rc) (snd rc)) cells4 b.

(** [static void lock_piece(Game *g)] *)
Definition lock_piece (g : Game.t) : Game.t :=
  game_with_board g (lock_board (Game.cur g) (Game.board g)).

(** Number of cells with [filled] set on the board. *)
Definition count_filled (b : Board) : nat :=
  length (List.filter Cell.filled (concat b)).

(** Number of set cells of a mask. *)
Definition popcount (m : Mask) : nat :=
  length (List.filter (fun rc => negb (mget m (fst rc) (snd rc) =? 0)) cells4).

(* ===================================================================== *)
(** ** The C implementation: floats, libm, [rand] *)
(* ===================================================================== *)

(** What the platform supplies: [float] with its arithmetic, the casts
    between [int] and [float], [cosf]/[sinf], the comparison [>=] and
    [RAND_MAX].  [f_lit m e] is the decimal literal [m * 10^e]
    ([0.5f] is [f_lit 5 (-1)]). *)
Class FloatOps (F : Type) : Type := {
  f_of_int : Z -> F;
  f_lit : Z -> Z -> F;
  f_add : F -> F -> F;
  f_sub : F -> F -> F;
  f_mul : F -> F -> F;
  f_div : F -> F -> F;
  f_cos : F -> F;
  f_sin : F -> F;
  f_to_int : F -> Z;
  f_ge : F -> F -> bool;
  RAND_MAX : Z
}.

(** The state of [rand()]: an oracle tape and the number of values drawn. *)
Record Rng : Type := mkRng { tape : nat -> N; cursor : nat }.

(** [rand()]: a value in [0, RAND_MAX], and the advanced generator. *)
Definition rand (s : Rng) : Z * Rng :=
  (Z.of_N (tape s (cursor s)), mkRng (tape s) (S (cursor s))).

(** [SDL_Color]: four [Uint8]. *)
Module Color.
Record t : Type := mk { r : Z; g : Z; b : Z; a : Z }.
End Color.

(** [typedef struct { bool alive; float x,y,vx,vy; float life, maxlife;
    SDL_Color c; } Particle;] *)
Module Particle.
Record t (F : Type) : Type := mk {
  alive : bool;
  x : F; y : F; vx : F; vy : F;
  life : F; maxlife : F;
  c : Color.t
}.
Arguments mk {F} _ _ _ _ _ _ _ _.
Arguments alive {F} _.
Arguments x {F} _.
Arguments y {F} _.
Arguments vx {F} _.
Arguments vy {F} _.
Arguments life {F} _.
Arguments maxlife {F} _.
Arguments c {F} _.
End Particle.

(** Everything the engine functions touch: the [Game], the global
    [particles] array and the state of [rand]. *)
Record World (F : Type) : Type := mkWorld {
  game : Game.t;
  particles : list (Particle.t F);
  rng : Rng
}.
Arguments mkWorld {F} _ _ _.
Arguments game {F} _.
Arguments particles {F} _.
Arguments rng {F} _.

(** How a call ends: normally, in undefined behaviour (a read past the
    end of [score_tbl]), or not within the fuel given to a loop. *)
Inductive outcome (A : Type) : Type :=
| Done (a : A)
| Undefined
| Timeout.
Arguments Done {A} _.
Arguments Undefined {A}.
Arguments Timeout {A}.

Definition alive_count {F} (ps : list (Particle.t F)) : nat :=
  length (List.filter Particle.alive ps).

Section Engine.
Context {F : Type} `{FloatOps F}.

(* =================================================================== *)
(** ** The monad of the engine functions that can fail *)
(* =================================================================== *)

Definition M (A : Type) : Type := World F -> outcome (A * World F).

Definition ret {A} (a : A) : M A := fun w => Done (a, w).
Definition bind {A B} (c : M A) (k : A -> M B) : M B :=
  fun w => match c w with
           | Done (a, w') => k a w'
           | Undefined => Undefined
           | Timeout => Timeout
           end.
Definition undefined {A} : M A := fun _ => Undefined.
Definition timeout {A} : M A := fun _ => Timeout.
(** A function that cannot fail, run for its effect on the world. *)
Definition lift (f : World F -> World F) : M unit := fun w => Done (tt, f w).
Definition get_game : M Game.t := fun w => Done (game w, w).

Definition world_with_game (w : World F) (g : Game.t) : World F :=
  mkWorld g (particles w) (rng w).
(** A function of the [Game] alone, run on the world. *)
Definition on_game (f : Game.t -> Game.t) (w : World F) : World F :=
  world_with_game w (f (game w)).

(* =================================================================== *)
(** ** Particle system (lines 179-215) *)
(* =================================================================== *)

Definition f_zero : F := f_of_int 0.

Definition zero_particle : Particle.t F :=
  Particle.mk false f_zero f_zero f_zero f_zero f_zero f_zero
              (Color.mk 0 0 0 0).

(** [memset(particles,0,sizeof particles)] *)
Definition particles_reset (w : World F) : World F :=
  mkWorld (game w) (replicate MAX_PARTICLES zero_particle) (rng w).

(** [frandf()]: [(float)rand()/(float)RAND_MAX] *)
Definition frandf (s : Rng) : F * Rng :=
  let '(n, s') := rand s in
  (f_div (f_of_int n) (f_of_int RAND_MAX), s').

(** The inner loop [for(j=0;j<MAX_PARTICLES;j++) if(!particles[j].alive)]:
    the first dead slot at or after [j], scanning at most [fuel] slots. *)
Fixpoint scan_dead (fuel : nat) (j : nat) (ps : list (Particle.t F))
  : option nat :=
  match fuel with
  | O => None
  | S fuel' =>
      match ps !! j with
      | Some p => if Particle.alive p then scan_dead fuel' (S j) ps
                  else Some j
      | None => None
      end
  end.

(** [(Uint8)imax(0, imin(255, ch + d - 20))] *)
Definition jitter (ch d : Z) : Z := (imax 0 (imin 255 (ch + d - 20))) mod 256.

(** The assignments to [particles[j]] between the slot test and [break],
    with the seven [frandf()] calls in statement order. *)
Definition make_particle (cx cy : Z) (base : Color.t) (s0 : Rng)
  : Particle.t F * Rng :=
  let '(u1, s1) := frandf s0 in
  let px := f_add (f_of_int cx)
              (f_mul (f_mul (f_mul (f_sub u1 (f_lit 5 (-1))) (f_of_int TILE))
                            (f_of_int COLS)) (f_lit 1 (-1))) in
  let '(u2, s2) := frandf s1 in
  let py := f_add (f_of_int cy)
              (f_mul (f_mul (f_sub u2 (f_lit 5 (-1))) (f_of_int TILE))
                     (f_of_int 2)) in
  let '(u3, s3) := frandf s2 in
  let ang := f_mul u3 (f_lit 628318 (-5)) in
  let '(u4, s4) := frandf s3 in
  let spd := f_add (f_lit 100 0) (f_mul u4 (f_lit 300 0)) in
  let pvx := f_mul (f_cos ang) spd in
  let '(u5, s5) := frandf s4 in
  let pvy := f_sub (f_mul (f_sin ang) spd)
                   (f_add (f_lit 50 0) (f_mul u5 (f_lit 100 0))) in
  let '(u6, s6) := frandf s5 in
  let pmax := f_add (f_lit 6 (-1)) (f_mul u6 (f_lit 6 (-1))) in
  let '(u7, s7) := frandf s6 in
  let d := f_to_int (f_mul u7 (f_lit 40 0)) in
  let col := Color.mk (jitter (Color.r base) d) (jitter (Color.g base) d)
                      (jitter (Color.b base) d) (Color.a base) in
  (Particle.mk true px py pvx pvy (f_lit 0 0) pmax col, s7).

(** One iteration of the outer loop of [spawn_explosion]: fill the first
    dead slot, or do nothing when every slot is alive. *)
Definition spawn_one (cx cy : Z) (base : Color.t) (w : World F) : World F :=
  match scan_dead MAX_PARTICLES 0 (particles w) with
  | Some j =>
      let '(p, s') := make_particle cx cy base (rng w) in
      mkWorld (game w) (<[j := p]> (particles w)) s'
  | None => w
  end.

(** [int count = 120 + rand()%80;] *)
Definition explosion_count (n : Z) : Z := 120 + Z.rem n 80.

(** [static void spawn_explosion(int cx, int cy, SDL_Color base)] *)
Definition spawn_explosion (cx cy : Z) (base : Color.t) (w : World F)
  : World F :=
  let '(n, s') := rand (rng w) in
  Nat.iter (Z.to_nat (explosion_count n)) (spawn_one cx cy base)
           (mkWorld (game w) (particles w) s').

(** The loop body of [particles_update] on slot [p]. *)
Definition particle_step (dt : F) (p : Particle.t F) : Particle.t F :=
  if Particle.alive p then
    let life' := f_add (Particle.life p) dt in
    if f_ge life' (Particle.maxlife p) then
      Particle.mk false (Particle.x p) (Particle.y p) (Particle.vx p)
                  (Particle.vy p) life' (Particle.maxlife p) (Particle.c p)
    else
      let vy' := f_add (Particle.vy p) (f_mul (f_lit 900 0) dt) in
      let vx' := f_mul (Particle.vx p)
                       (f_sub (f_lit 1 0) (f_mul (f_lit 8 (-1)) dt)) in
      Particle.mk true
                  (f_add (Particle.x p) (f_mul vx' dt))
                  (f_add (Particle.y p) (f_mul vy' dt))
                  vx' vy' life' (Particle.maxlife p) (Particle.c p)
  else p.

(** [static void particles_update(float dt)]: the loop visits every slot
    of the array once. *)
Definition particles_update (dt : F) (w : World F) : World F :=
  mkWorld (game w) (map (particle_step dt) (particles w)) (rng w).

(* =================================================================== *)
(** ** Line clear and scoring ([clear_lines], lines 217-240) *)
(* =================================================================== *)

(** [board[r]] as a whole row, for [memcpy]. *)
Definition row_at (b : Board) (r : nat) : list Cell.t :=
  match b !! r with Some row => row | None => zero_board_row end.

(** [full=true; for(c=0;c<COLS;c++) if(!board[r][c].filled){full=false;break;}] *)
Definition row_full (b : Board) (r : Z) : bool :=
  forallb (fun c => Cell.filled (board_at b r c)) (seqZ 0 COLS).

(** [for(rr=r; rr>0; rr--) memcpy(board[rr], board[rr-1], sizeof board[rr]);] *)
Fixpoint pull_down (b : Board) (rr : nat) : Board :=
  match rr with
  | O => b
  | S rr' => pull_down (<[rr := row_at b rr']> b) rr'
  end.

(** The pull down followed by [memset(board[0],0,sizeof board[0])]. *)
Definition remove_row (b : Board) (r : Z) : Board :=
  <[O := zero_board_row]> (pull_down b (Z.to_nat r)).

(** [SDL_Color base = {255, 200, 120, 255};] *)
Definition clear_base : Color.t := Color.mk 255 200 120 255.

(** [int cx = TILE*COLS/2; int cy = TILE*(r+0.5f);] *)
Definition clear_cx : Z := Z.quot (TILE * COLS) 2.
Definition clear_cy (r : Z) : Z :=
  f_to_int (f_mul (f_of_int TILE) (f_add (f_of_int r) (f_lit 5 (-1)))).

(** The scan [for(r=ROWS-1;r>=0;r--)] from row [r] with [cleared] rows
    counted so far.  A full row is removed and the same index is tested
    again ([r++] then the loop's [r--]).  Returns the final count. *)
Fixpoint clear_loop (fuel : nat) (r : Z) (cleared : Z) : M Z :=
  match fuel with
  | O => timeout
  | S fuel' =>
      if r >=? 0 then
        bind get_game (fun g =>
          if row_full (Game.board g) r then
            bind (lift (spawn_explosion clear_cx (clear_cy r) clear_base))
              (fun _ =>
            bind (lift (on_game (fun g' =>
                    game_with_board g' (remove_row (Game.board g') r))))
              (fun _ => clear_loop fuel' r (cleared + 1)))
          else clear_loop fuel' (r - 1) cleared)
      else ret cleared
  end.

(** [static const int score_tbl[5]={0,40,100,300,1200};] *)
Definition score_tbl : list Z := [0; 40; 100; 300; 1200].

(** [imax(MIN_SPEED_MS, START_SPEED_MS - level * SPEED_STEP_MS)] *)
Definition fall_interval (level : Z) : Z :=
  imax MIN_SPEED_MS (START_SPEED_MS - level * SPEED_STEP_MS).

(** The block [if(cleared){ ... }]; reading [score_tbl[cleared]] past the
    table is undefined behaviour. *)
Definition apply_score (cleared : Z) : M unit :=
  if cleared =? 0 then ret tt
  else
    match score_tbl !! Z.to_nat cleared with
    | Some pts =>
        lift (on_game (fun g =>
          let score' := Game.score g + pts * (Game.level g + 1) in
          let lines' := Game.lines g + cleared in
          let level' := Z.quot lines' 10 in
          game_with_progress g score' lines' level' (fall_interval level')))
    | None => undefined
    end.

(** Each clear leaves one more empty row, each miss moves one row up:
    [2*ROWS] iterations are more than the loop can make. *)
Definition clear_fuel : nat := S (2 * Z.to_nat ROWS).

(** The scan of [clear_lines]: final [cleared]. *)
Definition clear_rows : M Z := clear_loop clear_fuel (ROWS - 1) 0.

(** [static void clear_lines(Game *g)] *)
Definition clear_lines : M unit := bind clear_rows apply_score.

(* =================================================================== *)
(** ** Spawn and hold (lines 130-138, 242-257) *)
(* =================================================================== *)

(** [COLS/2 - 2] *)
Definition spawn_x : Z := Z.quot COLS 2 - 2.

(** [static void piece_from_k(Piece *p, int k)] *)
Definition piece_from_k (k : Z) (s : Rng) : Piece.t * Rng :=
  let '(n, s') := rand s in
  (Piece.mk k 4 4 spawn_x 0 (shape k) (Z.rem n 2) k, s').

(** [static void new_bag_piece(Piece *p){ piece_from_k(p, rand()%7); }] *)
Definition new_bag_piece (s : Rng) : Piece.t * Rng :=
  let '(n, s') := rand s in
  piece_from_k (Z.rem n 7) s'.

(** [if(collide(g,&g->cur,g->cur.x,g->cur.y)) g->game_over=true;] *)
Definition check_game_over (g : Game.t) : Game.t :=
  if collide g (Game.cur g) (Piece.x (Game.cur g)) (Piece.y (Game.cur g))
  then game_with_game_over g true
  else g.

(** [static void spawn_piece(Game *g)] *)
Definition spawn_piece (w : World F) : World F :=
  let g1 := game_with_cur (game w) (Game.next (game w)) in
  let '(p, s') := new_bag_piece (rng w) in
  let g2 := game_with_next g1 p in
  let g3 := game_with_cur g2 (piece_with_xy (Game.cur g2) spawn_x 0) in
  let g4 := check_game_over g3 in
  mkWorld (game_with_can_hold g4 true) (particles w) s'.

(** [static void hold_piece(Game *g)] *)
Definition hold_piece (w : World F) : World F :=
  if negb (Game.can_hold (game w)) then w
  else
    let w1 :=
      if negb (Game.has_hold (game w)) then
        let g1 := game_with_hold (game w) (Game.cur (game w)) in
        let g2 := game_with_has_hold g1 true in
        spawn_piece (world_with_game w g2)
      else
        let tmp := Game.hold (game w) in
        let g1 := game_with_hold (game w) (Game.cur (game w)) in
        let g2 := game_with_cur g1 tmp in
        let g3 := game_with_cur g2 (piece_with_xy (Game.cur g2) spawn_x 0) in
        world_with_game w (check_game_over g3)
    in
    on_game (fun g => game_with_can_hold g false) w1.

(* =================================================================== *)
(** ** Drops (lines 259-269) *)
(* =================================================================== *)

(** [g->cur.y++] *)
Definition cur_down (g : Game.t) : Game.t :=
  game_with_cur g (piece_with_xy (Game.cur g) (Piece.x (Game.cur g))
                                 (Piece.y (Game.cur g) + 1)).

(** [while(!collide(g,&g->cur,g->cur.x,g->cur.y+1)) g->cur.y++;] *)
Fixpoint drop_loop (fuel : nat) (g : Game.t) : outcome Game.t :=
  match fuel with
  | O => Timeout
  | S fuel' =>
      if negb (collide g (Game.cur g) (Piece.x (Game.cur g))
                       (Piece.y (Game.cur g) + 1))
      then drop_loop fuel' (cur_down g)
      else Done g
  end.

(** A piece with a set mask cell cannot pass the bottom row: the loop
    tests at most [ROWS - y + 1] positions. *)
Definition drop_fuel (g : Game.t) : nat :=
  S (Z.to_nat (ROWS - Piece.y (Game.cur g))).

Definition drop_to_floor : M unit :=
  fun w => match drop_loop (drop_fuel (game w)) (game w) with
           | Done g => Done (tt, world_with_game w g)
           | Undefined => Undefined
           | Timeout => Timeout
           end.

(** [lock_piece(g); clear_lines(g); spawn_piece(g);] *)
Definition lock_clear_spawn : M unit :=
  bind (lift (on_game lock_piece)) (fun _ =>
  bind clear_lines (fun _ =>
  lift spawn_piece)).

(** [static void hard_drop(Game *g)] *)
Definition hard_drop : M unit :=
  bind drop_to_floor (fun _ => lock_clear_spawn).

(** [static void soft_step(Game *g)] *)
Definition soft_step : M unit :=
  bind get_game (fun g =>
    if negb (collide g (Game.cur g) (Piece.x (Game.cur g))
                     (Piece.y (Game.cur g) + 1))
    then lift (on_game cur_down)
    else lock_clear_spawn).

(* =================================================================== *)
(** ** Reset and the commands of [main] (lines 277-285, 408-429) *)
(* =================================================================== *)

(** [static void game_reset(Game *g)] *)
Definition game_reset (w : World F) : World F :=
  let '(c, s1) := new_bag_piece (rng w) in
  let '(n, s2) := new_bag_piece s1 in
  let g := Game.mk zero_board (piece_with_xy c spawn_x 0) n zero_piece
                   false true false 0 0 0 START_SPEED_MS 0 in
  particles_reset (mkWorld g (particles w) s2).

(** [if(k==SDLK_LEFT && !collide(&g,&g.cur,g.cur.x-1,g.cur.y)) g.cur.x--;]
    and the same to the right, with [dx] = -1 or +1. *)
Definition move_cur (dx : Z) (g : Game.t) : Game.t :=
  if negb (collide g (Game.cur g) (Piece.x (Game.cur g) + dx)
                   (Piece.y (Game.cur g)))
  then game_with_cur g (piece_with_xy (Game.cur g)
                          (Piece.x (Game.cur g) + dx) (Piece.y (Game.cur g)))
  else g.

(** The frame loop's writes to [g.fall_accum]. *)
Definition set_fall_accum (v : Z) (g : Game.t) : Game.t :=
  Game.mk (Game.board g) (Game.cur g) (Game.next g) (Game.hold g)
          (Game.has_hold g) (Game.can_hold g) (Game.game_over g)
          (Game.score g) (Game.lines g) (Game.level g) (Game.fall_ms g) v.

(** What [main] does to the world between two frames: the key commands,
    gravity steps, the accumulator and the particle update. *)
Inductive Op : Type :=
| OpLeft | OpRight | OpSoft | OpHard | OpHold
| OpRotate (cw : bool)
| OpRestart
| OpAccum (v : Z)
| OpParticles (dt : F).

Definition run_op (o : Op) : M unit :=
  match o with
  | OpLeft => lift (on_game (move_cur (-1)))
  | OpRight => lift (on_game (move_cur 1))
  | OpSoft => soft_step
  | OpHard => hard_drop
  | OpHold => lift hold_piece
  | OpRotate cw => lift (on_game (fun g => attempt_rotate g cw))
  | OpRestart => lift game_reset
  | OpAccum v => lift (on_game (set_fall_accum v))
  | OpParticles dt => lift (particles_update dt)
  end.

(** [main] skips every command but restart once the game is over:
    [if(g.game_over||paused) continue;] and [if(!paused && !g.game_over)]
    before the gravity steps. *)
Definition gated (o : Op) : bool :=
  match o with
  | OpRestart | OpParticles _ => false
  | _ => true
  end.

Definition main_op (o : Op) : M unit :=
  fun w => if gated o && Game.game_over (game w) then Done (tt, w)
           else run_op o w.

(** The worlds the engine can be in: [game_reset] of anything, then any
    commands, gated or not. *)
Inductive reachable : World F -> Prop :=
| reach_reset w0 : reachable (game_reset w0)
| reach_op o w w' :
    reachable w -> run_op o w = Done (tt, w') -> reachable w'.

(** The pools the particle system can hold: reset, then explosions and
    updates in any order. *)
Inductive pool_reachable : World F -> Prop :=
| pool_reset w0 : pool_reachable (particles_reset w0)
| pool_explosion cx cy base w :
    pool_reachable w -> pool_reachable (spawn_explosion cx cy base w)
| pool_update dt w :
    pool_reachable w -> pool_reachable (particles_update dt w).

End Engine.

(* ===================================================================== *)
(** * The statements of the specification, and worlds for examples *)
(* ===================================================================== *)

(** The empty board and the O piece at the spawn position, for examples. *)
Definition empty_game : Game.t :=
  Game.mk zero_board (Piece.mk 1 4 4 3 0 (shape 1) 0 1)
          (Piece.mk 0 4 4 3 0 (shape 0) 0 0) zero_piece
          false true false 0 0 0 START_SPEED_MS 0.

(** The reading of the specification: some set cell lies above row 0 and
    every set cell that does not is at an in-range column, on an in-range
    row, on an empty board cell. *)
Definition above_top_only (g : Game.t) (p : Piece.t) (nx ny : Z) : Prop :=
  (exists r c, 0 <= r < 4 /\ 0 <= c < 4 /\ mget (Piece.m p) r c <> 0 /\
               ny + r < 0) /\
  (forall r c, 0 <= r < 4 -> 0 <= c < 4 -> mget (Piece.m p) r c <> 0 ->
     0 <= ny + r ->
     0 <= nx + c < COLS /\ ny + r < ROWS /\
     Cell.filled (board_at (Game.board g) (ny + r) (nx + c)) = false).



(** ** Vocabulary of the statements *)

(** Number of filled cells of one board row. *)
Definition row_count (row : list Cell.t) : nat :=
  length (List.filter Cell.filled row).

(** The cells of [cs] locked in order: [lock_board] on a part of the loop. *)
Definition lock_cells (p : Piece.t) (cs : list (Z * Z)) (b : Board) : Board :=
  fold_left (fun b' rc => lock_cell p b' (fst rc) (snd rc)) cs b.

(** Board cell [(y,x)] is the target of a set mask cell among [cs]. *)
Definition covers (p : Piece.t) (cs : list (Z * Z)) (y x : Z) : bool :=
  existsb (fun rc => negb (mget (Piece.m p) (fst rc) (snd rc) =? 0)
                     && (y =? Piece.y p + fst rc)
                     && (x =? Piece.x p + snd rc)) cs.

(** Number of set mask cells among [cs]. *)
Definition set_cells (m : Mask) (cs : list (Z * Z)) : nat :=
  length (List.filter (fun rc => negb (mget m (fst rc) (snd rc) =? 0)) cs).


(** Every set cell of the piece lands inside the board. *)
Definition within_bounds (p : Piece.t) : Prop :=
  forall r c, 0 <= r < 4 -> 0 <= c < 4 -> mget (Piece.m p) r c <> 0 ->
    0 <= Piece.x p + c < COLS /\ 0 <= Piece.y p + r < ROWS.

(** The O piece at the spawn position over a board whose cell (row 0,
    column 3) is already filled. *)
Definition overlap_game : Game.t :=
  game_with_board empty_game (board_set zero_board 0 3 (Cell.mk true 0 0)).

(** A row with every cell filled, rows of a board that are full, and the
    rows that are not, in board order. *)
Definition row_is_full (row : list Cell.t) : bool := forallb Cell.filled row.
Definition full_rows (b : Board) : nat := length (List.filter row_is_full b).
Definition kept_rows (b : Board) : Board :=
  List.filter (fun row => negb (row_is_full row)) b.

Section EngineVocabulary.
Context {F : Type} `{FloatOps F}.

(** The world after a full row [r] was found: the explosion, then the
    row removed. *)
Definition after_clear (r : Z) (w : World F) : World F :=
  on_game (fun g' => game_with_board g' (remove_row (Game.board g') r))
          (spawn_explosion clear_cx (clear_cy r) clear_base w).

End EngineVocabulary.

(** ** A platform and worlds to run the model on *)

(** A coarse stand-in for [float]: fixed point in thousandths, [cosf] and
    [sinf] by their values at 0.  It only serves to evaluate the model on
    examples; every property is proved for all platforms. *)
Definition fixed_lit (m e : Z) : Z :=
  if e + 3 >=? 0 then m * 10 ^ (e + 3) else Z.quot m (10 ^ (- (e + 3))).

#[export] Instance fixed_point_ops : FloatOps Z := {|
  f_of_int := fun n => 1000 * n;
  f_lit := fixed_lit;
  f_add := Z.add;
  f_sub := Z.sub;
  f_mul := fun a b => Z.quot (a * b) 1000;
  f_div := fun a b => Z.quot (1000 * a) b;
  f_cos := fun _ => 1000;
  f_sin := fun _ => 0;
  f_to_int := fun a => Z.quot a 1000;
  f_ge := Z.geb;
  RAND_MAX := 32767
|}.

(** An oracle tape: [rand()] returns 7, 18, 29, ... *)
Definition example_rng : Rng := mkRng (fun n => N.of_nat (7 + 11 * n)) 0.

(** The world after [game_reset]. *)
Definition start_world : World Z :=
  game_reset (mkWorld empty_game [] example_rng).

Definition full_board_row : list Cell.t :=
  replicate (Z.to_nat COLS) (Cell.mk true 1 1).

(** A world whose two bottom rows are full, over one partly filled row. *)
Definition two_full_rows_board : Board :=
  replicate 17 zero_board_row ++
  [<[2%nat := Cell.mk true 0 3]> zero_board_row; full_board_row; full_board_row].

Definition two_full_rows_world : World Z :=
  world_with_game start_world
    (game_with_board (game start_world) two_full_rows_board).

(** ** Invariants of the reachable worlds *)

(** A mask with at least one set cell. *)
Definition mask_nonempty (m : Mask) : Prop :=
  exists r c, 0 <= r < 4 /\ 0 <= c < 4 /\ mget m r c <> 0.

(** What every reachable game satisfies: the board has its shape and no
    full row, the pieces in play have a set cell, [lines] is a count. *)
Definition game_inv (g : Game.t) : Prop :=
  wf_board (Game.board g) /\
  full_rows (Game.board g) = 0%nat /\
  mask_nonempty (Piece.m (Game.cur g)) /\
  mask_nonempty (Piece.m (Game.next g)) /\
  (Game.has_hold g = true -> mask_nonempty (Piece.m (Game.hold g))) /\
  0 <= Game.lines g.

(** Two games with the same pieces and flags: what lock, line clear and
    scoring leave alone. *)
Definition same_pieces_flags (g g' : Game.t) : Prop :=
  Game.cur g' = Game.cur g /\ Game.next g' = Game.next g /\
  Game.hold g' = Game.hold g /\ Game.has_hold g' = Game.has_hold g /\
  Game.can_hold g' = Game.can_hold g /\ Game.game_over g' = Game.game_over g.

(** Index of the first dead particle of a pool, by recursion on the pool. *)
Fixpoint first_dead {F} (ps : list (Particle.t F)) : option nat :=
  match ps with
  | [] => None
  | p :: ps' => if Particle.alive p then S <$> first_dead ps' else Some 0%nat
  end.

(** ** Two's-complement [int] *)

(** The value a 32-bit [int] holds after an addition that wraps. *)
Definition wrap32 (z : Z) : Z := (z + 2 ^ 31) mod 2 ^ 32 - 2 ^ 31.

Definition int_range (z : Z) : Prop := - 2 ^ 31 <= z < 2 ^ 31.

(** [collide_cell] with [x = nx + c] and [y = ny + r] computed on wrapping
    32-bit integers. *)
Definition collide_cell_wrap (b : Board) (m : Mask) (nx ny r c : Z) : bool :=
  if mget m r c =? 0 then false
  else
    let x := wrap32 (nx + c) in
    let y := wrap32 (ny + r) in
    if (x <? 0) || (x >=? COLS) || (y <? 0) || (y >=? ROWS) then true
    else Cell.filled (board_at b y x).

(** The world after [game_reset] with the O piece as current piece. *)
Definition o_world : World Z :=
  world_with_game start_world
    (game_with_cur (game start_world) (Piece.mk 1 4 4 3 0 (shape 1) 0 1)).

(** The bottom row filled except for column 0, and the upright I piece
    standing in column 0 on the floor. *)
Definition gap_board : Board :=
  replicate 19 zero_board_row ++ [<[0%nat := zero_cell]> full_board_row].

Definition gap_world : World Z :=
  world_with_game start_world
    (game_with_board
       (game_with_cur (game start_world)
          (Piece.mk 0 4 4 (-2) 16 (rotate_cw_mask (shape 0)) 1 0))
       gap_board).

(** What the examples read off a world after a command. *)
Definition summary (o : outcome (unit * World Z))
  : option (nat * Z * Z * Z * Z * nat * bool * bool) :=
  match o with
  | Done (_, w) =>
      Some (count_filled (Game.board (game w)), Game.score (game w),
            Game.lines (game w), Game.level (game w), Game.fall_ms (game w),
            alive_count (particles w), Game.can_hold (game w),
            Game.game_over (game w))
  | _ => None
  end.

(* ===================================================================== *)
(** ** The loop of [main] (lines 399-432) *)
(* ===================================================================== *)

(** The key codes [main] looks at; every other key is [K_other]. *)
Inductive Key : Type :=
| SDLK_ESCAPE | SDLK_p | SDLK_r
| SDLK_LEFT | SDLK_RIGHT | SDLK_DOWN | SDLK_SPACE | SDLK_c | SDLK_z | SDLK_UP
| K_other.

(** What [SDL_PollEvent] delivers: [SDL_QUIT], [SDL_KEYDOWN] with its key,
    or an event [main] ignores. *)
Inductive Event : Type :=
| SDL_QUIT
| SDL_KEYDOWN (k : Key)
| E_other.

(** A value converted to [Uint32]. *)
Definition to_uint32 (z : Z) : Z := z mod 2 ^ 32.

Section MainLoop.
Context {F : Type} `{FloatOps F}.

(** The conversion [(Uint32)f] of a [float]. *)
Variable f_to_uint : F -> Z.

(** The locals [running] and [paused] of [main] beside the world. *)
Record Loop : Type := mkLoop {
  world : World F;
  running : bool;
  paused : bool
}.

(** The second [if]-chain of the key handler, reached when the game is
    neither over nor paused. *)
Definition key_command (k : Key) : M unit :=
  match k with
  | SDLK_LEFT => lift (on_game (move_cur (-1)))
  | SDLK_RIGHT => lift (on_game (move_cur 1))
  | SDLK_DOWN => soft_step
  | SDLK_SPACE => hard_drop
  | SDLK_c => lift hold_piece
  | SDLK_z => lift (on_game (fun g => attempt_rotate g false))
  | SDLK_UP => lift (on_game (fun g => attempt_rotate g true))
  | _ => ret tt
  end.

(** The body of [while(SDL_PollEvent(&e))] for one event. *)
Definition on_event (e : Event) (l : Loop) : outcome Loop :=
  match e with
  | SDL_QUIT => Done (mkLoop (world l) false (paused l))
  | E_other => Done l
  | SDL_KEYDOWN k =>
      let l1 :=
        match k with
        | SDLK_ESCAPE => mkLoop (world l) false (paused l)
        | SDLK_p => mkLoop (world l) (running l) (negb (paused l))
        | SDLK_r => mkLoop (game_reset (world l)) (running l) false
        | _ => l
        end in
      if Game.game_over (game (world l1)) || paused l1 then Done l1
      else
        match key_command k (world l1) with
        | Done (_, w') => Done (mkLoop w' (running l1) (paused l1))
        | Undefined => Undefined
        | Timeout => Timeout
        end
  end.

(** The events of one frame, in the order they are polled. *)
Fixpoint on_events (es : list Event) (l : Loop) : outcome Loop :=
  match es with
  | [] => Done l
  | e :: es' =>
      match on_event e l with
      | Done l' => on_events es' l'
      | Undefined => Undefined
      | Timeout => Timeout
      end
  end.

(** [while(g.fall_accum >= (Uint32)g.fall_ms){ g.fall_accum -= g.fall_ms;
    soft_step(&g); }] on the [Uint32] accumulator. *)
Fixpoint gravity_loop (fuel : nat) : M unit :=
  match fuel with
  | O => timeout
  | S fuel' =>
      bind get_game (fun g =>
        if Game.fall_accum g >=? to_uint32 (Game.fall_ms g) then
          bind (lift (on_game (set_fall_accum
                  (to_uint32 (Game.fall_accum g - to_uint32 (Game.fall_ms g))))))
            (fun _ =>
          bind soft_step (fun _ => gravity_loop fuel'))
        else ret tt)
  end.

(** Every pass takes [fall_ms], at least [MIN_SPEED_MS] in a game that was
    reset, off the accumulator. *)
Definition gravity_fuel (accum : Z) : nat :=
  S (Z.to_nat (Z.quot accum MIN_SPEED_MS)).

(** [if(!paused && !g.game_over){ g.fall_accum += (Uint32)(dt*1000.0f);
    while(...){...} }] *)
Definition gravity (dt : F) (l : Loop) : outcome Loop :=
  if negb (paused l) && negb (Game.game_over (game (world l))) then
    let accum :=
      to_uint32 (Game.fall_accum (game (world l)) +
                 to_uint32 (f_to_uint (f_mul dt (f_lit 1000 0)))) in
    match gravity_loop (gravity_fuel accum)
                       (on_game (set_fall_accum accum) (world l)) with
    | Done (_, w') => Done (mkLoop w' (running l) (paused l))
    | Undefined => Undefined
    | Timeout => Timeout
    end
  else Done l.

(** One pass of [while(running)] up to the drawing: the events, the
    gravity steps, [particles_update(dt)]. *)
Definition frame (es : list Event) (dt : F) (l : Loop) : outcome Loop :=
  match on_events es l with
  | Done l1 =>
      match gravity dt l1 with
      | Done l2 =>
          Done (mkLoop (particles_update dt (world l2)) (running l2)
                       (paused l2))
      | Undefined => Undefined
      | Timeout => Timeout
      end
  | Undefined => Undefined
  | Timeout => Timeout
  end.

(** [Game g; game_reset(&g); bool running=true, paused=false;] *)
Definition main_start (w0 : World F) : Loop :=
  mkLoop (game_reset w0) true false.

(** The states of [main] at the top of its loop: the start, then frames
    for as long as [running] holds. *)
Inductive main_reachable : Loop -> Prop :=
| main_reach_start w0 : main_reachable (main_start w0)
| main_reach_frame es dt l l' :
    main_reachable l -> running l = true -> frame es dt l = Done l' ->
    main_reachable l'.

End MainLoop.

(** ** Vocabulary of the further properties *)

(** [n] clockwise quarter turns of a mask. *)
Definition turns (n : nat) (m : Mask) : Mask := Nat.iter n rotate_cw_mask m.

(** A piece as [piece_from_k] makes it and rotation keeps it: a kind in
    0..6, the tint equal to the kind, a type bit, and the mask one of the
    four turns of the kind's shape. *)
Definition piece_ok (p : Piece.t) : Prop :=
  0 <= Piece.k p < 7 /\ Piece.tint p = Piece.k p /\ 0 <= Piece.type p < 2 /\
  Piece.w p = 4 /\ Piece.h p = 4 /\
  exists n, (n < 4)%nat /\ Piece.m p = turns n (shape (Piece.k p)).

(** A board cell that can be drawn: when filled, its tint indexes the
    seven-entry [col_piece] and its type is 0 or 1. *)
Definition cell_ok (c : Cell.t) : Prop :=
  Cell.filled c = true -> 0 <= Cell.tint c < 7 /\ 0 <= Cell.type c < 2.

Definition pieces_inv (g : Game.t) : Prop :=
  piece_ok (Game.cur g) /\ piece_ok (Game.next g) /\
  (Game.has_hold g = true -> piece_ok (Game.hold g)) /\
  Forall (Forall cell_ok) (Game.board g).

(** The current piece does not collide where it is. *)
Definition fits (g : Game.t) : Prop :=
  collide g (Game.cur g) (Piece.x (Game.cur g)) (Piece.y (Game.cur g)) = false.

(** The board after the scan of [clear_lines]: an empty row for every full
    row, then the rows that were not full. *)
Definition compact (b : Board) : Board :=
  replicate (full_rows b) zero_board_row ++ kept_rows b.

(** The block [if(cleared){...}] of [clear_lines] as a function of the
    game, for a count inside the table. *)
Definition score_update (n : nat) (g : Game.t) : Game.t :=
  match n, score_tbl !! n with
  | S _, Some pts =>
      game_with_progress g
        (Game.score g + pts * (Game.level g + 1))
        (Game.lines g + Z.of_nat n)
        (Z.quot (Game.lines g + Z.of_nat n) 10)
        (fall_interval (Z.quot (Game.lines g + Z.of_nat n) 10))
  | _, _ => g
  end.

(** The game after [lock_piece] and [clear_lines]. *)
Definition locked_cleared (g : Game.t) : Game.t :=
  score_update (full_rows (Game.board (lock_piece g)))
    (game_with_board g (compact (Game.board (lock_piece g)))).

(** Score, lines, level and fall interval of a game. *)
Definition progress (g : Game.t) : Z * Z * Z * Z :=
  (Game.score g, Game.lines g, Game.level g, Game.fall_ms g).

(** The level and the fall interval are the ones [clear_lines] derives
    from [lines]; score and lines are counts. *)
Definition progress_inv (g : Game.t) : Prop :=
  Game.level g = Z.quot (Game.lines g) 10 /\
  Game.fall_ms g = fall_interval (Game.level g) /\
  0 <= Game.score g /\ 0 <= Game.lines g.

(* ===================================================================== *)
(** * Properties *)
(* ===================================================================== *)

(** ** Mask indices *)

Lemma in_idx4 (i : Z) : In i idx4 <-> 0 <= i < 4.
Proof. unfold idx4. simpl. lia. Qed.

Lemma in_cells4 (r c : Z) : In (r, c) cells4 <-> 0 <= r < 4 /\ 0 <= c < 4.
Proof.
  unfold cells4, idx4. simpl. split.
  - intros Hin. repeat (destruct Hin as [Heq | Hin]; [inversion Heq; lia |]).
    destruct Hin.
  - intros [Hr Hc].
    assert (r = 0 \/ r = 1 \/ r = 2 \/ r = 3) as Hr' by lia.
    assert (c = 0 \/ c = 1 \/ c = 2 \/ c = 3) as Hc' by lia.
    destruct Hr' as [-> | [-> | [-> | ->]]];
      destruct Hc' as [-> | [-> | [-> | ->]]]; tauto.
Qed.

(** ** Collision *)

(** What [collide_cell] decides at one mask cell. *)
Lemma collide_cell_true (b : Board) (m : Mask) (nx ny r c : Z) :
  collide_cell b m nx ny r c = true <->
  mget m r c <> 0 /\
  (~ (0 <= nx + c < COLS /\ 0 <= ny + r < ROWS) \/
   Cell.filled (board_at b (ny + r) (nx + c)) = true).
Proof.
  unfold collide_cell, COLS, ROWS.
  destruct (Z.eqb_spec (mget m r c) 0) as [Hz | Hz].
  - split; [discriminate | intros [Hn _]; contradiction].
  - destruct ((nx + c <? 0) || (nx + c >=? 10) || (ny + r <? 0) || (ny + r >=? 20))
      eqn:Hout.
    + split; [intros _ | reflexivity]. split; [assumption | left; lia].
    + split.
      * intros Hf. split; [assumption | right; assumption].
      * intros [_ [Hb | Hf]]; [lia | assumption].
Qed.

Lemma collide_true (g : Game.t) (p : Piece.t) (nx ny : Z) :
  collide g p nx ny = true <->
  exists r c, 0 <= r < 4 /\ 0 <= c < 4 /\
    collide_cell (Game.board g) (Piece.m p) nx ny r c = true.
Proof.
  unfold collide. rewrite existsb_exists. split.
  - intros (r & Hr & Hex). apply existsb_exists in Hex as (c & Hc & Hcell).
    exists r, c. rewrite <- !in_idx4. auto.
  - intros (r & c & Hr & Hc & Hcell). exists r. split; [by apply in_idx4 |].
    apply existsb_exists. exists c. split; [by apply in_idx4 | assumption].
Qed.

(** [collide] is true exactly when some set mask cell misses the board or
    hits a filled cell. *)
Lemma collide_true_iff (g : Game.t) (p : Piece.t) (nx ny : Z) :
  collide g p nx ny = true <->
  exists r c, 0 <= r < 4 /\ 0 <= c < 4 /\ mget (Piece.m p) r c <> 0 /\
    (~ (0 <= nx + c < COLS /\ 0 <= ny + r < ROWS) \/
     Cell.filled (board_at (Game.board g) (ny + r) (nx + c)) = true).
Proof.
  rewrite collide_true. split.
  - intros (r & c & Hr & Hc & Hcell). exists r, c.
    apply collide_cell_true in Hcell. tauto.
  - intros (r & c & Hr & Hc & Hm & Hhit). exists r, c.
    rewrite collide_cell_true. tauto.
Qed.

(** [collide] is false exactly when every set mask cell lands inside the
    board on an empty cell. *)
Lemma collide_false_iff (g : Game.t) (p : Piece.t) (nx ny : Z) :
  collide g p nx ny = false <->
  forall r c, 0 <= r < 4 -> 0 <= c < 4 -> mget (Piece.m p) r c <> 0 ->
    (0 <= nx + c < COLS /\ 0 <= ny + r < ROWS) /\
    Cell.filled (board_at (Game.board g) (ny + r) (nx + c)) = false.
Proof.
  pose proof (collide_true_iff g p nx ny) as Htrue. split.
  - intros Hfalse r c Hr Hc Hm.
    assert (~ (~ (0 <= nx + c < COLS /\ 0 <= ny + r < ROWS) \/
               Cell.filled (board_at (Game.board g) (ny + r) (nx + c)) = true))
      as Hno.
    { intros Hhit. assert (collide g p nx ny = true) as Ht.
      { apply Htrue. exists r, c. tauto. }
      congruence. }
    split.
    + unfold COLS, ROWS in *. lia.
    + destruct (Cell.filled (board_at (Game.board g) (ny + r) (nx + c)));
        [exfalso; apply Hno; right; reflexivity | reflexivity].
  - intros Hall. apply not_true_is_false. intros Hcol.
    apply Htrue in Hcol as (r & c & Hr & Hc & Hm & Hhit).
    destruct (Hall r c Hr Hc Hm) as [Hin Hempty].
    destruct Hhit as [Hout | Hf]; [contradiction | congruence].
Qed.


(** ** Cells above the board top *)

(** C2, as stated, fails: the O piece one row above the empty board has
    its upper two cells above the top and its lower two on empty cells of
    row 0, and [collide] returns true. *)
Lemma collide_above_top_counterexample :
  ~ (forall g p nx ny, above_top_only g p nx ny -> collide g p nx ny = false).
Proof.
  intros Hall.
  specialize (Hall empty_game (Game.cur empty_game) 3 (-1)).
  assert (above_top_only empty_game (Game.cur empty_game) 3 (-1)) as Hpre.
  { split.
    - exists 0, 0.
      split; [lia | split; [lia | split; [vm_compute; discriminate | lia]]].
    - intros r c Hr Hc Hm Hy.
      assert (r = 1 \/ r = 2 \/ r = 3) as Hr' by lia.
      assert (c = 0 \/ c = 1 \/ c = 2 \/ c = 3) as Hc' by lia.
      destruct Hr' as [-> | [-> | ->]];
        destruct Hc' as [-> | [-> | [-> | ->]]];
        first [ exfalso; apply Hm; reflexivity
              | unfold COLS, ROWS; split; [lia | split; [lia | reflexivity]] ]. }
  apply Hall in Hpre. vm_compute in Hpre. discriminate.
Qed.

(** C2, amended.  A set mask cell that lands above the board top (absolute
    row below 0) makes [collide] return true, whatever the other cells do:
    the row test [y<0] is part of the bounds test, for spawn checks as for
    every other call. *)
Theorem collide_above_top (g : Game.t) (p : Piece.t) (nx ny r c : Z) :
  0 <= r < 4 -> 0 <= c < 4 -> mget (Piece.m p) r c <> 0 -> ny + r < 0 ->
  collide g p nx ny = true.
Proof.
  intros Hr Hc Hm Hy. apply collide_true_iff. exists r, c.
  split; [lia | split; [lia | split; [assumption | left; lia]]].
Qed.

Lemma collide_above_top_witness :
  collide empty_game (Game.cur empty_game) 3 (-1) = true.
Proof.
  apply (collide_above_top empty_game (Game.cur empty_game) 3 (-1) 0 0);
    [lia | lia | vm_compute; discriminate | lia].
Defined.

(** The offsets [collide] receives are [int]s and the mask indices are
    0..3: an addition that would leave the [int] range lands outside the
    board whether it wraps or not, so the model on [Z] and a wrapping
    32-bit evaluation decide every cell alike. *)
Lemma collide_cell_wrap_agree (b : Board) (m : Mask) (nx ny r c : Z) :
  int_range nx -> int_range ny -> 0 <= r < 4 -> 0 <= c < 4 ->
  collide_cell_wrap b m nx ny r c = collide_cell b m nx ny r c.
Proof.
  unfold int_range. intros Hnx Hny Hr Hc.
  unfold collide_cell_wrap, collide_cell.
  destruct (mget m r c =? 0); [reflexivity |].
  assert (forall z k, - 2 ^ 31 <= z < 2 ^ 31 -> 0 <= k < 4 ->
            (z + k < 2 ^ 31 /\ wrap32 (z + k) = z + k) \/
            (2 ^ 31 <= z + k /\ wrap32 (z + k) < 0)) as Hwrap.
  { intros z k Hz Hk. unfold wrap32.
    destruct (Z_lt_ge_dec (z + k) (2 ^ 31)) as [Hlt | Hge].
    - left. split; [assumption |].
      rewrite Z.mod_small by lia. lia.
    - right. split; [lia |].
      replace (z + k + 2 ^ 31) with ((z + k - 2 ^ 31) + 1 * 2 ^ 32) by lia.
      rewrite Z.mod_add by lia. rewrite Z.mod_small by lia. lia. }
  unfold COLS, ROWS.
  destruct (Hwrap nx c Hnx Hc) as [[_ ->] | [Hbig Hneg]];
    destruct (Hwrap ny r Hny Hr) as [[_ ->] | [Hbig' Hneg']];
    try reflexivity.
  - replace ((nx + c <? 0) || (nx + c >=? 10) || (wrap32 (ny + r) <? 0)
             || (wrap32 (ny + r) >=? 20)) with true by lia.
    replace ((nx + c <? 0) || (nx + c >=? 10) || (ny + r <? 0)
             || (ny + r >=? 20)) with true by lia.
    reflexivity.
  - replace ((wrap32 (nx + c) <? 0) || (wrap32 (nx + c) >=? 10)
             || (ny + r <? 0) || (ny + r >=? 20)) with true by lia.
    replace ((nx + c <? 0) || (nx + c >=? 10) || (ny + r <? 0)
             || (ny + r >=? 20)) with true by lia.
    reflexivity.
  - replace ((wrap32 (nx + c) <? 0) || (wrap32 (nx + c) >=? 10)
             || (wrap32 (ny + r) <? 0) || (wrap32 (ny + r) >=? 20))
      with true by lia.
    replace ((nx + c <? 0) || (nx + c >=? 10) || (ny + r <? 0)
             || (ny + r >=? 20)) with true by lia.
    reflexivity.
Qed.

(** ** Rotation *)

Ltac case_idx i H :=
  let H' := fresh in
  assert (i = 0 \/ i = 1 \/ i = 2 \/ i = 3) as H' by lia;
  clear H; destruct H' as [-> | [-> | [-> | ->]]].

(** The clockwise loop realises [new[c][3-r] = old[r][c]]. *)
Lemma rotate_cw_mask_get (m : Mask) (r c : Z) :
  0 <= r < 4 -> 0 <= c < 4 ->
  mget (rotate_cw_mask m) c (3 - r) = mget m r c.
Proof.
  intros Hr Hc.
  destruct m as [[a00 a01 a02 a03] [a10 a11 a12 a13]
                 [a20 a21 a22 a23] [a30 a31 a32 a33]].
  case_idx r Hr; case_idx c Hc; reflexivity.
Qed.

(** The counter-clockwise loop realises [new[3-c][r] = old[r][c]]. *)
Lemma rotate_ccw_mask_get (m : Mask) (r c : Z) :
  0 <= r < 4 -> 0 <= c < 4 ->
  mget (rotate_ccw_mask m) (3 - c) r = mget m r c.
Proof.
  intros Hr Hc.
  destruct m as [[a00 a01 a02 a03] [a10 a11 a12 a13]
                 [a20 a21 a22 a23] [a30 a31 a32 a33]].
  case_idx r Hr; case_idx c Hc; reflexivity.
Qed.



(** ** The board as an array *)

Lemma wf_board_row (b : Board) (y : Z) :
  wf_board b -> 0 <= y < ROWS ->
  exists row, b !! Z.to_nat y = Some row /\ length row = Z.to_nat COLS.
Proof.
  intros [Hlen Hrows] Hy.
  destruct (lookup_lt_is_Some_2 b (Z.to_nat y)) as [row Hrow]; [lia |].
  exists row. split; [assumption |].
  rewrite Forall_lookup in Hrows. by apply (Hrows _ _ Hrow).
Qed.

Lemma zero_board_wf : wf_board zero_board.
Proof.
  split; [reflexivity |]. unfold zero_board.
  apply Forall_replicate. reflexivity.
Qed.

Lemma board_set_wf (b : Board) (y x : Z) (cl : Cell.t) :
  wf_board b -> wf_board (board_set b y x cl).
Proof.
  intros [Hlen Hrows]. unfold board_set.
  destruct (b !! Z.to_nat y) as [row |] eqn:Hrow; [| by split].
  split; [by rewrite length_insert |].
  apply Forall_insert; [assumption |]. rewrite length_insert.
  rewrite Forall_lookup in Hrows. by apply (Hrows _ _ Hrow).
Qed.

(** Reading back after [board[y][x] = cl]. *)
Lemma board_at_set (b : Board) (y x : Z) (cl : Cell.t) (y' x' : Z) :
  wf_board b -> 0 <= y < ROWS -> 0 <= x < COLS -> 0 <= y' -> 0 <= x' ->
  board_at (board_set b y x cl) y' x' =
  if (y' =? y) && (x' =? x) then cl else board_at b y' x'.
Proof.
  intros Hwf Hy Hx Hy' Hx'.
  destruct (wf_board_row b y Hwf Hy) as (row & Hrow & Hlen).
  unfold board_set, board_at. rewrite Hrow.
  destruct (Z.eqb_spec y' y) as [-> | Hne]; simpl.
  - rewrite list_lookup_insert_eq by (apply lookup_lt_is_Some; eauto).
    destruct (Z.eqb_spec x' x) as [-> | Hnx].
    + rewrite list_lookup_insert_eq; [reflexivity |]. unfold COLS in *. lia.
    + rewrite list_lookup_insert_ne by lia. by rewrite Hrow.
  - rewrite list_lookup_insert_ne by lia. reflexivity.
Qed.

(** A write to row [y] leaves the other rows as they are. *)
Lemma board_set_other_row (b : Board) (y x : Z) (cl : Cell.t) (i : nat) :
  i <> Z.to_nat y -> board_set b y x cl !! i = b !! i.
Proof.
  intros Hi. unfold board_set.
  destruct (b !! Z.to_nat y); [| reflexivity].
  by rewrite list_lookup_insert_ne.
Qed.

(** ** Counting filled cells *)

Lemma count_filled_app (b1 b2 : Board) :
  count_filled (b1 ++ b2) = (count_filled b1 + count_filled b2)%nat.
Proof.
  unfold count_filled. by rewrite concat_app, List.filter_app, length_app.
Qed.

Lemma count_filled_cons (row : list Cell.t) (b : Board) :
  count_filled (row :: b) = (row_count row + count_filled b)%nat.
Proof.
  unfold count_filled, row_count. simpl.
  by rewrite List.filter_app, length_app.
Qed.

Lemma row_count_insert (row : list Cell.t) (j : nat) (old cl : Cell.t) :
  row !! j = Some old ->
  (row_count (<[j := cl]> row) + (if Cell.filled old then 1 else 0) =
   row_count row + (if Cell.filled cl then 1 else 0))%nat.
Proof.
  intros Hj.
  rewrite insert_take_drop by (apply lookup_lt_is_Some; eauto).
  rewrite <- (take_drop_middle row j old Hj) at 3.
  unfold row_count. rewrite !List.filter_app, !length_app. simpl.
  destruct (Cell.filled old), (Cell.filled cl); simpl; lia.
Qed.

Lemma count_filled_insert (b : Board) (i : nat) (row row' : list Cell.t) :
  b !! i = Some row ->
  (count_filled (<[i := row']> b) + row_count row =
   count_filled b + row_count row')%nat.
Proof.
  intros Hi.
  rewrite insert_take_drop by (apply lookup_lt_is_Some; eauto).
  rewrite <- (take_drop_middle b i row Hi) at 3.
  rewrite !count_filled_app, !count_filled_cons. lia.
Qed.

(** Filling an empty in-range cell adds one filled cell. *)
Lemma count_filled_set_empty (b : Board) (y x : Z) (ty ti : Z) :
  wf_board b -> 0 <= y < ROWS -> 0 <= x < COLS ->
  Cell.filled (board_at b y x) = false ->
  count_filled (board_set b y x (Cell.mk true ty ti)) = S (count_filled b).
Proof.
  intros Hwf Hy Hx Hempty.
  destruct (wf_board_row b y Hwf Hy) as (row & Hrow & Hlen).
  destruct (lookup_lt_is_Some_2 row (Z.to_nat x)) as [old Hold];
    [unfold COLS in *; lia |].
  unfold board_at in Hempty. rewrite Hrow, Hold in Hempty.
  unfold board_set. rewrite Hrow.
  pose proof (count_filled_insert b (Z.to_nat y) row
                (<[Z.to_nat x := Cell.mk true ty ti]> row) Hrow) as Hb.
  pose proof (row_count_insert row (Z.to_nat x) old (Cell.mk true ty ti) Hold)
    as Hr.
  rewrite Hempty in Hr. simpl in Hr. lia.
Qed.

(** ** Lock *)

Lemma covers_cons (p : Piece.t) (rc : Z * Z) (cs : list (Z * Z)) (y x : Z) :
  covers p (rc :: cs) y x = covers p [rc] y x || covers p cs y x.
Proof. unfold covers. simpl. by rewrite orb_false_r. Qed.

Lemma lock_cell_wf (p : Piece.t) (b : Board) (r c : Z) :
  wf_board b -> wf_board (lock_cell p b r c).
Proof.
  intros Hwf. unfold lock_cell.
  destruct (mget (Piece.m p) r c =? 0); [assumption |].
  destruct (_ && _); [by apply board_set_wf | assumption].
Qed.

Lemma lock_cells_wf (p : Piece.t) (cs : list (Z * Z)) (b : Board) :
  wf_board b -> wf_board (lock_cells p cs b).
Proof.
  revert b. induction cs as [| rc cs IH]; intros b Hwf; [assumption |].
  simpl. apply IH. by apply lock_cell_wf.
Qed.

Lemma lock_cell_at (p : Piece.t) (b : Board) (r c y x : Z) :
  wf_board b -> 0 <= y < ROWS -> 0 <= x < COLS ->
  board_at (lock_cell p b r c) y x =
  if covers p [(r, c)] y x
  then Cell.mk true (Piece.type p) (Piece.tint p)
  else board_at b y x.
Proof.
  intros Hwf Hy Hx. unfold lock_cell, covers. simpl.
  destruct (mget (Piece.m p) r c =? 0); simpl; [reflexivity |].
  rewrite orb_false_r.
  destruct ((Piece.y p + r >=? 0) && (Piece.y p + r <? ROWS) &&
            (Piece.x p + c >=? 0) && (Piece.x p + c <? COLS)) eqn:Hin.
  - rewrite board_at_set by (assumption || (unfold ROWS, COLS in *; lia)).
    reflexivity.
  - destruct ((y =? Piece.y p + r) && (x =? Piece.x p + c)) eqn:Heq;
      [| reflexivity].
    unfold ROWS, COLS in *. lia.
Qed.

Lemma lock_cells_at (p : Piece.t) (cs : list (Z * Z)) (b : Board) (y x : Z) :
  wf_board b -> 0 <= y < ROWS -> 0 <= x < COLS ->
  board_at (lock_cells p cs b) y x =
  if covers p cs y x
  then Cell.mk true (Piece.type p) (Piece.tint p)
  else board_at b y x.
Proof.
  revert b. induction cs as [| [r c] cs IH]; intros b Hwf Hy Hx;
    [reflexivity |].
  change (lock_cells p ((r, c) :: cs) b)
    with (lock_cells p cs (lock_cell p b r c)).
  rewrite IH by (try apply lock_cell_wf; assumption).
  rewrite (lock_cell_at p b r c y x) by assumption.
  rewrite (covers_cons p (r, c) cs y x).
  destruct (covers p [(r, c)] y x), (covers p cs y x); reflexivity.
Qed.

Lemma covers_cells4 (p : Piece.t) (y x : Z) :
  covers p cells4 y x = true <->
  exists r c, 0 <= r < 4 /\ 0 <= c < 4 /\ mget (Piece.m p) r c <> 0 /\
              y = Piece.y p + r /\ x = Piece.x p + c.
Proof.
  unfold covers. rewrite existsb_exists. split.
  - intros ([r c] & Hin & Hhit). apply in_cells4 in Hin. simpl in Hhit.
    exists r, c. destruct (Z.eqb_spec (mget (Piece.m p) r c) 0); simpl in Hhit;
      [discriminate |]. repeat split; try tauto; lia.
  - intros (r & c & Hr & Hc & Hm & -> & ->). exists (r, c).
    split; [by apply in_cells4 |]. simpl.
    destruct (Z.eqb_spec (mget (Piece.m p) r c) 0); [contradiction |].
    simpl. lia.
Qed.

Lemma set_cells_cons (m : Mask) (r c : Z) (cs : list (Z * Z)) :
  set_cells m ((r, c) :: cs) =
  Nat.add (if mget m r c =? 0 then 0%nat else 1%nat) (set_cells m cs).
Proof.
  unfold set_cells. simpl. destruct (mget m r c =? 0); reflexivity.
Qed.

Lemma lock_cell_unset (p : Piece.t) (b : Board) (r c : Z) :
  mget (Piece.m p) r c = 0 -> lock_cell p b r c = b.
Proof. intros Hz. unfold lock_cell. by rewrite Hz. Qed.

Lemma lock_cell_set (p : Piece.t) (b : Board) (r c : Z) :
  mget (Piece.m p) r c <> 0 ->
  0 <= Piece.x p + c < COLS -> 0 <= Piece.y p + r < ROWS ->
  lock_cell p b r c =
  board_set b (Piece.y p + r) (Piece.x p + c)
            (Cell.mk true (Piece.type p) (Piece.tint p)).
Proof.
  intros Hnz Hx Hy. unfold lock_cell.
  destruct (Z.eqb_spec (mget (Piece.m p) r c) 0); [contradiction |].
  replace ((Piece.y p + r >=? 0) && (Piece.y p + r <? ROWS) &&
           (Piece.x p + c >=? 0) && (Piece.x p + c <? COLS)) with true;
    [reflexivity |]. unfold ROWS, COLS in *. lia.
Qed.

Lemma lock_cells_count (p : Piece.t) (cs : list (Z * Z)) (b : Board) :
  wf_board b -> NoDup cs ->
  (forall r c, In (r, c) cs -> mget (Piece.m p) r c <> 0 ->
     (0 <= Piece.x p + c < COLS /\ 0 <= Piece.y p + r < ROWS) /\
     Cell.filled (board_at b (Piece.y p + r) (Piece.x p + c)) = false) ->
  count_filled (lock_cells p cs b) =
  (count_filled b + set_cells (Piece.m p) cs)%nat.
Proof.
  revert b. induction cs as [| [r c] cs IH]; intros b Hwf Hnd Hfree.
  - unfold set_cells. simpl. lia.
  - apply NoDup_cons in Hnd as [Hnotin Hnd].
    change (lock_cells p ((r, c) :: cs) b)
      with (lock_cells p cs (lock_cell p b r c)).
    rewrite set_cells_cons.
    destruct (Z.eqb_spec (mget (Piece.m p) r c) 0) as [Hz | Hnz].
    + rewrite lock_cell_unset by assumption.
      rewrite IH; [lia | assumption | assumption |].
      intros r' c' Hin. apply Hfree. by right.
    + destruct (Hfree r c (or_introl eq_refl) Hnz) as [[Hx Hy] Hempty].
      rewrite lock_cell_set by assumption.
      rewrite IH.
      * rewrite count_filled_set_empty by assumption. lia.
      * by apply board_set_wf.
      * assumption.
      * intros r' c' Hin Hm'.
        destruct (Hfree r' c' (or_intror Hin) Hm') as [[Hx' Hy'] Hempty'].
        split; [done |].
        rewrite board_at_set by (assumption || lia).
        destruct ((Piece.y p + r' =? Piece.y p + r) &&
                  (Piece.x p + c' =? Piece.x p + c)) eqn:Heq; [| assumption].
        exfalso. apply Hnotin. apply list_elem_of_In.
        assert (r' = r) as -> by lia. assert (c' = c) as -> by lia.
        assumption.
Qed.

Lemma cells4_NoDup : NoDup cells4.
Proof. apply (bool_decide_unpack _). vm_compute. reflexivity. Qed.

Lemma popcount_set_cells (m : Mask) : popcount m = set_cells m cells4.
Proof. reflexivity. Qed.

(** C7, as stated, fails in its last part: the O piece at the spawn
    position lies fully within bounds, but over a board whose cell
    (0,3) is already filled locking it adds three filled cells, not four. *)
Lemma lock_piece_count_counterexample :
  ~ (forall g, wf_board (Game.board g) -> within_bounds (Game.cur g) ->
       count_filled (Game.board (lock_piece g)) =
       (count_filled (Game.board g) + popcount (Piece.m (Game.cur g)))%nat).
Proof.
  intros Hall. specialize (Hall overlap_game).
  assert (wf_board (Game.board overlap_game)) as Hwf
    by (apply board_set_wf, zero_board_wf).
  assert (within_bounds (Game.cur overlap_game)) as Hin.
  { intros r c Hr Hc Hm. unfold COLS, ROWS. simpl. lia. }
  specialize (Hall Hwf Hin). vm_compute in Hall. discriminate.
Qed.

(** C7, amended.  [lock_piece] writes [filled=true] with the current
    piece's type and tint into exactly the board cells that are the
    in-bounds targets of set mask cells; set cells whose target is outside
    the board (a negative row included) are dropped, every other cell and
    every other field of the game, [game_over] included, is unchanged.
    Locking a piece that does not collide at its position (every set cell
    inside the board on an empty cell) adds exactly the piece's number of
    set cells to the number of filled board cells. *)
Theorem lock_piece_spec (g : Game.t) :
  wf_board (Game.board g) ->
  let p := Game.cur g in
  let g' := lock_piece g in
  wf_board (Game.board g') /\
  (forall y x, 0 <= y < ROWS -> 0 <= x < COLS ->
     ((exists r c, 0 <= r < 4 /\ 0 <= c < 4 /\ mget (Piece.m p) r c <> 0 /\
                   y = Piece.y p + r /\ x = Piece.x p + c) ->
      board_at (Game.board g') y x =
      Cell.mk true (Piece.type p) (Piece.tint p)) /\
     (~ (exists r c, 0 <= r < 4 /\ 0 <= c < 4 /\ mget (Piece.m p) r c <> 0 /\
                     y = Piece.y p + r /\ x = Piece.x p + c) ->
      board_at (Game.board g') y x = board_at (Game.board g) y x)) /\
  g' = game_with_board g (Game.board g') /\
  Game.game_over g' = Game.game_over g /\
  (collide g p (Piece.x p) (Piece.y p) = false ->
   count_filled (Game.board g') =
   (count_filled (Game.board g) + popcount (Piece.m p))%nat).
Proof.
  intros Hwf p g'.
  split; [| split; [| split; [| split]]].
  - by apply lock_cells_wf.
  - intros y x Hy Hx.
    pose proof (lock_cells_at p cells4 (Game.board g) y x Hwf Hy Hx) as Hat.
    pose proof (covers_cells4 p y x) as Hcov.
    change (lock_cells p cells4 (Game.board g)) with (Game.board g') in Hat.
    split; intros Hex.
    + apply Hcov in Hex. by rewrite Hex in Hat.
    + destruct (covers p cells4 y x); [| assumption].
      exfalso. apply Hex, Hcov. reflexivity.
  - reflexivity.
  - reflexivity.
  - intros Hfree. rewrite popcount_set_cells.
    apply (lock_cells_count p cells4 (Game.board g) Hwf cells4_NoDup).
    intros r c Hin Hm. apply in_cells4 in Hin as [Hr Hc].
    by apply (collide_false_iff g p (Piece.x p) (Piece.y p)).
Qed.

Lemma lock_piece_spec_witness :
  count_filled (Game.board (lock_piece empty_game)) = 4%nat.
Proof.
  destruct (lock_piece_spec empty_game zero_board_wf) as (_ & _ & _ & _ & Hc).
  rewrite Hc; reflexivity.
Defined.

(** ** Line clear *)

(** On a board of the declared shape the column loop of [row_full] agrees
    with the row being full. *)
Lemma row_full_lookup (b : Board) (r : Z) (row : list Cell.t) :
  b !! Z.to_nat r = Some row -> length row = Z.to_nat COLS ->
  row_full b r = row_is_full row.
Proof.
  intros Hrow Hlen. unfold row_full, board_at. rewrite Hrow.
  do 10 (destruct row as [| ? row]; [discriminate Hlen |]).
  destruct row; [| discriminate Hlen].
  vm_compute. reflexivity.
Qed.

(** The [memcpy] loop: rows 1..n receive the old rows 0..n-1. *)
Lemma pull_down_spec (b : Board) (n : nat) :
  (n < length b)%nat ->
  pull_down b n = take 1 b ++ take n b ++ drop (S n) b.
Proof.
  revert b. induction n as [| n IH]; intros b Hn.
  - simpl take at 2. simpl. rewrite <- (take_drop 1 b) at 1. reflexivity.
  - simpl pull_down.
    destruct (lookup_lt_is_Some_2 b n) as [row Hrow]; [lia |].
    unfold row_at. rewrite Hrow.
    rewrite IH by (rewrite length_insert; lia).
    rewrite !take_insert_ge by lia.
    rewrite (insert_take_drop b (S n) row) by lia.
    rewrite drop_app_length'; [| rewrite length_take; lia].
    rewrite (take_S_r b n row Hrow), <- !app_assoc. reflexivity.
Qed.

(** Removing row [r]: an empty row on top, the rows above [r] one lower,
    the rows below [r] in place. *)
Lemma remove_row_spec (b : Board) (r : Z) :
  0 <= r < Z.of_nat (length b) ->
  remove_row b r =
  zero_board_row :: take (Z.to_nat r) b ++ drop (S (Z.to_nat r)) b.
Proof.
  intros Hr. unfold remove_row. rewrite pull_down_spec by lia.
  destruct b as [| row0 b]; [simpl in Hr; lia |]. reflexivity.
Qed.

Lemma remove_row_middle (top : Board) (row : list Cell.t) (rest : Board) :
  remove_row (top ++ row :: rest) (Z.of_nat (length top)) =
  zero_board_row :: top ++ rest.
Proof.
  rewrite remove_row_spec by (rewrite length_app; simpl; lia).
  rewrite Nat2Z.id, take_app_length.
  rewrite <- (Nat.add_1_r (length top)), drop_app_add. reflexivity.
Qed.

Lemma full_rows_app (b1 b2 : Board) :
  full_rows (b1 ++ b2) = (full_rows b1 + full_rows b2)%nat.
Proof. unfold full_rows. by rewrite List.filter_app, length_app. Qed.

Lemma kept_rows_app (b1 b2 : Board) :
  kept_rows (b1 ++ b2) = kept_rows b1 ++ kept_rows b2.
Proof. unfold kept_rows. by rewrite List.filter_app. Qed.

Lemma replicate_app_cons {A} (n : nat) (x : A) (l : list A) :
  replicate n x ++ x :: l = x :: replicate n x ++ l.
Proof. induction n as [| n IH]; simpl; [reflexivity | by rewrite IH]. Qed.

Lemma full_rows_snoc (b : Board) (row : list Cell.t) :
  full_rows (b ++ [row]) =
  Nat.add (full_rows b) (if row_is_full row then 1%nat else 0%nat).
Proof.
  rewrite full_rows_app. unfold full_rows at 2. simpl.
  by destruct (row_is_full row).
Qed.

Lemma kept_rows_snoc (b : Board) (row : list Cell.t) :
  kept_rows (b ++ [row]) =
  kept_rows b ++ (if row_is_full row then [] else [row]).
Proof.
  rewrite kept_rows_app. unfold kept_rows at 2. simpl.
  by destruct (row_is_full row).
Qed.

Lemma full_rows_zero_cons (b : Board) :
  full_rows (zero_board_row :: b) = full_rows b.
Proof. reflexivity. Qed.

Lemma kept_rows_zero_cons (b : Board) :
  kept_rows (zero_board_row :: b) = zero_board_row :: kept_rows b.
Proof. reflexivity. Qed.

Lemma full_rows_le (b : Board) : (full_rows b <= length b)%nat.
Proof. unfold full_rows. apply List.filter_length_le. Qed.

(** What is kept contains no full row. *)
Lemma kept_rows_no_full (b : Board) : full_rows (kept_rows b) = 0%nat.
Proof.
  unfold full_rows, kept_rows. induction b as [| row b IH]; [reflexivity |].
  simpl. destruct (row_is_full row) eqn:Hfull; simpl; [assumption |].
  rewrite Hfull. assumption.
Qed.

Lemma full_rows_replicate_zero (n : nat) (b : Board) :
  full_rows (replicate n zero_board_row ++ b) = full_rows b.
Proof. induction n as [| n IH]; [reflexivity | exact IH]. Qed.

Lemma kept_rows_length (b : Board) :
  (full_rows b + length (kept_rows b) = length b)%nat.
Proof.
  unfold full_rows, kept_rows. induction b as [| row b IH]; [reflexivity |].
  simpl. destruct (row_is_full row); simpl; lia.
Qed.

Lemma kept_rows_Forall (P : list Cell.t -> Prop) (b : Board) :
  Forall P b -> Forall P (kept_rows b).
Proof.
  unfold kept_rows. induction 1 as [| row b Hrow Hb IH]; [constructor |].
  simpl. destruct (row_is_full row); simpl; [assumption | by constructor].
Qed.

(** The compacted board has the declared shape again. *)
Lemma compact_wf (b : Board) :
  wf_board b ->
  wf_board (replicate (full_rows b) zero_board_row ++ kept_rows b).
Proof.
  intros [Hlen Hrows]. split.
  - rewrite length_app, length_replicate.
    pose proof (kept_rows_length b). lia.
  - apply Forall_app. split.
    + apply Forall_replicate. reflexivity.
    + by apply kept_rows_Forall.
Qed.

Section EngineFacts.
Context {F : Type} `{FloatOps F}.

(** *** Explosions leave the game alone *)

Lemma spawn_one_game cx cy base (w : World F) :
  game (spawn_one cx cy base w) = game w.
Proof.
  unfold spawn_one. destruct (scan_dead _ _ _); [| reflexivity].
  destruct (make_particle _ _ _ _). reflexivity.
Qed.

Lemma iter_spawn_one_game cx cy base (n : nat) (w : World F) :
  game (Nat.iter n (spawn_one cx cy base) w) = game w.
Proof.
  induction n as [| n IH]; [reflexivity |].
  simpl. by rewrite spawn_one_game.
Qed.

Lemma spawn_explosion_game cx cy base (w : World F) :
  game (spawn_explosion cx cy base w) = game w.
Proof.
  unfold spawn_explosion. destruct (rand (rng w)) as [n s].
  by rewrite iter_spawn_one_game.
Qed.

(** *** One iteration of the scan *)

Lemma clear_loop_exit (fuel : nat) (r cleared : Z) (w : World F) :
  r < 0 -> clear_loop (S fuel) r cleared w = Done (cleared, w).
Proof.
  intros Hr. simpl. destruct (Z.geb_spec r 0); [lia | reflexivity].
Qed.

(** A row that is not full: the scan moves one row up. *)
Lemma clear_loop_miss (fuel : nat) (r cleared : Z) (w : World F) :
  0 <= r -> row_full (Game.board (game w)) r = false ->
  clear_loop (S fuel) r cleared w = clear_loop fuel (r - 1) cleared w.
Proof.
  intros Hr Hfull. simpl. destruct (Z.geb_spec r 0); [| lia].
  unfold bind, get_game. by rewrite Hfull.
Qed.

(** A full row: counted, removed, and the same index [r] is examined
    again. *)
Lemma clear_loop_hit (fuel : nat) (r cleared : Z) (w : World F) :
  0 <= r -> row_full (Game.board (game w)) r = true ->
  clear_loop (S fuel) r cleared w =
  clear_loop fuel r (cleared + 1) (after_clear r w).
Proof.
  intros Hr Hfull. simpl. destruct (Z.geb_spec r 0); [| lia].
  unfold bind, get_game. rewrite Hfull. reflexivity.
Qed.

(** The scan from the last row of [top] downwards-to-upwards: the full
    rows of [top] are counted and removed, the rows [rest] below are
    not looked at again. *)
Lemma clear_loop_spec (fuel : nat) :
  forall (top rest : Board) (w : World F) (cleared : Z),
    Game.board (game w) = top ++ rest ->
    Forall (fun row => length row = Z.to_nat COLS) top ->
    (length top + full_rows top < fuel)%nat ->
    exists w',
      clear_loop fuel (Z.of_nat (length top) - 1) cleared w =
        Done (cleared + Z.of_nat (full_rows top), w') /\
      game w' =
        game_with_board (game w)
          (replicate (full_rows top) zero_board_row ++ kept_rows top ++ rest).
Proof.
  induction fuel as [| fuel IH]; intros top rest w cleared Hb Hrows Hfuel;
    [lia |].
  destruct (decide (top = [])) as [-> | Hne].
  - exists w. rewrite clear_loop_exit by (simpl; lia). simpl.
    split; [f_equal; f_equal; unfold full_rows; simpl; lia |].
    simpl in Hb. rewrite <- Hb. by destruct (game w).
  - destruct (exists_last Hne) as (top' & row & ->).
    rewrite length_app in *. simpl length in *.
    apply Forall_app in Hrows as [Hrows' Hrow].
    apply Forall_inv in Hrow.
    replace (Z.of_nat (length top' + 1) - 1) with (Z.of_nat (length top'))
      by lia.
    assert (row_full (Game.board (game w)) (Z.of_nat (length top')) =
            row_is_full row) as Hfull.
    { apply row_full_lookup; [| assumption].
      rewrite Hb, Nat2Z.id, <- app_assoc. by apply list_lookup_middle. }
    rewrite full_rows_snoc in *. rewrite kept_rows_snoc.
    destruct (row_is_full row) eqn:Hrf.
    + rewrite clear_loop_hit by (lia || assumption).
      assert (Game.board (game (after_clear (Z.of_nat (length top')) w)) =
              (zero_board_row :: top') ++ rest) as Hb'.
      { unfold after_clear, on_game. simpl.
        rewrite spawn_explosion_game, Hb, <- app_assoc.
        apply remove_row_middle. }
      destruct (IH (zero_board_row :: top') rest
                   (after_clear (Z.of_nat (length top')) w) (cleared + 1) Hb')
        as (w' & Hrun & Hgame).
      { constructor; [reflexivity | assumption]. }
      { rewrite full_rows_zero_cons. simpl length. lia. }
      exists w'. simpl length in Hrun.
      replace (Z.of_nat (S (length top')) - 1) with (Z.of_nat (length top'))
        in Hrun by lia.
      rewrite full_rows_zero_cons in Hrun, Hgame.
      rewrite kept_rows_zero_cons in Hgame.
      rewrite Hrun. split.
      * f_equal. f_equal. lia.
      * rewrite Hgame. unfold after_clear, on_game. simpl.
        rewrite spawn_explosion_game. unfold game_with_board. simpl.
        f_equal. rewrite Nat.add_1_r, app_nil_r. simpl.
        apply replicate_app_cons.
    + rewrite clear_loop_miss by (lia || assumption).
      destruct (IH top' (row :: rest) w cleared) as (w' & Hrun & Hgame).
      { by rewrite Hb, <- app_assoc. }
      { assumption. }
      { lia. }
      exists w'. rewrite Hrun. split.
      * f_equal. f_equal. lia.
      * rewrite Hgame. rewrite Nat.add_0_r, <- !app_assoc. reflexivity.
Qed.

End EngineFacts.

Lemma full_rows_zero_lookup (b : Board) (i : nat) (row : list Cell.t) :
  full_rows b = 0%nat -> b !! i = Some row -> row_is_full row = false.
Proof.
  unfold full_rows. revert i. induction b as [| row0 b IH]; intros i Hz Hi;
    [discriminate |].
  simpl in Hz. destruct (row_is_full row0) eqn:Hfull; [discriminate |].
  destruct i as [| i]; simpl in Hi.
  - by injection Hi as <-.
  - by apply (IH i).
Qed.

(** On a board of the declared shape, no full row in the list sense means
    that the source's row test fails on every row. *)
Lemma no_full_row_source (b : Board) (r : Z) :
  wf_board b -> full_rows b = 0%nat -> 0 <= r < ROWS -> row_full b r = false.
Proof.
  intros Hwf Hz Hr. destruct (wf_board_row b r Hwf Hr) as (row & Hrow & Hlen).
  rewrite (row_full_lookup b r row Hrow Hlen).
  by apply (full_rows_zero_lookup b (Z.to_nat r)).
Qed.

(** The rows of the board after row [r] was removed. *)
Lemma remove_row_lookup (b : Board) (r : Z) (i : nat) :
  0 <= r < Z.of_nat (length b) ->
  remove_row b r !! i =
  if decide (i = 0%nat) then Some zero_board_row
  else if decide (Z.of_nat i <= r) then b !! (i - 1)%nat
  else b !! i.
Proof.
  intros Hr. rewrite remove_row_spec by assumption.
  destruct i as [| i]; [reflexivity |]. simpl.
  destruct (decide (Z.of_nat (S i) <= r)) as [Hle | Hgt].
  - rewrite lookup_app_l by (rewrite length_take; lia).
    rewrite lookup_take_lt by lia. by rewrite Nat.sub_0_r.
  - rewrite lookup_app_r by (rewrite length_take; lia).
    rewrite length_take, lookup_drop. f_equal. lia.
Qed.

Section ClearLines.
Context {F : Type} `{FloatOps F}.

(** The scan of [clear_lines] on a board of the declared shape: it ends,
    counts the full rows and leaves the compacted board. *)
Lemma clear_rows_run (w : World F) :
  wf_board (Game.board (game w)) ->
  exists w',
    clear_rows w = Done (Z.of_nat (full_rows (Game.board (game w))), w') /\
    Game.board (game w') =
      replicate (full_rows (Game.board (game w))) zero_board_row ++
      kept_rows (Game.board (game w)) /\
    game w' = game_with_board (game w) (Game.board (game w')).
Proof.
  intros Hwf. pose proof Hwf as [Hlen Hrows].
  destruct (clear_loop_spec clear_fuel (Game.board (game w)) [] w 0)
    as (w' & Hrun & Hgame).
  - by rewrite app_nil_r.
  - assumption.
  - pose proof (full_rows_le (Game.board (game w))). unfold clear_fuel.
    rewrite Hlen. lia.
  - exists w'. rewrite app_nil_r in Hgame.
    assert (Game.board (game w') =
            replicate (full_rows (Game.board (game w))) zero_board_row ++
            kept_rows (Game.board (game w))) as Hb' by (by rewrite Hgame).
    split; [| split; [assumption | by rewrite Hb']].
    unfold clear_rows.
    replace (ROWS - 1) with (Z.of_nat (length (Game.board (game w))) - 1)
      by (rewrite Hlen; unfold ROWS; lia).
    exact Hrun.
Qed.

(** C4. On a board of the declared shape [clear_lines]' scan, started
    at row [ROWS-1], ends (the fuel does not run out) with [cleared]
    equal to the number of full rows, at most [ROWS].  A full row at
    index [r] is counted, removed and the scan continues at the same
    index [r]; removing row [r] puts an empty row at index 0, gives each
    row [i] in [1..r] the old row [i-1] and leaves the rows below [r].
    The final board is [cleared] empty rows followed by the rows that
    were not full, in their old order; it has no full row, and no other
    field of the game changes in the scan. *)
Theorem clear_rows_spec (w : World F) :
  wf_board (Game.board (game w)) ->
  let b := Game.board (game w) in
  (exists w',
     clear_rows w = Done (Z.of_nat (full_rows b), w') /\
     Game.board (game w') =
       replicate (full_rows b) zero_board_row ++ kept_rows b /\
     game w' = game_with_board (game w) (Game.board (game w')) /\
     wf_board (Game.board (game w')) /\
     (forall r, 0 <= r < ROWS ->
        row_full (Game.board (game w')) r = false)) /\
  Z.of_nat (full_rows b) <= ROWS /\
  (forall fuel r cleared (w0 : World F),
     0 <= r -> row_full (Game.board (game w0)) r = true ->
     clear_loop (S fuel) r cleared w0 =
     clear_loop fuel r (cleared + 1) (after_clear r w0)) /\
  (forall r (w0 : World F),
     Game.board (game (after_clear r w0)) =
     remove_row (Game.board (game w0)) r) /\
  (forall (b0 : Board) r i, 0 <= r < Z.of_nat (length b0) ->
     remove_row b0 r !! i =
     if decide (i = 0%nat) then Some zero_board_row
     else if decide (Z.of_nat i <= r) then b0 !! (i - 1)%nat
     else b0 !! i).
Proof.
  intros Hwf b. pose proof Hwf as [Hlen Hrows].
  assert (Z.of_nat (full_rows b) <= ROWS) as Hle.
  { pose proof (full_rows_le b). fold b in Hlen. unfold ROWS in *. lia. }
  split; [| split; [assumption | split; [| split]]].
  - destruct (clear_rows_run w Hwf) as (w' & Hrun & Hb' & Hgame).
    exists w'.
    assert (wf_board (Game.board (game w'))) as Hwf'
      by (rewrite Hb'; by apply compact_wf).
    split; [exact Hrun |]. split; [exact Hb' |]. split; [exact Hgame |].
    split; [exact Hwf' |].
    intros r Hr. apply no_full_row_source; [assumption | | assumption].
    rewrite Hb', full_rows_replicate_zero. apply kept_rows_no_full.
  - intros fuel r cleared w0. apply clear_loop_hit.
  - intros r w0. unfold after_clear, on_game. simpl.
    by rewrite spawn_explosion_game.
  - intros b0 r i Hr. by apply remove_row_lookup.
Qed.

End ClearLines.

Lemma two_full_rows_wf : wf_board two_full_rows_board.
Proof. split; [reflexivity | repeat constructor]. Qed.

Lemma clear_rows_spec_witness :
  exists w', clear_rows two_full_rows_world = Done (2, w') /\
             Game.board (game w') =
             replicate 19 zero_board_row ++
             [<[2%nat := Cell.mk true 0 3]> zero_board_row].
Proof.
  destruct (clear_rows_spec two_full_rows_world two_full_rows_wf)
    as ((w' & Hrun & Hb & _) & _).
  exists w'. split; [exact Hrun | exact Hb].
Defined.

(** ** Scoring *)

Lemma imax_max (a b : Z) : imax a b = Z.max a b.
Proof. unfold imax. destruct (Z.gtb_spec a b); lia. Qed.

Lemma fall_interval_max (level : Z) :
  fall_interval level =
  Z.max MIN_SPEED_MS (START_SPEED_MS - level * SPEED_STEP_MS).
Proof. apply imax_max. Qed.

Lemma fall_interval_antitone (l1 l2 : Z) :
  l1 <= l2 -> fall_interval l2 <= fall_interval l1.
Proof.
  intros Hle. rewrite !fall_interval_max.
  unfold MIN_SPEED_MS, START_SPEED_MS, SPEED_STEP_MS. lia.
Qed.


Section Scoring.
Context {F : Type} `{FloatOps F}.

(** The scoring block for a count inside the table. *)
Lemma apply_score_in_table (cleared : nat) (pts : Z) (w : World F) :
  cleared <> 0%nat -> score_tbl !! cleared = Some pts ->
  apply_score (Z.of_nat cleared) w =
  Done (tt, world_with_game w
    (game_with_progress (game w)
       (Game.score (game w) + pts * (Game.level (game w) + 1))
       (Game.lines (game w) + Z.of_nat cleared)
       (Z.quot (Game.lines (game w) + Z.of_nat cleared) 10)
       (fall_interval (Z.quot (Game.lines (game w) + Z.of_nat cleared) 10)))).
Proof.
  intros Hnz Hpts. unfold apply_score.
  destruct (Z.eqb_spec (Z.of_nat cleared) 0) as [Hz | _]; [lia |].
  rewrite Nat2Z.id, Hpts. reflexivity.
Qed.

Lemma apply_score_zero (w : World F) : apply_score 0 w = Done (tt, w).
Proof. reflexivity. Qed.


End Scoring.


(** ** A lock fills at most four rows *)

(** Two lists that agree outside a window of four indices differ in at
    most four of the elements a filter keeps. *)
Lemma filter_window {A} (f : A -> bool) (l l' : list A) (lo : nat) :
  (forall i, (i < lo \/ lo + 4 <= i)%nat -> l' !! i = l !! i) ->
  (length (List.filter f l') <= length (List.filter f l) + 4)%nat.
Proof.
  intros Hsame.
  assert (take lo l' = take lo l) as Htake.
  { apply list_eq. intros i. rewrite !lookup_take.
    destruct (decide (i < lo)%nat); [apply Hsame; lia | reflexivity]. }
  assert (drop (lo + 4) l' = drop (lo + 4) l) as Hdrop.
  { apply list_eq. intros i. rewrite !lookup_drop. apply Hsame. lia. }
  rewrite <- (take_drop lo l'), <- (take_drop lo l).
  rewrite <- (take_drop 4 (drop lo l')), <- (take_drop 4 (drop lo l)).
  rewrite !drop_drop, Htake, Hdrop.
  rewrite !List.filter_app, !length_app.
  pose proof (List.filter_length_le f (take 4 (drop lo l'))) as Hmid.
  rewrite length_take in Hmid. lia.
Qed.

Lemma lock_cell_other_row (p : Piece.t) (b : Board) (r c : Z) (i : nat) :
  0 <= r < 4 ->
  Z.of_nat i < Piece.y p \/ Piece.y p + 4 <= Z.of_nat i ->
  lock_cell p b r c !! i = b !! i.
Proof.
  intros Hr Hi. unfold lock_cell.
  destruct (mget (Piece.m p) r c =? 0); [reflexivity |].
  destruct ((Piece.y p + r >=? 0) && (Piece.y p + r <? ROWS) &&
            (Piece.x p + c >=? 0) && (Piece.x p + c <? COLS)) eqn:Hin;
    [| reflexivity].
  apply board_set_other_row. lia.
Qed.

Lemma lock_cells_other_row (p : Piece.t) (cs : list (Z * Z)) (b : Board)
      (i : nat) :
  (forall r c, In (r, c) cs -> 0 <= r < 4) ->
  Z.of_nat i < Piece.y p \/ Piece.y p + 4 <= Z.of_nat i ->
  lock_cells p cs b !! i = b !! i.
Proof.
  revert b. induction cs as [| [r c] cs IH]; intros b Hcs Hi; [reflexivity |].
  change (lock_cells p ((r, c) :: cs) b)
    with (lock_cells p cs (lock_cell p b r c)).
  rewrite IH; [| intros r' c' Hin; apply (Hcs r' c'); by right | assumption].
  apply lock_cell_other_row; [| assumption]. apply (Hcs r c). by left.
Qed.

(** The piece's mask spans four rows: locking it changes at most the four
    board rows [y..y+3], so at most four rows can become full. *)
Lemma lock_board_full_rows (p : Piece.t) (b : Board) :
  (full_rows (lock_board p b) <= full_rows b + 4)%nat.
Proof.
  unfold full_rows. apply (filter_window _ _ _ (Z.to_nat (Piece.y p))).
  intros i Hi. apply (lock_cells_other_row p cells4 b i).
  - intros r c Hin. by apply in_cells4 in Hin as [Hr _].
  - lia.
Qed.

(** ** Masks in play are never empty *)

Lemma shape_nonempty (n : N) : mask_nonempty (shape (Z.rem (Z.of_N n) 7)).
Proof.
  assert (0 <= Z.rem (Z.of_N n) 7 < 7) as Hk by (apply Z.rem_bound_pos; lia).
  set (k := Z.rem (Z.of_N n) 7) in *.
  assert (k = 0 \/ k = 1 \/ k = 2 \/ k = 3 \/ k = 4 \/ k = 5 \/ k = 6)
    as Hk' by lia.
  destruct Hk' as [-> | [-> | [-> | [-> | [-> | [-> | ->]]]]]].
  - exists 1, 0. by repeat split.
  - exists 0, 0. by repeat split.
  - exists 0, 1. by repeat split.
  - exists 0, 1. by repeat split.
  - exists 0, 0. by repeat split.
  - exists 0, 0. by repeat split.
  - exists 0, 2. by repeat split.
Qed.

Lemma rotate_cw_nonempty (m : Mask) :
  mask_nonempty m -> mask_nonempty (rotate_cw_mask m).
Proof.
  intros (r & c & Hr & Hc & Hm). exists c, (3 - r).
  split; [assumption |]. split; [lia |].
  by rewrite rotate_cw_mask_get.
Qed.

Lemma rotate_ccw_nonempty (m : Mask) :
  mask_nonempty m -> mask_nonempty (rotate_ccw_mask m).
Proof.
  intros (r & c & Hr & Hc & Hm). exists (3 - c), r.
  split; [lia |]. split; [assumption |].
  by rewrite rotate_ccw_mask_get.
Qed.

Lemma new_bag_piece_nonempty (s : Rng) :
  mask_nonempty (Piece.m (fst (new_bag_piece s))).
Proof.
  unfold new_bag_piece, piece_from_k, rand. simpl. apply shape_nonempty.
Qed.

(** ** The hard-drop loop ends *)

Lemma drop_loop_ends (fuel : nat) (g : Game.t) :
  mask_nonempty (Piece.m (Game.cur g)) ->
  (Z.to_nat (ROWS - Piece.y (Game.cur g)) < fuel)%nat ->
  exists y', drop_loop fuel g =
             Done (game_with_cur g (piece_with_xy (Game.cur g)
                                      (Piece.x (Game.cur g)) y')).
Proof.
  revert g. induction fuel as [| fuel IH]; intros g Hne Hfuel; [lia |].
  simpl.
  destruct (collide g (Game.cur g) (Piece.x (Game.cur g))
                    (Piece.y (Game.cur g) + 1)) eqn:Hcol; simpl.
  - exists (Piece.y (Game.cur g)). by destruct g as [b [] ? ? ? ? ? ? ? ? ? ?].
  - destruct Hne as (r & c & Hr & Hc & Hm).
    destruct (proj1 (collide_false_iff g (Game.cur g) (Piece.x (Game.cur g))
                       (Piece.y (Game.cur g) + 1)) Hcol r c Hr Hc Hm)
      as [[_ Hrow] _].
    destruct (IH (cur_down g)) as [y' Hrun].
    + exists r, c. split; [assumption | split; [assumption | exact Hm]].
    + simpl. unfold ROWS in *. lia.
    + exists y'. rewrite Hrun. reflexivity.
Qed.

(** ** The invariant is kept by every command *)

Ltac solve_inv := unfold game_inv in *; simpl in *; tauto.

Lemma game_inv_with_cur (g : Game.t) (p : Piece.t) :
  game_inv g -> mask_nonempty (Piece.m p) -> game_inv (game_with_cur g p).
Proof.
  intros Hinv Hp. solve_inv.
Qed.

Lemma move_cur_inv (dx : Z) (g : Game.t) : game_inv g -> game_inv (move_cur dx g).
Proof.
  intros Hinv. unfold move_cur. destruct (negb _); [| assumption].
  apply game_inv_with_cur; [assumption |]. apply Hinv.
Qed.

Lemma try_kicks_inv (g : Game.t) (t : Piece.t) (ks : list (Z * Z)) :
  game_inv g -> mask_nonempty (Piece.m t) -> game_inv (try_kicks g t ks).
Proof.
  intros Hinv Ht. induction ks as [| [dx dy] ks IH]; [assumption |].
  simpl. destruct (negb _); [| assumption].
  by apply game_inv_with_cur.
Qed.

Lemma attempt_rotate_inv (g : Game.t) (cw : bool) :
  game_inv g -> game_inv (attempt_rotate g cw).
Proof.
  intros Hinv. apply try_kicks_inv; [assumption |].
  destruct Hinv as (_ & _ & Hcur & _).
  destruct cw; [by apply rotate_cw_nonempty | by apply rotate_ccw_nonempty].
Qed.

Lemma check_game_over_inv (g : Game.t) : game_inv g -> game_inv (check_game_over g).
Proof.
  intros Hinv. unfold check_game_over.
  destruct (collide _ _ _ _); [solve_inv | assumption].
Qed.

Lemma game_inv_with_can_hold (g : Game.t) (v : bool) :
  game_inv g -> game_inv (game_with_can_hold g v).
Proof. intros Hinv. exact Hinv. Qed.

Lemma game_inv_store (g : Game.t) :
  game_inv g ->
  game_inv (game_with_has_hold (game_with_hold g (Game.cur g)) true).
Proof.
  intros (Hwf & Hfull & Hcur & Hnext & Hhold & Hlines).
  unfold game_inv. cbn. tauto.
Qed.

Lemma game_inv_swap (g : Game.t) :
  game_inv g -> Game.has_hold g = true ->
  game_inv (game_with_cur
              (game_with_cur (game_with_hold g (Game.cur g)) (Game.hold g))
              (piece_with_xy (Game.hold g) spawn_x 0)).
Proof.
  intros (Hwf & Hfull & Hcur & Hnext & Hhold & Hlines) Hhas.
  unfold game_inv. cbn. rewrite Hhas in *. tauto.
Qed.

Lemma lock_piece_board_inv (g : Game.t) :
  wf_board (Game.board g) -> full_rows (Game.board g) = 0%nat ->
  wf_board (Game.board (lock_piece g)) /\
  (full_rows (Game.board (lock_piece g)) <= 4)%nat.
Proof.
  intros Hwf Hfull. split.
  - by apply lock_cells_wf.
  - pose proof (lock_board_full_rows (Game.cur g) (Game.board g)) as Hle.
    simpl. lia.
Qed.

Section Reachable.
Context {F : Type} `{FloatOps F}.

Lemma spawn_piece_inv (w : World F) :
  game_inv (game w) -> game_inv (game (spawn_piece w)).
Proof.
  intros (Hwf & Hfull & Hcur & Hnext & Hhold & Hlines).
  unfold spawn_piece.
  pose proof (new_bag_piece_nonempty (rng w)) as Hnew.
  destruct (new_bag_piece (rng w)) as [p s]. simpl in Hnew.
  apply (game_inv_with_can_hold _ true), check_game_over_inv.
  unfold game_inv. cbn. tauto.
Qed.

Lemma hold_piece_inv (w : World F) :
  game_inv (game w) -> game_inv (game (hold_piece w)).
Proof.
  intros Hinv. unfold hold_piece.
  destruct (Game.can_hold (game w)); [| exact Hinv].
  destruct (Game.has_hold (game w)) eqn:Hhas.
  - apply (game_inv_with_can_hold _ false), check_game_over_inv.
    by apply game_inv_swap.
  - apply (game_inv_with_can_hold _ false), spawn_piece_inv.
    by apply game_inv_store.
Qed.

Lemma game_reset_inv (w : World F) : game_inv (game (game_reset w)).
Proof.
  unfold game_reset.
  pose proof (new_bag_piece_nonempty (rng w)) as Hc.
  destruct (new_bag_piece (rng w)) as [c s1]. simpl in Hc.
  pose proof (new_bag_piece_nonempty s1) as Hn.
  destruct (new_bag_piece s1) as [n s2]. simpl in Hn. simpl.
  pose proof zero_board_wf.
  assert (full_rows zero_board = 0%nat) by reflexivity.
  unfold game_inv. simpl.
  split; [assumption |]. split; [assumption |]. split; [assumption |].
  split; [assumption |]. split; [discriminate | lia].
Qed.

(** [clear_lines] on a board with at most four full rows: it returns,
    the board is compacted, the pieces and flags are untouched. *)
Lemma clear_lines_run (w : World F) :
  wf_board (Game.board (game w)) ->
  (full_rows (Game.board (game w)) <= 4)%nat ->
  exists w' sc li le fm,
    clear_lines w = Done (tt, w') /\
    game w' =
      game_with_progress
        (game_with_board (game w)
           (replicate (full_rows (Game.board (game w))) zero_board_row ++
            kept_rows (Game.board (game w))))
        sc li le fm /\
    Game.lines (game w) <= li.
Proof.
  intros Hwf Hle.
  destruct (clear_rows_run w Hwf) as (w1 & Hrun & Hb & Hgame).
  rewrite Hb in Hgame.
  destruct (decide (full_rows (Game.board (game w)) = 0%nat)) as [Hz | Hnz].
  - exists w1. do 4 eexists. unfold clear_lines, bind. rewrite Hrun, Hz.
    rewrite Hz in Hgame. change (Z.of_nat 0) with 0.
    rewrite apply_score_zero.
    split; [reflexivity |]. split; [rewrite Hgame; reflexivity |].
    simpl. lia.
  - assert (exists pts, score_tbl !! full_rows (Game.board (game w)) =
                        Some pts) as [pts Hpts].
    { destruct (full_rows (Game.board (game w)))
        as [| [| [| [| [| n]]]]]; simpl; eauto. lia. }
    eexists. do 4 eexists. unfold clear_lines, bind. rewrite Hrun.
    rewrite (apply_score_in_table _ pts w1 Hnz Hpts).
    split; [reflexivity |]. split; [simpl; rewrite Hgame; reflexivity |].
    simpl. lia.
Qed.

Lemma lock_clear_spawn_inv (w : World F) :
  game_inv (game w) ->
  exists w', lock_clear_spawn w = Done (tt, w') /\ game_inv (game w').
Proof.
  intros (Hwf & Hfull & Hcur & Hnext & Hhold & Hlines).
  destruct (lock_piece_board_inv (game w) Hwf Hfull) as [Hwf1 Hle1].
  destruct (clear_lines_run (on_game lock_piece w) Hwf1 Hle1)
    as (w2 & sc & li & le & fm & Hrun & Hgame & Hli).
  exists (spawn_piece w2). unfold lock_clear_spawn, bind, lift.
  rewrite Hrun. split; [reflexivity |].
  apply spawn_piece_inv. rewrite Hgame.
  unfold game_inv. simpl.
  split; [by apply compact_wf |].
  split; [rewrite full_rows_replicate_zero; apply kept_rows_no_full |].
  simpl in Hli. split; [assumption |]. split; [assumption |].
  split; [assumption | lia].
Qed.

Lemma soft_step_inv (w : World F) :
  game_inv (game w) ->
  exists w', soft_step w = Done (tt, w') /\ game_inv (game w').
Proof.
  intros Hinv. unfold soft_step, bind, get_game.
  destruct (negb _).
  - eexists. split; [reflexivity |]. simpl.
    apply game_inv_with_cur; [assumption | apply Hinv].
  - by apply lock_clear_spawn_inv.
Qed.

Lemma hard_drop_inv (w : World F) :
  game_inv (game w) ->
  exists w', hard_drop w = Done (tt, w') /\ game_inv (game w').
Proof.
  intros Hinv. unfold hard_drop, bind, drop_to_floor.
  destruct (drop_loop_ends (drop_fuel (game w)) (game w)) as [y' Hrun].
  - apply Hinv.
  - unfold drop_fuel. lia.
  - rewrite Hrun. apply lock_clear_spawn_inv. simpl.
    apply game_inv_with_cur; [assumption | apply Hinv].
Qed.

(** Every command returns, and keeps the invariant. *)
Lemma run_op_inv (o : Op) (w : World F) :
  game_inv (game w) ->
  exists w', run_op o w = Done (tt, w') /\ game_inv (game w').
Proof.
  intros Hinv. destruct o; simpl.
  - eexists. split; [reflexivity |]. by apply move_cur_inv.
  - eexists. split; [reflexivity |]. by apply move_cur_inv.
  - by apply soft_step_inv.
  - by apply hard_drop_inv.
  - eexists. split; [reflexivity |]. by apply hold_piece_inv.
  - eexists. split; [reflexivity |]. by apply attempt_rotate_inv.
  - eexists. split; [reflexivity |]. apply game_reset_inv.
  - eexists. split; [reflexivity |]. exact Hinv.
  - eexists. split; [reflexivity |]. exact Hinv.
Qed.

Lemma reachable_inv (w : World F) : reachable w -> game_inv (game w).
Proof.
  induction 1 as [w0 | o w w' Hreach IH Hrun].
  - apply game_reset_inv.
  - destruct (run_op_inv o w IH) as (w'' & Hrun' & Hinv).
    rewrite Hrun in Hrun'. by injection Hrun' as <-.
Qed.

(** What [main] runs is a command or nothing: its worlds are reachable. *)
Lemma main_op_reachable (o : Op) (w w' : World F) :
  reachable w -> main_op o w = Done (tt, w') -> reachable w'.
Proof.
  intros Hreach Hrun. unfold main_op in Hrun.
  destruct (gated o && Game.game_over (game w)).
  - by injection Hrun as <-.
  - by apply (reach_op o w w').
Qed.


End Reachable.


(** ** Hold, spawn and game over *)

Lemma same_pieces_flags_refl (g : Game.t) : same_pieces_flags g g.
Proof. by repeat split. Qed.

Lemma same_pieces_flags_trans (g1 g2 g3 : Game.t) :
  same_pieces_flags g1 g2 -> same_pieces_flags g2 g3 -> same_pieces_flags g1 g3.
Proof.
  unfold same_pieces_flags.
  intros (? & ? & ? & ? & ? & ?) (? & ? & ? & ? & ? & ?).
  repeat split; congruence.
Qed.

(** The game-over test sets the flag or leaves it. *)
Lemma check_game_over_result (g : Game.t) :
  check_game_over g =
  game_with_game_over g
    (Game.game_over g ||
     collide g (Game.cur g) (Piece.x (Game.cur g)) (Piece.y (Game.cur g))).
Proof.
  unfold check_game_over.
  destruct (collide g (Game.cur g) (Piece.x (Game.cur g))
                    (Piece.y (Game.cur g))).
  - by rewrite orb_true_r.
  - rewrite orb_false_r. by destruct g.
Qed.

Section HoldSpawn.
Context {F : Type} `{FloatOps F}.

(** The scan changes the board only, whatever the board is. *)
Lemma clear_loop_frame (fuel : nat) :
  forall (r cleared n : Z) (w w' : World F),
    clear_loop fuel r cleared w = Done (n, w') ->
    same_pieces_flags (game w) (game w').
Proof.
  induction fuel as [| fuel IH]; intros r cleared n w w' Hrun;
    [discriminate |].
  simpl in Hrun. destruct (r >=? 0).
  - unfold bind, get_game in Hrun.
    destruct (row_full (Game.board (game w)) r).
    + simpl in Hrun. apply IH in Hrun.
      eapply same_pieces_flags_trans; [| exact Hrun].
      unfold on_game. simpl. rewrite spawn_explosion_game.
      by repeat split.
    + by apply IH in Hrun.
  - injection Hrun as <- <-. apply same_pieces_flags_refl.
Qed.

Lemma apply_score_frame (cleared : Z) (w w' : World F) :
  apply_score cleared w = Done (tt, w') ->
  same_pieces_flags (game w) (game w') /\
  Game.board (game w') = Game.board (game w).
Proof.
  unfold apply_score. destruct (cleared =? 0).
  - intros Hrun. injection Hrun as <-.
    split; [apply same_pieces_flags_refl | reflexivity].
  - destruct (score_tbl !! Z.to_nat cleared); [| discriminate].
    intros Hrun. injection Hrun as <-. by repeat split.
Qed.

Lemma clear_lines_frame (w w' : World F) :
  clear_lines w = Done (tt, w') -> same_pieces_flags (game w) (game w').
Proof.
  unfold clear_lines, bind, clear_rows.
  destruct (clear_loop clear_fuel (ROWS - 1) 0 w) as [[n w1] | |] eqn:Hscan;
    try discriminate.
  intros Hscore. apply clear_loop_frame in Hscan.
  apply apply_score_frame in Hscore as [Hscore _].
  by eapply same_pieces_flags_trans.
Qed.

(** A lock event ends in a spawn, run on a world whose flags are those
    before the lock. *)
Lemma lock_clear_spawn_ends_in_spawn (w w' : World F) :
  lock_clear_spawn w = Done (tt, w') ->
  exists w2, w' = spawn_piece w2 /\
             Game.game_over (game w2) = Game.game_over (game w) /\
             Game.can_hold (game w2) = Game.can_hold (game w).
Proof.
  unfold lock_clear_spawn, bind, lift.
  destruct (clear_lines (on_game lock_piece w)) as [[[] w2] | |] eqn:Hclear;
    try discriminate.
  intros Hrun. injection Hrun as <-. exists w2.
  apply clear_lines_frame in Hclear as (_ & _ & _ & _ & Hcan & Hover).
  by repeat split.
Qed.


Lemma try_kicks_flags (g : Game.t) (t : Piece.t) (ks : list (Z * Z)) :
  Game.game_over (try_kicks g t ks) = Game.game_over g /\
  Game.can_hold (try_kicks g t ks) = Game.can_hold g.
Proof.
  induction ks as [| [dx dy] ks IH]; [by split |].
  simpl. destruct (negb _); [by split | exact IH].
Qed.

Lemma move_cur_flags (dx : Z) (g : Game.t) :
  Game.game_over (move_cur dx g) = Game.game_over g /\
  Game.can_hold (move_cur dx g) = Game.can_hold g.
Proof. unfold move_cur. destruct (negb _); by split. Qed.

(** What [spawn_piece] leaves in the world. *)
Lemma spawn_piece_result (w : World F) :
  let np := new_bag_piece (rng w) in
  let g' := game (spawn_piece w) in
  Game.cur g' = piece_with_xy (Game.next (game w)) spawn_x 0 /\
  Game.next g' = fst np /\
  rng (spawn_piece w) = snd np /\
  particles (spawn_piece w) = particles w /\
  Game.can_hold g' = true /\
  Game.game_over g' =
    Game.game_over (game w) || collide g' (Game.cur g') spawn_x 0 /\
  Game.board g' = Game.board (game w) /\
  Game.hold g' = Game.hold (game w) /\
  Game.has_hold g' = Game.has_hold (game w) /\
  Game.score g' = Game.score (game w) /\
  Game.lines g' = Game.lines (game w) /\
  Game.level g' = Game.level (game w) /\
  Game.fall_ms g' = Game.fall_ms (game w).
Proof.
  intros np g'. subst np g'. unfold spawn_piece.
  destruct (new_bag_piece (rng w)) as [p s].
  rewrite check_game_over_result. simpl. by repeat split.
Qed.


(** The swap branch of [hold_piece]. *)
Lemma hold_piece_swap (w : World F) :
  Game.can_hold (game w) = true -> Game.has_hold (game w) = true ->
  let g := game w in
  let g' := game (hold_piece w) in
  Game.cur g' = piece_with_xy (Game.hold g) spawn_x 0 /\
  Game.hold g' = Game.cur g /\
  Game.has_hold g' = true /\
  Game.can_hold g' = false /\
  Game.game_over g' =
    Game.game_over g || collide g' (Game.cur g') spawn_x 0 /\
  Game.next g' = Game.next g /\
  Game.board g' = Game.board g /\
  rng (hold_piece w) = rng w /\
  particles (hold_piece w) = particles w.
Proof.
  intros Hcan Hhas g g'. subst g g'. unfold hold_piece.
  rewrite Hcan, Hhas. simpl. rewrite check_game_over_result. simpl.
  by repeat split.
Qed.

(** The store branch of [hold_piece]. *)
Lemma hold_piece_store (w : World F) :
  Game.can_hold (game w) = true -> Game.has_hold (game w) = false ->
  hold_piece w =
  on_game (fun g' => game_with_can_hold g' false)
    (spawn_piece (world_with_game w
       (game_with_has_hold (game_with_hold (game w) (Game.cur (game w)))
                           true))).
Proof.
  intros Hcan Hhas. unfold hold_piece. by rewrite Hcan, Hhas.
Qed.

Lemma hold_piece_store_result (w : World F) :
  Game.can_hold (game w) = true -> Game.has_hold (game w) = false ->
  let g := game w in
  let g' := game (hold_piece w) in
  Game.hold g' = Game.cur g /\
  Game.has_hold g' = true /\
  Game.cur g' = piece_with_xy (Game.next g) spawn_x 0 /\
  Game.next g' = fst (new_bag_piece (rng w)) /\
  Game.game_over g' =
    Game.game_over g || collide g' (Game.cur g') spawn_x 0.
Proof.
  intros Hcan Hhas g g'. subst g g'.
  rewrite hold_piece_store by assumption.
  destruct (spawn_piece_result (world_with_game w
              (game_with_has_hold (game_with_hold (game w) (Game.cur (game w)))
                                  true)))
    as (Hcur & Hnext & _ & _ & _ & Hover & _ & Hhold & Hhas' & _).
  cbn [game world_with_game rng Game.next Game.hold Game.has_hold
       Game.game_over game_with_has_hold game_with_hold] in Hcur, Hnext,
    Hover, Hhold, Hhas'.
  revert Hcur Hnext Hover Hhold Hhas'.
  generalize (spawn_piece (world_with_game w
    (game_with_has_hold (game_with_hold (game w) (Game.cur (game w))) true))).
  intros [gs ps rs]. cbn [game on_game world_with_game particles rng].
  intros Hcur Hnext Hover Hhold Hhas'.
  split; [exact Hhold |]. split; [exact Hhas' |]. split; [exact Hcur |].
  split; [exact Hnext |]. exact Hover.
Qed.

Lemma hold_piece_noop (w : World F) :
  Game.can_hold (game w) = false -> hold_piece w = w.
Proof. intros Hcan. unfold hold_piece. by rewrite Hcan. Qed.

Lemma hold_piece_disarms (w : World F) :
  Game.can_hold (game (hold_piece w)) = false.
Proof.
  destruct (Game.can_hold (game w)) eqn:Hcan.
  - destruct (Game.has_hold (game w)) eqn:Hhas.
    + by destruct (hold_piece_swap w Hcan Hhas) as (_ & _ & _ & Hc & _).
    + by rewrite hold_piece_store.
  - by rewrite hold_piece_noop.
Qed.

(** Short of a restart, [can_hold] goes from false to true only at the
    end of a [spawn_piece]. *)
Lemma can_hold_rearmed_by_spawn (o : Op) (w w' : World F) :
  o <> OpRestart -> run_op o w = Done (tt, w') ->
  Game.can_hold (game w) = false -> Game.can_hold (game w') = true ->
  exists w2, w' = spawn_piece w2.
Proof.
  intros Ho Hrun Hbefore Hafter. destruct o; simpl in Hrun.
  - injection Hrun as <-. simpl in Hafter.
    destruct (move_cur_flags (-1) (game w)) as [_ Hc]. congruence.
  - injection Hrun as <-. simpl in Hafter.
    destruct (move_cur_flags 1 (game w)) as [_ Hc]. congruence.
  - unfold soft_step, bind, get_game in Hrun. destruct (negb _).
    + injection Hrun as <-. simpl in Hafter. congruence.
    + apply lock_clear_spawn_ends_in_spawn in Hrun as (w2 & -> & _). eauto.
  - unfold hard_drop, bind, drop_to_floor in Hrun.
    destruct (drop_loop _ _); try discriminate.
    apply lock_clear_spawn_ends_in_spawn in Hrun as (w2 & -> & _). eauto.
  - injection Hrun as <-. rewrite hold_piece_disarms in Hafter. discriminate.
  - injection Hrun as <-. simpl in Hafter.
    destruct (try_kicks_flags (game w)
                (if cw then rotate_cw (Game.cur (game w))
                 else rotate_ccw (Game.cur (game w))) kicks) as [_ Hc].
    unfold attempt_rotate in Hafter. congruence.
  - contradiction.
  - injection Hrun as <-. simpl in Hafter. congruence.
  - injection Hrun as <-. simpl in Hafter. congruence.
Qed.

(** C8.  With [can_hold] false [hold_piece] changes nothing.  With
    [can_hold] true and an empty slot it stores the current piece,
    sets [has_hold] and spawns the next piece from the lookahead; with an
    occupied slot it swaps current and held piece, puts the swapped-in
    piece at the spawn column and row 0 and sets [game_over] when it
    collides there.  After the call [can_hold] is false in every case, a
    second hold is a no-op, every [spawn_piece] sets [can_hold], and no
    command of a running game turns it from false to true except by
    ending in a [spawn_piece]. *)
Theorem hold_piece_spec (w : World F) :
  let g := game w in
  (Game.can_hold g = false -> hold_piece w = w) /\
  (Game.can_hold g = true -> Game.has_hold g = false ->
     hold_piece w =
       on_game (fun g' => game_with_can_hold g' false)
         (spawn_piece (world_with_game w
            (game_with_has_hold (game_with_hold g (Game.cur g)) true))) /\
     Game.hold (game (hold_piece w)) = Game.cur g /\
     Game.has_hold (game (hold_piece w)) = true /\
     Game.cur (game (hold_piece w)) = piece_with_xy (Game.next g) spawn_x 0 /\
     Game.next (game (hold_piece w)) = fst (new_bag_piece (rng w)) /\
     Game.game_over (game (hold_piece w)) =
       Game.game_over g ||
       collide (game (hold_piece w)) (Game.cur (game (hold_piece w)))
               spawn_x 0) /\
  (Game.can_hold g = true -> Game.has_hold g = true ->
     Game.cur (game (hold_piece w)) = piece_with_xy (Game.hold g) spawn_x 0 /\
     Game.hold (game (hold_piece w)) = Game.cur g /\
     Game.has_hold (game (hold_piece w)) = true /\
     Game.next (game (hold_piece w)) = Game.next g /\
     Game.board (game (hold_piece w)) = Game.board g /\
     Game.game_over (game (hold_piece w)) =
       Game.game_over g ||
       collide (game (hold_piece w)) (Game.cur (game (hold_piece w)))
               spawn_x 0 /\
     rng (hold_piece w) = rng w /\
     particles (hold_piece w) = particles w) /\
  Game.can_hold (game (hold_piece w)) = false /\
  hold_piece (hold_piece w) = hold_piece w /\
  (forall w2 : World F, Game.can_hold (game (spawn_piece w2)) = true) /\
  (forall o w', o <> OpRestart -> run_op o w = Done (tt, w') ->
     Game.can_hold g = false -> Game.can_hold (game w') = true ->
     exists w2, w' = spawn_piece w2).
Proof.
  intros g. subst g.
  split; [apply hold_piece_noop |].
  split; [| split; [| split; [| split; [| split]]]].
  - intros Hcan Hhas. split; [by apply hold_piece_store |].
    apply (hold_piece_store_result w Hcan Hhas).
  - intros Hcan Hhas.
    destruct (hold_piece_swap w Hcan Hhas)
      as (? & ? & ? & ? & ? & ? & ? & ? & ?).
    by repeat split.
  - apply hold_piece_disarms.
  - apply hold_piece_noop, hold_piece_disarms.
  - intros w2. by destruct (spawn_piece_result w2) as (_ & _ & _ & _ & Hc & _).
  - intros o w'. apply can_hold_rearmed_by_spawn.
Qed.





Lemma new_bag_piece_shape (s : Rng) :
  exists k ty, 0 <= k < 7 /\ 0 <= ty < 2 /\
    fst (new_bag_piece s) = Piece.mk k 4 4 spawn_x 0 (shape k) ty k.
Proof.
  unfold new_bag_piece, piece_from_k, rand. simpl.
  eexists _, _. split; [| split; [| reflexivity]].
  - apply Z.rem_bound_pos; lia.
  - apply Z.rem_bound_pos; lia.
Qed.


End HoldSpawn.

(** ** The particle pool *)

Lemma filter_length_insert {A} (f : A -> bool) (l : list A) (j : nat)
      (old v : A) :
  l !! j = Some old ->
  (length (List.filter f (<[j := v]> l)) + (if f old then 1 else 0) =
   length (List.filter f l) + (if f v then 1 else 0))%nat.
Proof.
  intros Hj.
  rewrite insert_take_drop by (apply lookup_lt_is_Some; eauto).
  rewrite <- (take_drop_middle l j old Hj) at 3.
  rewrite !List.filter_app, !length_app. simpl.
  destruct (f old), (f v); simpl; lia.
Qed.

Lemma explosion_count_range (s : Rng) :
  120 <= explosion_count (fst (rand s)) <= 199.
Proof.
  unfold explosion_count, rand. simpl.
  pose proof (Z.rem_bound_pos (Z.of_N (tape s (cursor s))) 80). lia.
Qed.

Section Pool.
Context {F : Type} `{FloatOps F}.

Implicit Types ps : list (Particle.t F).

Lemma alive_count_le ps : (alive_count ps <= length ps)%nat.
Proof. apply List.filter_length_le. Qed.

(** The index loop over the array finds what the recursion on the list
    finds. *)
Lemma scan_dead_first_dead (fuel j : nat) ps :
  (length ps <= j + fuel)%nat ->
  scan_dead fuel j ps = (fun i => (j + i)%nat) <$> first_dead (drop j ps).
Proof.
  revert j. induction fuel as [| fuel IH]; intros j Hlen.
  - rewrite drop_ge by lia. reflexivity.
  - simpl. destruct (ps !! j) as [p |] eqn:Hj.
    + rewrite (drop_S ps p j Hj). simpl.
      destruct (Particle.alive p).
      * rewrite IH by lia.
        destruct (first_dead (drop (S j) ps)); simpl; [| reflexivity].
        f_equal. lia.
      * simpl. f_equal. lia.
    + rewrite drop_ge by (by apply lookup_ge_None). reflexivity.
Qed.

Lemma first_dead_None ps :
  first_dead ps = None <-> alive_count ps = length ps.
Proof.
  unfold alive_count. induction ps as [| p ps IH]; simpl; [done |].
  pose proof (alive_count_le ps) as Hle. unfold alive_count in Hle.
  destruct (Particle.alive p); simpl.
  - destruct (first_dead ps); simpl.
    + split; [discriminate |]. intros Heq.
      assert (length (List.filter Particle.alive ps) = length ps) as Hps
        by lia.
      apply IH in Hps. discriminate.
    + split; [| done]. intros _. f_equal. by apply IH.
  - split; [discriminate | lia].
Qed.

Lemma first_dead_Some ps (i : nat) :
  first_dead ps = Some i ->
  (exists p, ps !! i = Some p /\ Particle.alive p = false) /\
  (forall k q, (k < i)%nat -> ps !! k = Some q -> Particle.alive q = true).
Proof.
  revert i. induction ps as [| p ps IH]; intros i Hi; [discriminate |].
  simpl in Hi. destruct (Particle.alive p) eqn:Hp.
  - destruct (first_dead ps) as [i' |]; [| discriminate].
    injection Hi as <-. destruct (IH i' eq_refl) as [Hdead Hbefore].
    split; [exact Hdead |].
    intros [| k] q Hk Hq; simpl in Hq.
    + by injection Hq as <-.
    + apply (Hbefore k); [lia | assumption].
  - injection Hi as <-. split; [by exists p | intros k q Hk; lia].
Qed.

Lemma make_particle_alive cx cy base (s : Rng) :
  Particle.alive (fst (make_particle cx cy base s)) = true.
Proof. reflexivity. Qed.

Lemma scan_pool_first_dead ps :
  (length ps <= MAX_PARTICLES)%nat ->
  scan_dead MAX_PARTICLES 0 ps = first_dead ps.
Proof.
  intros Hlen. rewrite scan_dead_first_dead by lia. rewrite drop_0.
  by destruct (first_dead ps).
Qed.

Lemma spawn_one_fills cx cy base (w : World F) (i : nat) :
  (length (particles w) <= MAX_PARTICLES)%nat ->
  first_dead (particles w) = Some i ->
  spawn_one cx cy base w =
  mkWorld (game w)
          (<[i := fst (make_particle cx cy base (rng w))]> (particles w))
          (snd (make_particle cx cy base (rng w))).
Proof.
  intros Hlen Hfirst. unfold spawn_one.
  rewrite scan_pool_first_dead, Hfirst by assumption.
  by destruct (make_particle cx cy base (rng w)).
Qed.

Lemma spawn_one_drops cx cy base (w : World F) :
  (length (particles w) <= MAX_PARTICLES)%nat ->
  first_dead (particles w) = None ->
  spawn_one cx cy base w = w.
Proof.
  intros Hlen Hfirst. unfold spawn_one.
  by rewrite scan_pool_first_dead, Hfirst.
Qed.

(** One request: the first dead slot is filled with a live particle, or,
    when every slot is alive, the pool stays as it is.  No live particle
    is overwritten. *)
Lemma spawn_one_pool cx cy base (w : World F) :
  (length (particles w) <= MAX_PARTICLES)%nat ->
  let ps := particles w in
  let ps' := particles (spawn_one cx cy base w) in
  length ps' = length ps /\
  alive_count ps' =
    (if decide (alive_count ps < length ps)%nat
     then S (alive_count ps) else alive_count ps) /\
  (forall i p, ps !! i = Some p -> Particle.alive p = true ->
               ps' !! i = Some p) /\
  (alive_count ps = length ps -> spawn_one cx cy base w = w) /\
  (forall i, scan_dead MAX_PARTICLES 0 ps = Some i ->
     (exists p, ps !! i = Some p /\ Particle.alive p = false) /\
     ps' = <[i := fst (make_particle cx cy base (rng w))]> ps).
Proof.
  intros Hlen ps ps'. subst ps ps'.
  rewrite (scan_pool_first_dead _ Hlen).
  pose proof (alive_count_le (particles w)) as Hle.
  destruct (first_dead (particles w)) as [i |] eqn:Hfirst.
  - rewrite (spawn_one_fills cx cy base w i Hlen Hfirst).
    destruct (first_dead_Some _ i Hfirst) as [(p & Hp & Hdead) Hbefore].
    pose proof (make_particle_alive cx cy base (rng w)) as Hnew.
    set (q := fst (make_particle cx cy base (rng w))) in *.
    cbn [particles].
    pose proof (filter_length_insert Particle.alive (particles w) i p q Hp)
      as Hcount.
    rewrite Hdead, Hnew in Hcount. fold (alive_count (particles w)) in Hcount.
    fold (alive_count (<[i := q]> (particles w))) in Hcount.
    assert (alive_count (particles w) <> length (particles w)) as Hne.
    { intros Heq. apply first_dead_None in Heq. congruence. }
    split; [by rewrite length_insert |]. split.
    { case_decide; lia. }
    split.
    { intros k p' Hk Hp'. destruct (decide (i = k)) as [-> | Hik].
      - congruence.
      - by rewrite list_lookup_insert_ne. }
    split; [intros Heq; contradiction |].
    intros k Hk. injection Hk as <-. split; [by exists p | reflexivity].
  - rewrite (spawn_one_drops cx cy base w Hlen Hfirst).
    apply first_dead_None in Hfirst.
    split; [reflexivity |]. split.
    { case_decide; [lia | reflexivity]. }
    split; [tauto |]. split; [reflexivity | discriminate].
Qed.

Lemma iter_spawn_one_pool cx cy base (n : nat) (w : World F) :
  (length (particles w) <= MAX_PARTICLES)%nat ->
  let ps := particles w in
  let ps' := particles (Nat.iter n (spawn_one cx cy base) w) in
  length ps' = length ps /\
  alive_count ps' = Nat.min (length ps) (alive_count ps + n) /\
  (forall i p, ps !! i = Some p -> Particle.alive p = true ->
               ps' !! i = Some p) /\
  (alive_count ps = length ps -> ps' = ps).
Proof.
  intros Hlen ps. subst ps. induction n as [| n IH]; simpl.
  - pose proof (alive_count_le (particles w)).
    split; [reflexivity |]. split; [lia |]. by split.
  - destruct IH as (IHlen & IHcount & IHlive & IHfull).
    set (w1 := Nat.iter n (spawn_one cx cy base) w) in *.
    destruct (spawn_one_pool cx cy base w1)
      as (Hlen1 & Hcount1 & Hlive1 & Hfull1 & _); [lia |].
    pose proof (alive_count_le (particles w)).
    split; [lia |]. split.
    { rewrite Hcount1, IHcount, IHlen. clear Hcount1. case_decide; lia. }
    split.
    { intros i p Hi Hp. apply Hlive1; [by apply IHlive | assumption]. }
    intros Hfull. rewrite Hfull1; [by apply IHfull |].
    rewrite IHfull by assumption. lia.
Qed.

(** An explosion on a pool of [MAX_PARTICLES] slots. *)
Lemma spawn_explosion_pool cx cy base (w : World F) :
  length (particles w) = MAX_PARTICLES ->
  let ps := particles w in
  let ps' := particles (spawn_explosion cx cy base w) in
  let requested := Z.to_nat (explosion_count (fst (rand (rng w)))) in
  length ps' = MAX_PARTICLES /\
  alive_count ps' = Nat.min MAX_PARTICLES (alive_count ps + requested) /\
  (forall i p, ps !! i = Some p -> Particle.alive p = true ->
               ps' !! i = Some p) /\
  (alive_count ps = MAX_PARTICLES -> ps' = ps).
Proof.
  intros Hlen ps ps' requested. subst ps ps' requested.
  unfold spawn_explosion.
  destruct (rand (rng w)) as [n s'] eqn:Hrand. simpl fst.
  destruct (iter_spawn_one_pool cx cy base (Z.to_nat (explosion_count n))
              (mkWorld (game w) (particles w) s'))
    as (Hl & Hc & Hlive & Hfull); [simpl; lia |].
  simpl in Hl, Hc, Hlive, Hfull. rewrite Hlen in Hl, Hc, Hfull.
  split; [exact Hl |]. split; [exact Hc |]. split; [exact Hlive |].
  exact Hfull.
Qed.

Lemma particles_update_length (dt : F) (w : World F) :
  length (particles (particles_update dt w)) = length (particles w).
Proof. unfold particles_update. simpl. apply length_map. Qed.

Lemma pool_reachable_length (w : World F) :
  pool_reachable w -> length (particles w) = MAX_PARTICLES.
Proof.
  induction 1 as [w0 | cx cy base w Hreach IH | dt w Hreach IH].
  - unfold particles_reset. cbn [particles]. apply length_replicate.
  - by destruct (spawn_explosion_pool cx cy base w IH) as [Hl _].
  - by rewrite particles_update_length.
Qed.

(** *** The pool of the running engine *)

Lemma clear_loop_pool (fuel : nat) :
  forall (r cleared n : Z) (w w' : World F),
    clear_loop fuel r cleared w = Done (n, w') ->
    length (particles w) = MAX_PARTICLES ->
    length (particles w') = MAX_PARTICLES.
Proof.
  induction fuel as [| fuel IH]; intros r cleared n w w' Hrun Hlen;
    [discriminate |].
  cbn [clear_loop] in Hrun. destruct (r >=? 0).
  - unfold bind, get_game in Hrun.
    destruct (row_full (Game.board (game w)) r).
    + cbn [lift] in Hrun. apply IH in Hrun; [assumption |].
      unfold on_game, world_with_game. cbn [particles].
      by destruct (spawn_explosion_pool clear_cx (clear_cy r) clear_base w Hlen)
        as [Hl _].
    + by apply IH in Hrun.
  - injection Hrun as <- <-. assumption.
Qed.

Lemma apply_score_particles (cleared : Z) (w w' : World F) :
  apply_score cleared w = Done (tt, w') -> particles w' = particles w.
Proof.
  unfold apply_score. destruct (cleared =? 0).
  - intros Hrun. by injection Hrun as <-.
  - destruct (score_tbl !! Z.to_nat cleared); [| discriminate].
    intros Hrun. by injection Hrun as <-.
Qed.

Lemma spawn_piece_particles (w : World F) :
  particles (spawn_piece w) = particles w.
Proof.
  unfold spawn_piece. by destruct (new_bag_piece (rng w)).
Qed.

Lemma hold_piece_particles (w : World F) :
  particles (hold_piece w) = particles w.
Proof.
  unfold hold_piece. destruct (negb (Game.can_hold (game w))); [reflexivity |].
  unfold on_game at 1. unfold world_with_game at 1. cbn [particles].
  destruct (negb (Game.has_hold (game w))).
  - by rewrite spawn_piece_particles.
  - unfold world_with_game. cbn [particles]. reflexivity.
Qed.

Lemma lock_clear_spawn_pool (w w' : World F) :
  lock_clear_spawn w = Done (tt, w') ->
  length (particles w) = MAX_PARTICLES ->
  length (particles w') = MAX_PARTICLES.
Proof.
  unfold lock_clear_spawn, bind, lift, clear_lines, bind, clear_rows.
  destruct (clear_loop clear_fuel (ROWS - 1) 0 (on_game lock_piece w))
    as [[n w1] | |] eqn:Hscan; try discriminate.
  destruct (apply_score n w1) as [[[] w2] | |] eqn:Hscore; try discriminate.
  intros Hrun Hlen. injection Hrun as <-.
  rewrite spawn_piece_particles, (apply_score_particles n w1 w2 Hscore).
  by apply (clear_loop_pool _ _ _ _ _ _ Hscan).
Qed.

Lemma run_op_pool (o : Op) (w w' : World F) :
  run_op o w = Done (tt, w') ->
  length (particles w) = MAX_PARTICLES ->
  length (particles w') = MAX_PARTICLES.
Proof.
  intros Hrun Hlen. destruct o; cbn [run_op lift] in Hrun.
  - by injection Hrun as <-.
  - by injection Hrun as <-.
  - unfold soft_step, bind, get_game in Hrun. destruct (negb _).
    + by injection Hrun as <-.
    + by apply (lock_clear_spawn_pool w).
  - unfold hard_drop, bind, drop_to_floor in Hrun.
    destruct (drop_loop _ _) as [g1 | |]; try discriminate.
    by apply (lock_clear_spawn_pool _ _ Hrun).
  - injection Hrun as <-. by rewrite hold_piece_particles.
  - by injection Hrun as <-.
  - injection Hrun as <-. unfold game_reset.
    destruct (new_bag_piece (rng w)) as [c s1].
    destruct (new_bag_piece s1) as [n s2].
    unfold particles_reset. cbn [particles]. apply length_replicate.
  - by injection Hrun as <-.
  - injection Hrun as <-. by rewrite particles_update_length.
Qed.

Lemma reachable_pool (w : World F) :
  reachable w -> length (particles w) = MAX_PARTICLES.
Proof.
  induction 1 as [w0 | o w w' Hreach IH Hrun].
  - unfold game_reset.
    destruct (new_bag_piece (rng w0)) as [c s1].
    destruct (new_bag_piece s1) as [n s2].
    unfold particles_reset. cbn [particles]. apply length_replicate.
  - by apply (run_op_pool o w w').
Qed.

(** C10.  The pool has 4096 slots.  [spawn_explosion] requests between
    120 and 199 particles; each request fills the first dead slot, and a
    request that finds every slot alive changes nothing: after the call
    the number of live particles is the old number plus the requests,
    capped at 4096, every particle that was alive is still in its slot
    unchanged, and a full pool is returned as it was, the game untouched.
    Hence after any sequence of explosions and updates from
    [particles_reset], and in every world the engine reaches from
    [game_reset], the pool still has 4096 slots and at most 4096 of them
    are alive. *)
Theorem particle_pool_bounded :
  MAX_PARTICLES = 4096%nat /\
  (forall s, 120 <= explosion_count (fst (rand s)) <= 199) /\
  (forall cx cy base (w : World F) i,
     (length (particles w) <= MAX_PARTICLES)%nat ->
     scan_dead MAX_PARTICLES 0 (particles w) = Some i ->
     (exists p, particles w !! i = Some p /\ Particle.alive p = false) /\
     particles (spawn_one cx cy base w) =
       <[i := fst (make_particle cx cy base (rng w))]> (particles w)) /\
  (forall cx cy base (w : World F),
     (length (particles w) <= MAX_PARTICLES)%nat ->
     alive_count (particles w) = length (particles w) ->
     spawn_one cx cy base w = w) /\
  (forall cx cy base (w : World F),
     length (particles w) = MAX_PARTICLES ->
     let w' := spawn_explosion cx cy base w in
     let requested := Z.to_nat (explosion_count (fst (rand (rng w)))) in
     length (particles w') = MAX_PARTICLES /\
     alive_count (particles w') =
       Nat.min MAX_PARTICLES (alive_count (particles w) + requested) /\
     (forall i p, particles w !! i = Some p -> Particle.alive p = true ->
                  particles w' !! i = Some p) /\
     (alive_count (particles w) = MAX_PARTICLES ->
      particles w' = particles w) /\
     game w' = game w) /\
  (forall w : World F,
     pool_reachable w \/ reachable w ->
     length (particles w) = 4096%nat /\
     (alive_count (particles w) <= 4096)%nat).
Proof.
  split; [reflexivity |]. split; [apply explosion_count_range |].
  split; [| split; [| split]].
  - intros cx cy base w i Hlen Hscan.
    by destruct (spawn_one_pool cx cy base w Hlen) as (_ & _ & _ & _ & Hslot);
      apply Hslot.
  - intros cx cy base w Hlen Hfull.
    by destruct (spawn_one_pool cx cy base w Hlen) as (_ & _ & _ & Hsame & _);
      apply Hsame.
  - intros cx cy base w Hlen.
    destruct (spawn_explosion_pool cx cy base w Hlen)
      as (Hl & Hc & Hlive & Hfull).
    split; [exact Hl |]. split; [exact Hc |]. split; [exact Hlive |].
    split; [exact Hfull | apply spawn_explosion_game].
  - intros w Hreach.
    assert (length (particles w) = MAX_PARTICLES) as Hlen
      by (destruct Hreach;
          [by apply pool_reachable_length | by apply reachable_pool]).
    split; [exact Hlen |].
    pose proof (alive_count_le (particles w)) as Hle.
    change 4096%nat with MAX_PARTICLES. lia.
Qed.

End Pool.

(** ** Runs of the model *)

(** The tape 7, 18, 29, 40 makes [game_reset] draw the I piece and then
    the O piece. *)
Example reset_draws :
  Piece.k (Game.cur (game start_world)) = 0 /\
  Piece.k (Game.next (game start_world)) = 1 /\
  cursor (rng start_world) = 4%nat.
Proof. vm_compute. by repeat split. Qed.

(** The I piece turned clockwise stands in column 2 of its mask. *)
Example rotate_cw_I :
  rotate_cw_mask (shape 0) =
  mk4 (row4 0 0 1 0) (row4 0 0 1 0) (row4 0 0 1 0) (row4 0 0 1 0).
Proof. reflexivity. Qed.

Example rotate_ccw_T :
  rotate_ccw_mask (shape 2) =
  mk4 (row4 0 0 0 0) (row4 0 1 0 0) (row4 1 1 0 0) (row4 0 1 0 0).
Proof. reflexivity. Qed.

(** The O piece fits on rows 18-19 and in columns 8-9, not below or
    beside the board. *)
Example collide_O :
  collide (game o_world) (Game.cur (game o_world)) 3 18 = false /\
  collide (game o_world) (Game.cur (game o_world)) 3 19 = true /\
  collide (game o_world) (Game.cur (game o_world)) (-1) 0 = true /\
  collide (game o_world) (Game.cur (game o_world)) 8 0 = false /\
  collide (game o_world) (Game.cur (game o_world)) 9 0 = true.
Proof. vm_compute. by repeat split. Qed.

(** The upright I piece against the left wall: turning it collides at
    offset (0,0) and is accepted at the second kick, (+1,0). *)
Example rotate_kicks_off_wall :
  let g := game_with_cur (game o_world)
             (Piece.mk 0 4 4 (-1) 5 (rotate_cw_mask (shape 0)) 0 0) in
  Piece.x (Game.cur (attempt_rotate g true)) = 0 /\
  Piece.y (Game.cur (attempt_rotate g true)) = 5 /\
  Piece.m (Game.cur (attempt_rotate g true)) =
  mk4 (row4 0 0 0 0) (row4 0 0 0 0) (row4 1 1 1 1) (row4 0 0 0 0).
Proof. vm_compute. by repeat split. Qed.

(** Hard drop of the O piece on the empty board: four cells filled on
    rows 18 and 19, nothing cleared, nothing scored. *)
Example hard_drop_O :
  summary (hard_drop o_world) =
  Some (4%nat, 0, 0, 0, 900, 0%nat, true, false).
Proof. vm_compute. reflexivity. Qed.

(** The I piece fills the last cell of the bottom row: one row is
    cleared, three cells stay, 40 points at level 0, and the explosion
    of 171 particles is alive in the pool. *)
Example soft_step_clears_one :
  summary (soft_step gap_world) =
  Some (3%nat, 40, 1, 0, 900, 171%nat, true, false).
Proof. vm_compute. reflexivity. Qed.

(** Two stacked full rows are cleared in one pass: 100 points. *)
Example clear_lines_two :
  summary (clear_lines two_full_rows_world) =
  Some (1%nat, 100, 2, 0, 900, 320%nat, true, false).
Proof. vm_compute. reflexivity. Qed.

(* ===================================================================== *)
(** * Further properties of the engine *)
(* ===================================================================== *)

(** ** Rotation as a permutation of the mask *)

Lemma filter_length_sum {A} (f : A -> bool) (l : list A) :
  length (List.filter f l) =
  list_sum (List.map (fun a => if f a then 1%nat else 0%nat) l).
Proof.
  induction l as [| a l IH]; [reflexivity |].
  simpl. destruct (f a); simpl; by rewrite IH.
Qed.

Lemma rotate_cw_popcount (m : Mask) :
  popcount (rotate_cw_mask m) = popcount m.
Proof.
  unfold popcount. rewrite !filter_length_sum.
  destruct m as [[a00 a01 a02 a03] [a10 a11 a12 a13]
                 [a20 a21 a22 a23] [a30 a31 a32 a33]].
  let cs := eval vm_compute in cells4 in change cells4 with cs.
  cbv - [Z.eqb Nat.add]. lia.
Qed.

Lemma rotate_ccw_popcount (m : Mask) :
  popcount (rotate_ccw_mask m) = popcount m.
Proof.
  unfold popcount. rewrite !filter_length_sum.
  destruct m as [[a00 a01 a02 a03] [a10 a11 a12 a13]
                 [a20 a21 a22 a23] [a30 a31 a32 a33]].
  let cs := eval vm_compute in cells4 in change cells4 with cs.
  cbv - [Z.eqb Nat.add]. lia.
Qed.

(** X1. A quarter turn, in either direction, keeps the number of set
    cells of the mask. *)
Theorem rotate_popcount (m : Mask) :
  popcount (rotate_cw_mask m) = popcount m /\
  popcount (rotate_ccw_mask m) = popcount m.
Proof. split; [apply rotate_cw_popcount | apply rotate_ccw_popcount]. Qed.

Lemma rotate_ccw_cw (m : Mask) : rotate_ccw_mask (rotate_cw_mask m) = m.
Proof. by destruct m as [[? ? ? ?] [? ? ? ?] [? ? ? ?] [? ? ? ?]]. Qed.

Lemma rotate_cw_ccw (m : Mask) : rotate_cw_mask (rotate_ccw_mask m) = m.
Proof. by destruct m as [[? ? ? ?] [? ? ? ?] [? ? ? ?] [? ? ? ?]]. Qed.

Lemma rotate_cw_four (m : Mask) : turns 4 m = m.
Proof. by destruct m as [[? ? ? ?] [? ? ? ?] [? ? ? ?] [? ? ? ?]]. Qed.

Lemma rotate_ccw_three_cw (m : Mask) : rotate_ccw_mask m = turns 3 m.
Proof. by destruct m as [[? ? ? ?] [? ? ? ?] [? ? ? ?] [? ? ? ?]]. Qed.

(** X2. The two rotations undo each other on every mask, four clockwise
    turns give the mask back, and a counter-clockwise turn is three
    clockwise turns; on pieces, rotating back and forth restores the
    piece. *)
Theorem rotate_round_trip (p : Piece.t) :
  rotate_ccw (rotate_cw p) = p /\
  rotate_cw (rotate_ccw p) = p /\
  rotate_cw (rotate_cw (rotate_cw (rotate_cw p))) = p /\
  rotate_ccw p = rotate_cw (rotate_cw (rotate_cw p)).
Proof.
  destruct p as [k w h x y m ty ti]. unfold rotate_cw, rotate_ccw, piece_with_m.
  cbn [Piece.k Piece.w Piece.h Piece.x Piece.y Piece.m Piece.type Piece.tint].
  rewrite rotate_ccw_cw, rotate_cw_ccw, rotate_ccw_three_cw.
  pose proof (rotate_cw_four m) as Hfour. unfold turns in *. simpl in Hfour.
  rewrite Hfour. by repeat split.
Qed.

(** ** Where the current piece can be *)

(** [collide] looks at the board of the game and the mask of the piece
    only. *)
Lemma collide_ext (g g' : Game.t) (p p' : Piece.t) (nx ny : Z) :
  Game.board g = Game.board g' -> Piece.m p = Piece.m p' ->
  collide g p nx ny = collide g' p' nx ny.
Proof. intros Hb Hm. unfold collide. by rewrite Hb, Hm. Qed.

Lemma try_kicks_cases (g : Game.t) (t : Piece.t) (ks : list (Z * Z)) :
  try_kicks g t ks = g \/
  exists dx dy, In (dx, dy) ks /\
    collide g t (Piece.x t + dx) (Piece.y t + dy) = false /\
    try_kicks g t ks =
    game_with_cur g (piece_with_xy t (Piece.x t + dx) (Piece.y t + dy)).
Proof.
  induction ks as [| [dx dy] ks IH]; [by left |].
  simpl. destruct (collide g t (Piece.x t + dx) (Piece.y t + dy)) eqn:Hcol;
    simpl.
  - destruct IH as [Hsame | (dx' & dy' & Hin & Hfree & Heq)]; [by left |].
    right. exists dx', dy'. split; [by right | by split].
  - right. exists dx, dy. split; [by left | by split].
Qed.

(** X3. [attempt_rotate] either leaves the game as it is or replaces the
    current piece by the rotated piece at most one cell away, in a place
    where it does not collide.  Either way the board, the other fields,
    the kind, type, tint and number of set cells of the piece are kept,
    and a piece that did not collide before does not collide after. *)
Theorem attempt_rotate_safe (g : Game.t) (cw : bool) :
  let g' := attempt_rotate g cw in
  let p := Game.cur g in
  let p' := Game.cur g' in
  g' = game_with_cur g p' /\
  (Piece.k p' = Piece.k p /\ Piece.type p' = Piece.type p /\
   Piece.tint p' = Piece.tint p /\
   popcount (Piece.m p') = popcount (Piece.m p)) /\
  (g' = g \/
   (fits g' /\
    Piece.m p' = (if cw then rotate_cw_mask (Piece.m p)
                  else rotate_ccw_mask (Piece.m p)) /\
    Z.abs (Piece.x p' - Piece.x p) + Z.abs (Piece.y p' - Piece.y p) <= 1)) /\
  (fits g -> fits g').
Proof.
  intros g' p p'. subst g' p p'. unfold attempt_rotate.
  set (t := if cw then rotate_cw (Game.cur g) else rotate_ccw (Game.cur g)).
  assert (Piece.k t = Piece.k (Game.cur g) /\
          Piece.type t = Piece.type (Game.cur g) /\
          Piece.tint t = Piece.tint (Game.cur g) /\
          Piece.x t = Piece.x (Game.cur g) /\
          Piece.y t = Piece.y (Game.cur g) /\
          Piece.m t = (if cw then rotate_cw_mask (Piece.m (Game.cur g))
                       else rotate_ccw_mask (Piece.m (Game.cur g))) /\
          popcount (Piece.m t) = popcount (Piece.m (Game.cur g)))
    as (Hk & Hty & Hti & Hx & Hy & Hm & Hpop).
  { subst t. destruct cw; simpl; repeat split;
      [apply rotate_cw_popcount | apply rotate_ccw_popcount]. }
  destruct (try_kicks_cases g t kicks)
    as [-> | (dx & dy & Hin & Hfree & ->)].
  - split; [by destruct g |]. split; [by repeat split |].
    split; [by left | done].
  - split; [reflexivity |]. split; [by repeat split |].
    assert (fits (game_with_cur g
                    (piece_with_xy t (Piece.x t + dx) (Piece.y t + dy))))
      as Hfits by exact Hfree.
    split; [| intros _; exact Hfits].
    right. split; [exact Hfits |]. split; [exact Hm |].
    cbn [Game.cur game_with_cur piece_with_xy Piece.x Piece.y].
    rewrite Hx, Hy. unfold kicks in Hin. simpl in Hin.
    destruct Hin as [Heq | [Heq | [Heq | [Heq | [Heq | []]]]]];
      injection Heq as <- <-; lia.
Qed.

(** ** Hard drop *)

(** The drop loop moves the piece straight down through free positions
    and stops at the first position whose successor collides. *)
Lemma drop_loop_lands (fuel : nat) :
  forall g g', drop_loop fuel g = Done g' ->
    exists y',
      g' = game_with_cur g (piece_with_xy (Game.cur g)
                              (Piece.x (Game.cur g)) y') /\
      Piece.y (Game.cur g) <= y' /\
      collide g (Game.cur g) (Piece.x (Game.cur g)) (y' + 1) = true /\
      (forall y'', Piece.y (Game.cur g) < y'' <= y' ->
         collide g (Game.cur g) (Piece.x (Game.cur g)) y'' = false).
Proof.
  induction fuel as [| fuel IH]; intros g g' Hrun; [discriminate |].
  simpl in Hrun.
  destruct (collide g (Game.cur g) (Piece.x (Game.cur g))
                    (Piece.y (Game.cur g) + 1)) eqn:Hcol; simpl in Hrun.
  - injection Hrun as <-. exists (Piece.y (Game.cur g)).
    split; [by destruct g as [b [] ? ? ? ? ? ? ? ? ? ?] |].
    split; [lia |]. split; [exact Hcol | intros y'' Hy; lia].
  - apply IH in Hrun as (y' & -> & Hle & Hstop & Hfree).
    cbn [cur_down Game.cur game_with_cur piece_with_xy Piece.x Piece.y]
      in Hle, Hstop, Hfree.
    exists y'. split; [reflexivity |]. split; [lia |].
    split; [exact Hstop |].
    intros y'' Hy.
    destruct (Z.eq_dec y'' (Piece.y (Game.cur g) + 1)) as [-> | Hne];
      [exact Hcol |].
    apply (Hfree y''). lia.
Qed.

(** X4. For a piece with a set cell the loop of [hard_drop] ends: the
    piece keeps its column and mask and lands on the lowest row it can
    reach by moving straight down through free positions; the position
    below the landing row collides, and a piece that did not collide at
    the start does not collide where it lands. *)
Theorem hard_drop_lands (g : Game.t) :
  mask_nonempty (Piece.m (Game.cur g)) ->
  exists y',
    drop_loop (drop_fuel g) g =
      Done (game_with_cur g (piece_with_xy (Game.cur g)
                               (Piece.x (Game.cur g)) y')) /\
    Piece.y (Game.cur g) <= y' /\
    collide g (Game.cur g) (Piece.x (Game.cur g)) (y' + 1) = true /\
    (forall y'', Piece.y (Game.cur g) < y'' <= y' ->
       collide g (Game.cur g) (Piece.x (Game.cur g)) y'' = false) /\
    (fits g ->
     fits (game_with_cur g (piece_with_xy (Game.cur g)
                              (Piece.x (Game.cur g)) y'))).
Proof.
  intros Hne.
  destruct (drop_loop_ends (drop_fuel g) g Hne) as [y0 Hrun];
    [unfold drop_fuel; lia |].
  destruct (drop_loop_lands _ _ _ Hrun) as (y' & Heq & Hle & Hstop & Hfree).
  exists y'. rewrite Hrun, Heq.
  split; [reflexivity |]. split; [exact Hle |]. split; [exact Hstop |].
  split; [exact Hfree |].
  intros Hfits. unfold fits in *.
  cbn [Game.cur game_with_cur piece_with_xy Piece.x Piece.y].
  destruct (Z.eq_dec y' (Piece.y (Game.cur g))) as [-> | Hny].
  - exact Hfits.
  - rewrite <- (Hfree y') by lia. by apply collide_ext.
Qed.

Lemma hard_drop_lands_witness :
  exists y', drop_loop (drop_fuel (game o_world)) (game o_world) =
             Done (game_with_cur (game o_world)
                     (piece_with_xy (Game.cur (game o_world)) 3 y')) /\
             0 <= y'.
Proof.
  destruct (hard_drop_lands (game o_world)) as (y' & Hrun & Hle & _).
  - exists 0, 0. split; [lia | split; [lia | vm_compute; discriminate]].
  - exists y'. split; [exact Hrun | exact Hle].
Defined.

(** ** The steps a reachable game is built from *)

Lemma locked_cleared_inv (g : Game.t) : game_inv g -> game_inv (locked_cleared g).
Proof.
  intros (Hwf & Hfull & Hcur & Hnext & Hhold & Hlines).
  destruct (lock_piece_board_inv g Hwf Hfull) as [Hwf1 Hle1].
  assert (game_inv (game_with_board g (compact (Game.board (lock_piece g)))))
    as Hinv.
  { unfold game_inv, compact. cbn [Game.board game_with_board Game.cur
      Game.next Game.hold Game.has_hold Game.lines].
    split; [by apply compact_wf |].
    split; [rewrite full_rows_replicate_zero; apply kept_rows_no_full |].
    tauto. }
  unfold locked_cleared, score_update.
  destruct (full_rows (Game.board (lock_piece g))) as [| n]; [exact Hinv |].
  destruct (score_tbl !! S n); [| exact Hinv].
  destruct Hinv as (? & ? & ? & ? & ? & ?).
  unfold game_inv. cbn [Game.board game_with_progress game_with_board Game.cur
    Game.next Game.hold Game.has_hold Game.lines] in *.
  split; [assumption |]. split; [assumption |]. split; [assumption |].
  split; [assumption |]. split; [assumption | lia].
Qed.

Section Steps.
Context {F : Type} `{FloatOps F}.

(** [lock_piece; clear_lines; spawn_piece] in a game that satisfies the
    invariant: it returns, and it is a spawn on the locked and cleared
    game. *)
Lemma lock_clear_spawn_exact (w : World F) :
  game_inv (game w) ->
  exists w2, lock_clear_spawn w = Done (tt, spawn_piece w2) /\
             game w2 = locked_cleared (game w).
Proof.
  intros (Hwf & Hfull & _).
  destruct (lock_piece_board_inv (game w) Hwf Hfull) as [Hwf1 Hle1].
  destruct (clear_rows_run (on_game lock_piece w) Hwf1)
    as (w1 & Hrun & Hb & Hgame).
  rewrite Hb in Hgame.
  change (game (on_game lock_piece w)) with (lock_piece (game w)) in *.
  unfold lock_clear_spawn, bind, lift, clear_lines, bind. rewrite Hrun.
  unfold locked_cleared, score_update, compact.
  destruct (full_rows (Game.board (lock_piece (game w)))) as [| n] eqn:Hn.
  - exists w1. change (Z.of_nat 0) with 0. rewrite apply_score_zero.
    split; [reflexivity |]. rewrite Hgame. reflexivity.
  - destruct (lookup_lt_is_Some_2 score_tbl (S n)) as [pts Hpts];
      [change (length score_tbl) with 5%nat; lia |].
    rewrite (apply_score_in_table (S n) pts w1 ltac:(lia) Hpts), Hpts.
    eexists. split; [reflexivity |].
    cbn [game world_with_game]. rewrite Hgame. reflexivity.
Qed.

(** Induction over the reachable games.  [P] is to hold in every
    reachable world, [Q] between a lock and the spawn that follows it:
    [P] holds after [game_reset] and is kept by a sideways move, a
    rotation, a move straight down through free positions, a hold and a
    write to the accumulator; lock and clear lead from [P] to [Q], and a
    spawn from [Q] back to [P]. *)
Lemma reachable_game_ind (P Q : Game.t -> Prop) :
  (forall w0 : World F, P (game (game_reset w0))) ->
  (forall g dx, game_inv g -> P g -> P (move_cur dx g)) ->
  (forall g cw, game_inv g -> P g -> P (attempt_rotate g cw)) ->
  (forall g y', game_inv g -> P g -> Piece.y (Game.cur g) <= y' ->
     (forall y'', Piece.y (Game.cur g) < y'' <= y' ->
        collide g (Game.cur g) (Piece.x (Game.cur g)) y'' = false) ->
     P (game_with_cur g
          (piece_with_xy (Game.cur g) (Piece.x (Game.cur g)) y'))) ->
  (forall g, game_inv g -> P g -> Q (locked_cleared g)) ->
  (forall w : World F, game_inv (game w) -> Q (game w) ->
     P (game (spawn_piece w))) ->
  (forall w : World F, game_inv (game w) -> P (game w) ->
     P (game (hold_piece w))) ->
  (forall g v, P g -> P (set_fall_accum v g)) ->
  forall w : World F, reachable w -> P (game w).
Proof.
  intros Hreset Hmove Hrot Hdown Hlock Hspawn Hhold Haccum w Hreach.
  induction Hreach as [w0 | o w w' Hreach IH Hrun]; [apply Hreset |].
  pose proof (reachable_inv w Hreach) as Hinv.
  assert (forall w1 : World F, game_inv (game w1) -> P (game w1) ->
            forall w1', lock_clear_spawn w1 = Done (tt, w1') -> P (game w1'))
    as Hlcs.
  { intros w1 Hinv1 HP1 w1' Hrun1.
    destruct (lock_clear_spawn_exact w1 Hinv1) as (w2 & Hrun2 & Hg2).
    rewrite Hrun1 in Hrun2. injection Hrun2 as ->.
    apply Hspawn; rewrite Hg2; [by apply locked_cleared_inv | by apply Hlock]. }
  destruct o; cbn [run_op lift] in Hrun.
  - injection Hrun as <-. by apply Hmove.
  - injection Hrun as <-. by apply Hmove.
  - unfold soft_step, bind, get_game in Hrun.
    destruct (collide (game w) (Game.cur (game w))
                (Piece.x (Game.cur (game w)))
                (Piece.y (Game.cur (game w)) + 1)) eqn:Hcol;
      cbn [negb] in Hrun.
    + by apply (Hlcs w).
    + injection Hrun as <-.
      apply (Hdown (game w) (Piece.y (Game.cur (game w)) + 1));
        [assumption | assumption | lia |].
      intros y'' Hy. by replace y'' with (Piece.y (Game.cur (game w)) + 1)
        by lia.
  - unfold hard_drop, bind, drop_to_floor in Hrun.
    destruct (drop_loop (drop_fuel (game w)) (game w)) as [g1 | |] eqn:Hdrop;
      try discriminate.
    destruct (drop_loop_lands _ _ _ Hdrop) as (y' & -> & Hle & _ & Hfree).
    apply (Hlcs (world_with_game w
             (game_with_cur (game w)
                (piece_with_xy (Game.cur (game w))
                   (Piece.x (Game.cur (game w))) y')))); [| | exact Hrun].
    + apply game_inv_with_cur; [assumption | apply Hinv].
    + by apply Hdown.
  - injection Hrun as <-. by apply Hhold.
  - injection Hrun as <-. by apply Hrot.
  - injection Hrun as <-. apply Hreset.
  - injection Hrun as <-. by apply Haccum.
  - by injection Hrun as <-.
Qed.

End Steps.

(** ** The running piece never overlaps *)

(** Each of the seven shapes fits at the spawn position on the empty
    board. *)
Lemma shape_fits_spawn (k : Z) (g : Game.t) (p : Piece.t) :
  0 <= k < 7 -> Game.board g = zero_board -> Piece.m p = shape k ->
  collide g p spawn_x 0 = false.
Proof.
  intros Hk Hb Hm. unfold collide. rewrite Hb, Hm.
  assert (k = 0 \/ k = 1 \/ k = 2 \/ k = 3 \/ k = 4 \/ k = 5 \/ k = 6)
    as Hk' by lia.
  destruct Hk' as [-> | [-> | [-> | [-> | [-> | [-> | ->]]]]]];
    vm_compute; reflexivity.
Qed.

Lemma move_cur_fits (dx : Z) (g : Game.t) : fits g -> fits (move_cur dx g).
Proof.
  intros Hfits. unfold move_cur.
  destruct (collide g (Game.cur g) (Piece.x (Game.cur g) + dx)
                    (Piece.y (Game.cur g))) eqn:Hcol; [exact Hfits |].
  exact Hcol.
Qed.

Lemma attempt_rotate_fits (g : Game.t) (cw : bool) :
  fits g -> fits (attempt_rotate g cw).
Proof.
  intros Hfits. unfold attempt_rotate.
  destruct (try_kicks_cases g
              (if cw then rotate_cw (Game.cur g) else rotate_ccw (Game.cur g))
              kicks) as [-> | (dx & dy & _ & Hfree & ->)];
    [exact Hfits | exact Hfree].
Qed.

Lemma attempt_rotate_game_over (g : Game.t) (cw : bool) :
  Game.game_over (attempt_rotate g cw) = Game.game_over g.
Proof. unfold attempt_rotate. apply try_kicks_flags. Qed.

Section RunningPiece.
Context {F : Type} `{FloatOps F}.

Lemma game_reset_fits (w0 : World F) : fits (game (game_reset w0)).
Proof.
  unfold game_reset.
  destruct (new_bag_piece_shape (rng w0)) as (k & ty & Hk & _ & Hc).
  destruct (new_bag_piece (rng w0)) as [c s1]. simpl in Hc. subst c.
  destruct (new_bag_piece s1) as [n s2].
  by apply (shape_fits_spawn k).
Qed.

Lemma spawn_piece_fits (w : World F) :
  Game.game_over (game (spawn_piece w)) = false -> fits (game (spawn_piece w)).
Proof.
  intros Hover.
  destruct (spawn_piece_result w) as (Hcur & _ & _ & _ & _ & Hgo & _).
  rewrite Hgo in Hover. apply orb_false_elim in Hover as [_ Hcol].
  unfold fits. rewrite Hcur in *. exact Hcol.
Qed.

Lemma hold_piece_fits (w : World F) :
  (Game.game_over (game w) = false -> fits (game w)) ->
  Game.game_over (game (hold_piece w)) = false -> fits (game (hold_piece w)).
Proof.
  intros HP Hover.
  destruct (Game.can_hold (game w)) eqn:Hcan.
  - destruct (Game.has_hold (game w)) eqn:Hhas.
    + destruct (hold_piece_swap w Hcan Hhas) as (Hcur & _ & _ & _ & Hgo & _).
      rewrite Hgo in Hover. apply orb_false_elim in Hover as [_ Hcol].
      unfold fits. rewrite Hcur in *. exact Hcol.
    + destruct (hold_piece_store_result w Hcan Hhas)
        as (_ & _ & Hcur & _ & Hgo).
      rewrite Hgo in Hover. apply orb_false_elim in Hover as [_ Hcol].
      unfold fits. rewrite Hcur in *. exact Hcol.
  - rewrite hold_piece_noop in * by assumption. by apply HP.
Qed.

Lemma reachable_fits (w : World F) :
  reachable w -> Game.game_over (game w) = false -> fits (game w).
Proof.
  apply (reachable_game_ind
           (fun g => Game.game_over g = false -> fits g) (fun _ => True)).
  - intros w0 _. apply game_reset_fits.
  - intros g dx _ HP Hgo. apply move_cur_fits, HP.
    by destruct (move_cur_flags dx g) as [<- _].
  - intros g cw _ HP Hgo. apply attempt_rotate_fits, HP.
    by rewrite <- (attempt_rotate_game_over g cw).
  - intros g y' _ HP Hle Hfree Hgo.
    destruct (Z.eq_dec y' (Piece.y (Game.cur g))) as [-> | Hne].
    + exact (HP Hgo).
    + unfold fits.
      cbn [Game.cur game_with_cur piece_with_xy Piece.x Piece.y].
      rewrite <- (Hfree y') by lia. by apply collide_ext.
  - done.
  - intros w1 _ _. apply spawn_piece_fits.
  - intros w1 _. apply hold_piece_fits.
  - intros g v HP Hgo. exact (HP Hgo).
Qed.

(** X5. In every world the engine reaches from [game_reset], while
    [game_over] is clear the current piece does not collide where it is:
    each of its set cells is inside the board on an empty cell. *)
Theorem running_piece_fits (w : World F) :
  reachable w -> Game.game_over (game w) = false ->
  collide (game w) (Game.cur (game w)) (Piece.x (Game.cur (game w)))
          (Piece.y (Game.cur (game w))) = false /\
  forall r c, 0 <= r < 4 -> 0 <= c < 4 ->
    mget (Piece.m (Game.cur (game w))) r c <> 0 ->
    (0 <= Piece.x (Game.cur (game w)) + c < COLS /\
     0 <= Piece.y (Game.cur (game w)) + r < ROWS) /\
    Cell.filled (board_at (Game.board (game w))
                   (Piece.y (Game.cur (game w)) + r)
                   (Piece.x (Game.cur (game w)) + c)) = false.
Proof.
  intros Hreach Hover.
  pose proof (reachable_fits w Hreach Hover) as Hfits.
  split; [exact Hfits |]. by apply collide_false_iff.
Qed.

End RunningPiece.

Lemma running_piece_fits_witness :
  collide (game start_world) (Game.cur (game start_world)) 3 0 = false.
Proof.
  by destruct (running_piece_fits start_world (reach_reset _) eq_refl)
    as [Hfits _].
Defined.

(** ** Pieces and board cells stay well formed *)

Lemma turns_cw (n : nat) (s : Mask) :
  (n < 4)%nat -> exists n', (n' < 4)%nat /\
    rotate_cw_mask (turns n s) = turns n' s.
Proof.
  intros Hn. destruct (decide (n = 3%nat)) as [-> | Hne].
  - exists 0%nat. split; [lia |]. exact (rotate_cw_four s).
  - exists (S n). split; [lia | reflexivity].
Qed.

Lemma turns_ccw (n : nat) (s : Mask) :
  (n < 4)%nat -> exists n', (n' < 4)%nat /\
    rotate_ccw_mask (turns n s) = turns n' s.
Proof.
  intros Hn. rewrite rotate_ccw_three_cw.
  destruct (turns_cw n s Hn) as (n1 & Hn1 & H1).
  destruct (turns_cw n1 s Hn1) as (n2 & Hn2 & H2).
  destruct (turns_cw n2 s Hn2) as (n3 & Hn3 & H3).
  exists n3. split; [assumption |].
  change (turns 3 (turns n s))
    with (rotate_cw_mask (rotate_cw_mask (rotate_cw_mask (turns n s)))).
  by rewrite H1, H2, H3.
Qed.

Lemma turns_popcount (n : nat) (s : Mask) : popcount (turns n s) = popcount s.
Proof.
  induction n as [| n IH]; [reflexivity |].
  change (turns (S n) s) with (rotate_cw_mask (turns n s)).
  by rewrite rotate_cw_popcount.
Qed.

Lemma shape_popcount (k : Z) : 0 <= k < 7 -> popcount (shape k) = 4%nat.
Proof.
  intros Hk.
  assert (k = 0 \/ k = 1 \/ k = 2 \/ k = 3 \/ k = 4 \/ k = 5 \/ k = 6)
    as Hk' by lia.
  by destruct Hk' as [-> | [-> | [-> | [-> | [-> | [-> | ->]]]]]].
Qed.

Lemma piece_ok_popcount (p : Piece.t) :
  piece_ok p -> popcount (Piece.m p) = 4%nat.
Proof.
  intros (Hk & _ & _ & _ & _ & n & _ & ->).
  rewrite turns_popcount. by apply shape_popcount.
Qed.

Lemma piece_ok_with_xy (p : Piece.t) (x y : Z) :
  piece_ok p -> piece_ok (piece_with_xy p x y).
Proof. intros Hok. exact Hok. Qed.

Lemma piece_ok_rotate (p : Piece.t) (cw : bool) :
  piece_ok p -> piece_ok (if cw then rotate_cw p else rotate_ccw p).
Proof.
  intros (Hk & Hti & Hty & Hw & Hh & n & Hn & Hm).
  destruct cw; unfold piece_ok, rotate_cw, rotate_ccw, piece_with_m;
    cbn [Piece.k Piece.tint Piece.type Piece.w Piece.h Piece.m];
    rewrite Hm; (repeat split; try assumption; try lia).
  - by apply turns_cw.
  - by apply turns_ccw.
Qed.

Lemma new_bag_piece_ok (s : Rng) : piece_ok (fst (new_bag_piece s)).
Proof.
  destruct (new_bag_piece_shape s) as (k & ty & Hk & Hty & ->).
  unfold piece_ok. cbn [Piece.k Piece.tint Piece.type Piece.w Piece.h Piece.m].
  repeat split; try lia. exists 0%nat. split; [lia | reflexivity].
Qed.

Lemma zero_board_cells_ok : Forall (Forall cell_ok) zero_board.
Proof.
  apply Forall_replicate, Forall_replicate. intros Hf. discriminate.
Qed.

Lemma board_set_cells_ok (b : Board) (y x : Z) (cl : Cell.t) :
  Forall (Forall cell_ok) b -> cell_ok cl ->
  Forall (Forall cell_ok) (board_set b y x cl).
Proof.
  intros Hb Hcl. unfold board_set.
  destruct (b !! Z.to_nat y) as [row |] eqn:Hrow; [| assumption].
  apply Forall_insert; [assumption |].
  apply Forall_insert; [| assumption].
  rewrite Forall_lookup in Hb. by apply (Hb _ _ Hrow).
Qed.

Lemma lock_board_cells_ok (p : Piece.t) (b : Board) :
  piece_ok p -> Forall (Forall cell_ok) b ->
  Forall (Forall cell_ok) (lock_board p b).
Proof.
  intros (Hk & Hti & Hty & _) Hb. unfold lock_board.
  generalize cells4. intros cs. revert b Hb.
  induction cs as [| [r c] cs IH]; intros b Hb; [assumption |].
  simpl. apply IH. unfold lock_cell.
  destruct (mget (Piece.m p) r c =? 0); [assumption |].
  destruct (_ && _); [| assumption].
  apply board_set_cells_ok; [assumption |].
  intros _. cbn [Cell.tint Cell.type]. lia.
Qed.

Lemma compact_cells_ok (b : Board) :
  Forall (Forall cell_ok) b -> Forall (Forall cell_ok) (compact b).
Proof.
  intros Hb. unfold compact. apply Forall_app. split.
  - apply Forall_replicate, Forall_replicate. intros Hf. discriminate.
  - by apply kept_rows_Forall.
Qed.

Lemma board_at_cell_ok (b : Board) (y x : Z) :
  Forall (Forall cell_ok) b -> cell_ok (board_at b y x).
Proof.
  intros Hb. unfold board_at.
  destruct (b !! Z.to_nat y) as [row |] eqn:Hrow; [| intros Hf; discriminate].
  destruct (row !! Z.to_nat x) as [cl |] eqn:Hcl; [| intros Hf; discriminate].
  rewrite Forall_lookup in Hb. specialize (Hb _ _ Hrow).
  rewrite Forall_lookup in Hb. by apply (Hb _ _ Hcl).
Qed.

(** [pieces_inv] reads the pieces, [has_hold] and the board only. *)
Lemma pieces_inv_ext (g g' : Game.t) :
  Game.cur g' = Game.cur g -> Game.next g' = Game.next g ->
  Game.hold g' = Game.hold g -> Game.has_hold g' = Game.has_hold g ->
  Game.board g' = Game.board g ->
  pieces_inv g -> pieces_inv g'.
Proof.
  unfold pieces_inv. intros -> -> -> -> ->. tauto.
Qed.

Lemma pieces_inv_with_cur (g : Game.t) (p : Piece.t) :
  pieces_inv g -> piece_ok p -> pieces_inv (game_with_cur g p).
Proof.
  intros (_ & Hn & Hh & Hb) Hp.
  split; [exact Hp | split; [exact Hn | split; [exact Hh | exact Hb]]].
Qed.

Lemma locked_cleared_pieces (g : Game.t) :
  pieces_inv g -> pieces_inv (locked_cleared g).
Proof.
  intros (Hc & Hn & Hh & Hb).
  assert (pieces_inv (game_with_board g (compact (Game.board (lock_piece g)))))
    as Hinv.
  { split; [exact Hc |]. split; [exact Hn |]. split; [exact Hh |].
    apply compact_cells_ok. by apply lock_board_cells_ok. }
  unfold locked_cleared, score_update.
  destruct (full_rows (Game.board (lock_piece g))); [exact Hinv |].
  destruct (score_tbl !! _); exact Hinv.
Qed.

Section Pieces.
Context {F : Type} `{FloatOps F}.

Lemma spawn_piece_pieces (w : World F) :
  pieces_inv (game w) -> pieces_inv (game (spawn_piece w)).
Proof.
  intros (Hc & Hn & Hh & Hb).
  destruct (spawn_piece_result w)
    as (Hcur & Hnext & _ & _ & _ & _ & Hboard & Hhold & Hhas & _).
  unfold pieces_inv. rewrite Hcur, Hnext, Hboard, Hhold, Hhas.
  split; [by apply piece_ok_with_xy |].
  split; [apply new_bag_piece_ok |]. split; [exact Hh | exact Hb].
Qed.

Lemma on_game_can_hold_board (v : bool) (w : World F) :
  Game.board (game (on_game (fun g' => game_with_can_hold g' v) w)) =
  Game.board (game w).
Proof. reflexivity. Qed.

Lemma hold_piece_board (w : World F) :
  Game.board (game (hold_piece w)) = Game.board (game w).
Proof.
  destruct (Game.can_hold (game w)) eqn:Hcan;
    [| by rewrite hold_piece_noop].
  destruct (Game.has_hold (game w)) eqn:Hhas.
  - by destruct (hold_piece_swap w Hcan Hhas) as (_ & _ & _ & _ & _ & _ & Hb & _).
  - rewrite hold_piece_store by assumption.
    rewrite on_game_can_hold_board.
    by destruct (spawn_piece_result (world_with_game w
                   (game_with_has_hold
                      (game_with_hold (game w) (Game.cur (game w))) true)))
      as (_ & _ & _ & _ & _ & _ & Hb & _).
Qed.

Lemma hold_piece_pieces (w : World F) :
  pieces_inv (game w) -> pieces_inv (game (hold_piece w)).
Proof.
  intros Hinv. pose proof Hinv as (Hc & Hn & Hh & Hb).
  pose proof (hold_piece_board w) as Hboard.
  destruct (Game.can_hold (game w)) eqn:Hcan;
    [| by rewrite hold_piece_noop].
  unfold pieces_inv. rewrite Hboard.
  destruct (Game.has_hold (game w)) eqn:Hhas.
  - destruct (hold_piece_swap w Hcan Hhas)
      as (Hcur & Hhold & Hhas' & _ & _ & Hnext & _).
    rewrite Hcur, Hhold, Hnext.
    split; [by apply piece_ok_with_xy, Hh |].
    split; [exact Hn |]. split; [intros _; exact Hc | exact Hb].
  - destruct (hold_piece_store_result w Hcan Hhas)
      as (Hhold & Hhas' & Hcur & Hnext & _).
    rewrite Hcur, Hhold, Hnext.
    split; [by apply piece_ok_with_xy |].
    split; [apply new_bag_piece_ok |].
    split; [intros _; exact Hc | exact Hb].
Qed.

Lemma game_reset_pieces (w0 : World F) : pieces_inv (game (game_reset w0)).
Proof.
  unfold game_reset.
  pose proof (new_bag_piece_ok (rng w0)) as Hc.
  destruct (new_bag_piece (rng w0)) as [c s1]. simpl in Hc.
  pose proof (new_bag_piece_ok s1) as Hn.
  destruct (new_bag_piece s1) as [n s2]. simpl in Hn.
  split; [by apply piece_ok_with_xy |]. split; [exact Hn |].
  split; [discriminate | apply zero_board_cells_ok].
Qed.

Lemma reachable_pieces (w : World F) : reachable w -> pieces_inv (game w).
Proof.
  apply (reachable_game_ind pieces_inv pieces_inv).
  - apply game_reset_pieces.
  - intros g dx _ Hinv. unfold move_cur. destruct (negb _); [| exact Hinv].
    apply pieces_inv_with_cur; [exact Hinv |].
    apply piece_ok_with_xy, Hinv.
  - intros g cw _ Hinv. unfold attempt_rotate.
    destruct (try_kicks_cases g
                (if cw then rotate_cw (Game.cur g)
                 else rotate_ccw (Game.cur g)) kicks)
      as [-> | (dx & dy & _ & _ & ->)]; [exact Hinv |].
    apply pieces_inv_with_cur; [exact Hinv |].
    apply piece_ok_with_xy, piece_ok_rotate, Hinv.
  - intros g y' _ Hinv _ _. apply pieces_inv_with_cur; [exact Hinv |].
    apply piece_ok_with_xy, Hinv.
  - intros g _. apply locked_cleared_pieces.
  - intros w1 _. apply spawn_piece_pieces.
  - intros w1 _. apply hold_piece_pieces.
  - intros g v Hinv. exact Hinv.
Qed.

(** X6. Every piece in play in a reachable world is what [piece_from_k]
    made and rotation kept: its kind is in 0..6, its tint is its kind, its
    type is 0 or 1, its mask is one of the four turns of [SHAPES[kind]]
    and so has exactly four set cells.  This holds for the current
    piece, the lookahead piece and, once [has_hold] is set, the held
    piece. *)
Theorem pieces_are_turned_shapes (w : World F) :
  reachable w ->
  (piece_ok (Game.cur (game w)) /\ popcount (Piece.m (Game.cur (game w))) = 4%nat) /\
  (piece_ok (Game.next (game w)) /\
   popcount (Piece.m (Game.next (game w))) = 4%nat) /\
  (Game.has_hold (game w) = true ->
   piece_ok (Game.hold (game w)) /\
   popcount (Piece.m (Game.hold (game w))) = 4%nat).
Proof.
  intros Hreach. destruct (reachable_pieces w Hreach) as (Hc & Hn & Hh & _).
  split; [split; [exact Hc | by apply piece_ok_popcount] |].
  split; [split; [exact Hn | by apply piece_ok_popcount] |].
  intros Hhas. split; [by apply Hh | by apply piece_ok_popcount, Hh].
Qed.

(** X7. Everything the renderer uses as an index into the seven-entry
    [col_piece] is inside it in a reachable world: the tint of every
    filled board cell, of the current piece, of the lookahead piece and,
    once [has_hold] is set, of the held piece; the type of a filled cell
    is 0 or 1. *)
Theorem tints_index_col_piece (w : World F) :
  reachable w ->
  (forall y x, Cell.filled (board_at (Game.board (game w)) y x) = true ->
     0 <= Cell.tint (board_at (Game.board (game w)) y x) < 7 /\
     0 <= Cell.type (board_at (Game.board (game w)) y x) < 2) /\
  0 <= Piece.tint (Game.cur (game w)) < 7 /\
  0 <= Piece.tint (Game.next (game w)) < 7 /\
  (Game.has_hold (game w) = true -> 0 <= Piece.tint (Game.hold (game w)) < 7).
Proof.
  intros Hreach. destruct (reachable_pieces w Hreach) as (Hc & Hn & Hh & Hb).
  split; [intros y x; by apply board_at_cell_ok |].
  destruct Hc as (Hkc & -> & _). destruct Hn as (Hkn & -> & _).
  split; [exact Hkc |]. split; [exact Hkn |].
  intros Hhas. destruct (Hh Hhas) as (Hkh & -> & _). exact Hkh.
Qed.

End Pieces.

Lemma pieces_are_turned_shapes_witness :
  popcount (Piece.m (Game.cur (game start_world))) = 4%nat.
Proof.
  by destruct (pieces_are_turned_shapes start_world (reach_reset _))
    as ((_ & Hpop) & _).
Defined.

Lemma tints_index_col_piece_witness :
  0 <= Piece.tint (Game.cur (game start_world)) < 7.
Proof.
  by destruct (tints_index_col_piece start_world (reach_reset _))
    as (_ & Hcur & _).
Defined.

(** ** Score, lines, level and speed *)

Lemma score_tbl_nonneg (n : nat) (pts : Z) :
  score_tbl !! n = Some pts -> 0 <= pts <= 1200.
Proof.
  destruct n as [| [| [| [| [| n]]]]]; simpl; intros Heq;
    try (injection Heq as <-; lia). discriminate.
Qed.


Lemma score_update_zero (g : Game.t) : score_update 0 g = g.
Proof. reflexivity. Qed.

(** What one scoring step does to a game whose progress is consistent. *)
Lemma score_update_progress (n : nat) (g : Game.t) :
  progress_inv g -> (n <= 4)%nat ->
  progress_inv (score_update n g) /\
  Game.lines (score_update n g) = Game.lines g + Z.of_nat n /\
  Game.score g <= Game.score (score_update n g)
    <= Game.score g + 1200 * (Game.level g + 1) /\
  Game.level g <= Game.level (score_update n g) /\
  Game.fall_ms (score_update n g) <= Game.fall_ms g.
Proof.
  intros (Hlevel & Hfall & Hscore & Hlines) Hn.
  assert (0 <= Game.level g) as Hlev0
    by (rewrite Hlevel; apply Z.quot_pos; lia).
  unfold score_update. destruct n as [| n].
  - split; [by repeat split |]. repeat split; lia.
  - destruct (score_tbl !! S n) as [pts |] eqn:Hpts.
    + apply score_tbl_nonneg in Hpts.
      cbn [game_with_progress Game.score Game.lines Game.level Game.fall_ms].
      assert (Game.level g <= Z.quot (Game.lines g + Z.of_nat (S n)) 10)
        as Hmono by (rewrite Hlevel; apply Z.quot_le_mono; lia).
      split.
      { unfold progress_inv.
        cbn [game_with_progress Game.score Game.lines Game.level Game.fall_ms].
        repeat split; (lia || nia). }
      split; [reflexivity |]. split; [nia |]. split; [exact Hmono |].
      rewrite Hfall. by apply fall_interval_antitone.
    + split; [by repeat split |].
      apply lookup_ge_None in Hpts. simpl in Hpts. lia.
Qed.

Lemma progress_eq_fields (g g' : Game.t) :
  progress g = progress g' ->
  Game.score g = Game.score g' /\ Game.lines g = Game.lines g' /\
  Game.level g = Game.level g' /\ Game.fall_ms g = Game.fall_ms g'.
Proof. unfold progress. intros Heq. by injection Heq. Qed.

Lemma progress_inv_ext (g g' : Game.t) :
  progress g' = progress g -> progress_inv g -> progress_inv g'.
Proof.
  unfold progress, progress_inv. intros Heq. injection Heq as -> -> -> ->.
  tauto.
Qed.

Lemma move_cur_progress (dx : Z) (g : Game.t) :
  progress (move_cur dx g) = progress g /\
  Game.board (move_cur dx g) = Game.board g.
Proof. unfold move_cur. by destruct (negb _). Qed.

Lemma attempt_rotate_progress (g : Game.t) (cw : bool) :
  progress (attempt_rotate g cw) = progress g /\
  Game.board (attempt_rotate g cw) = Game.board g.
Proof.
  unfold attempt_rotate.
  by destruct (try_kicks_cases g
                 (if cw then rotate_cw (Game.cur g) else rotate_ccw (Game.cur g))
                 kicks) as [-> | (dx & dy & _ & _ & ->)].
Qed.

Section Progress.
Context {F : Type} `{FloatOps F}.

Lemma spawn_piece_progress (w : World F) :
  progress (game (spawn_piece w)) = progress (game w).
Proof.
  destruct (spawn_piece_result w)
    as (_ & _ & _ & _ & _ & _ & _ & _ & _ & Hs & Hl & Hv & Hf).
  unfold progress. by rewrite Hs, Hl, Hv, Hf.
Qed.

Lemma on_game_can_hold_progress (v : bool) (w : World F) :
  progress (game (on_game (fun g' => game_with_can_hold g' v) w)) =
  progress (game w).
Proof. reflexivity. Qed.

Lemma hold_piece_progress (w : World F) :
  progress (game (hold_piece w)) = progress (game w).
Proof.
  destruct (Game.can_hold (game w)) eqn:Hcan;
    [| by rewrite hold_piece_noop].
  destruct (Game.has_hold (game w)) eqn:Hhas.
  - unfold hold_piece. rewrite Hcan, Hhas. cbn [negb].
    rewrite on_game_can_hold_progress, check_game_over_result. reflexivity.
  - rewrite hold_piece_store by assumption.
    rewrite on_game_can_hold_progress, spawn_piece_progress. reflexivity.
Qed.

(** What a command does to board and progress: nothing, or a lock and
    clear of the current piece, where it is or where it lands, followed by
    a spawn. *)
Lemma run_op_cases (o : Op) (w w' : World F) :
  run_op o w = Done (tt, w') -> game_inv (game w) ->
  (Game.board (game w') = Game.board (game w) /\
   progress (game w') = progress (game w)) \/
  (exists g1 w2,
     w' = spawn_piece w2 /\ game w2 = locked_cleared g1 /\
     Game.board g1 = Game.board (game w) /\
     progress g1 = progress (game w) /\
     Piece.m (Game.cur g1) = Piece.m (Game.cur (game w)) /\
     (fits (game w) -> fits g1)) \/
  o = OpRestart.
Proof.
  intros Hrun Hinv.
  assert (forall w1 : World F, game_inv (game w1) ->
            Game.board (game w1) = Game.board (game w) ->
            progress (game w1) = progress (game w) ->
            Piece.m (Game.cur (game w1)) = Piece.m (Game.cur (game w)) ->
            (fits (game w) -> fits (game w1)) ->
            lock_clear_spawn w1 = Done (tt, w') ->
            exists g1 w2,
              w' = spawn_piece w2 /\ game w2 = locked_cleared g1 /\
              Game.board g1 = Game.board (game w) /\
              progress g1 = progress (game w) /\
              Piece.m (Game.cur g1) = Piece.m (Game.cur (game w)) /\
              (fits (game w) -> fits g1)) as Hlcs.
  { intros w1 Hinv1 Hb1 Hp1 Hm1 Hf1 Hrun1.
    destruct (lock_clear_spawn_exact w1 Hinv1) as (w2 & Hrun2 & Hg2).
    rewrite Hrun1 in Hrun2. injection Hrun2 as ->.
    by exists (game w1), w2. }
  destruct o; cbn [run_op lift] in Hrun.
  - left. injection Hrun as <-. cbn [game on_game world_with_game].
    by destruct (move_cur_progress (-1) (game w)).
  - left. injection Hrun as <-. cbn [game on_game world_with_game].
    by destruct (move_cur_progress 1 (game w)).
  - unfold soft_step, bind, get_game in Hrun.
    destruct (negb _).
    + left. by injection Hrun as <-.
    + right. left. by apply (Hlcs w).
  - right. left. unfold hard_drop, bind, drop_to_floor in Hrun.
    destruct (drop_loop (drop_fuel (game w)) (game w)) as [g1 | |] eqn:Hdrop;
      try discriminate.
    destruct (drop_loop_lands _ _ _ Hdrop) as (y' & -> & Hle & _ & Hfree).
    set (g1 := game_with_cur (game w)
                 (piece_with_xy (Game.cur (game w))
                    (Piece.x (Game.cur (game w))) y')) in *.
    assert (game_inv g1) as Hinv1
      by (apply game_inv_with_cur; [assumption | apply Hinv]).
    assert (fits (game w) -> fits g1) as Hfits1.
    { intros Hfits. unfold fits in *. subst g1.
      cbn [Game.cur game_with_cur piece_with_xy Piece.x Piece.y].
      destruct (Z.eq_dec y' (Piece.y (Game.cur (game w)))) as [-> | Hne].
      - exact Hfits.
      - rewrite <- (Hfree y') by lia. by apply collide_ext. }
    exact (Hlcs (world_with_game w g1) Hinv1 eq_refl eq_refl eq_refl
                Hfits1 Hrun).
  - left. injection Hrun as <-.
    split; [apply hold_piece_board | apply hold_piece_progress].
  - left. injection Hrun as <-. cbn [game on_game world_with_game].
    by destruct (attempt_rotate_progress (game w) cw).
  - by right; right.
  - left. by injection Hrun as <-.
  - left. by injection Hrun as <-.
Qed.

Lemma game_reset_progress (w0 : World F) : progress_inv (game (game_reset w0)).
Proof.
  unfold game_reset. destruct (new_bag_piece (rng w0)) as [c s1].
  destruct (new_bag_piece s1) as [n s2]. by repeat split.
Qed.

Lemma locked_cleared_progress (g : Game.t) :
  game_inv g -> progress_inv g -> progress_inv (locked_cleared g).
Proof.
  intros (Hwf & Hfull & _) Hp.
  destruct (lock_piece_board_inv g Hwf Hfull) as [_ Hle].
  unfold locked_cleared. apply score_update_progress; [| exact Hle].
  exact Hp.
Qed.

Lemma reachable_progress (w : World F) : reachable w -> progress_inv (game w).
Proof.
  apply (reachable_game_ind progress_inv progress_inv).
  - apply game_reset_progress.
  - intros g dx _. apply progress_inv_ext.
    by destruct (move_cur_progress dx g).
  - intros g cw _. apply progress_inv_ext.
    by destruct (attempt_rotate_progress g cw).
  - intros g y' _ Hp _ _. exact Hp.
  - apply locked_cleared_progress.
  - intros w1 _. apply progress_inv_ext, spawn_piece_progress.
  - intros w1 _. apply progress_inv_ext, hold_piece_progress.
  - intros g v Hp. exact Hp.
Qed.



End Progress.



(** ** Line clear on a board without full rows, and the cell count *)

Lemma row_full_count (row : list Cell.t) :
  row_is_full row = true -> row_count row = length row.
Proof.
  unfold row_is_full, row_count. induction row as [| c row IH]; [done |].
  simpl. destruct (Cell.filled c); simpl; [| discriminate].
  intros Hall. by rewrite IH.
Qed.

Lemma count_filled_zero_rows (n : nat) (b : Board) :
  count_filled (replicate n zero_board_row ++ b) = count_filled b.
Proof.
  induction n as [| n IH]; [reflexivity |].
  simpl. rewrite count_filled_cons, IH. reflexivity.
Qed.

(** The scan removes [COLS] filled cells with every full row and no
    other. *)
Lemma compact_count (b : Board) :
  Forall (fun row => length row = Z.to_nat COLS) b ->
  (count_filled (compact b) + 10 * full_rows b = count_filled b)%nat.
Proof.
  unfold compact. rewrite count_filled_zero_rows.
  induction 1 as [| row b Hlen Hb IH]; [reflexivity |].
  unfold full_rows, kept_rows in *. simpl.
  rewrite count_filled_cons.
  destruct (row_is_full row) eqn:Hfull; simpl.
  - rewrite (row_full_count row Hfull), Hlen.
    change (Z.to_nat COLS) with 10%nat. lia.
  - rewrite count_filled_cons. lia.
Qed.

Lemma score_update_board (n : nat) (g : Game.t) :
  Game.board (score_update n g) = Game.board g.
Proof.
  unfold score_update. destruct n; [reflexivity |].
  by destruct (score_tbl !! _).
Qed.

Section ClearEdge.
Context {F : Type} `{FloatOps F}.

Lemma clear_loop_no_full (fuel : nat) :
  forall (top rest : Board) (w : World F) (cleared : Z),
    Game.board (game w) = top ++ rest ->
    Forall (fun row => length row = Z.to_nat COLS) top ->
    full_rows top = 0%nat ->
    (length top < fuel)%nat ->
    clear_loop fuel (Z.of_nat (length top) - 1) cleared w = Done (cleared, w).
Proof.
  induction fuel as [| fuel IH]; intros top rest w cleared Hb Hrows Hz Hfuel;
    [lia |].
  destruct (decide (top = [])) as [-> | Hne].
  - by rewrite clear_loop_exit by (simpl; lia).
  - destruct (exists_last Hne) as (top' & row & ->).
    rewrite length_app in *. simpl length in *.
    apply Forall_app in Hrows as [Hrows' Hrow]. apply Forall_inv in Hrow.
    rewrite full_rows_snoc in Hz.
    replace (Z.of_nat (length top' + 1) - 1) with (Z.of_nat (length top'))
      by lia.
    assert (row_full (Game.board (game w)) (Z.of_nat (length top')) =
            row_is_full row) as Hfull.
    { apply row_full_lookup; [| assumption].
      rewrite Hb, Nat2Z.id, <- app_assoc. by apply list_lookup_middle. }
    destruct (row_is_full row); [lia |].
    rewrite clear_loop_miss by (lia || assumption).
    apply (IH top' (row :: rest)); [by rewrite Hb, <- app_assoc | | lia | lia].
    assumption.
Qed.

(** X10. On a board of the declared shape without a full row
    [clear_lines] returns the world exactly as it was: no cell, no score
    field and no particle changes, and no random number is drawn. *)
Theorem clear_lines_no_full_row (w : World F) :
  wf_board (Game.board (game w)) ->
  full_rows (Game.board (game w)) = 0%nat ->
  clear_lines w = Done (tt, w).
Proof.
  intros [Hlen Hrows] Hz. unfold clear_lines, bind, clear_rows.
  replace (ROWS - 1) with (Z.of_nat (length (Game.board (game w))) - 1)
    by (rewrite Hlen; unfold ROWS; lia).
  rewrite (clear_loop_no_full clear_fuel (Game.board (game w)) [] w 0);
    [reflexivity | by rewrite app_nil_r | assumption | assumption |].
  unfold clear_fuel. rewrite Hlen. lia.
Qed.

(** X11. While the game is not over, a command other than restart
    either leaves board and [lines] as they are or locks the current
    piece: then the board gains the four cells of the piece and loses ten
    for every cleared row, and [lines] grows by the number of cleared
    rows, at most four. *)
Theorem lock_cell_account (o : Op) (w w' : World F) :
  reachable w -> Game.game_over (game w) = false -> o <> OpRestart ->
  run_op o w = Done (tt, w') ->
  (Game.board (game w') = Game.board (game w) /\
   Game.lines (game w') = Game.lines (game w)) \/
  (exists cleared : nat,
     (cleared <= 4)%nat /\
     Game.lines (game w') = Game.lines (game w) + Z.of_nat cleared /\
     (count_filled (Game.board (game w')) + 10 * cleared =
      count_filled (Game.board (game w)) + 4)%nat).
Proof.
  intros Hreach Hover Ho Hrun.
  pose proof (reachable_inv w Hreach) as Hinv.
  pose proof (reachable_progress w Hreach) as Hp.
  pose proof (reachable_fits w Hreach Hover) as Hfits.
  destruct (reachable_pieces w Hreach) as (Hcur & _).
  destruct (run_op_cases o w w' Hrun Hinv)
    as [[Hb Heq] | [(g1 & w2 & -> & Hg2 & Hb1 & Hp1 & Hm1 & Hf1) | ->]];
    [| | contradiction].
  - left. split; [exact Hb |].
    by destruct (progress_eq_fields _ _ Heq) as (_ & El & _).
  - right. exists (full_rows (Game.board (lock_piece g1))).
    assert (wf_board (Game.board g1) /\ full_rows (Game.board g1) = 0%nat)
      as [Hwf1 Hfull1] by (rewrite Hb1; split; apply Hinv).
    destruct (lock_piece_board_inv g1 Hwf1 Hfull1) as [Hwf2 Hle].
    split; [exact Hle |].
    destruct (spawn_piece_result w2)
      as (_ & _ & _ & _ & _ & _ & Hboard & _ & _ & _ & Hlines & _).
    rewrite Hboard, Hlines, Hg2. unfold locked_cleared.
    rewrite score_update_board. cbn [Game.board game_with_board].
    destruct (score_update_progress
                (full_rows (Game.board (lock_piece g1)))
                (game_with_board g1 (compact (Game.board (lock_piece g1)))))
      as (_ & Hl & _); [by apply (progress_inv_ext (game w)) | exact Hle |].
    split.
    { rewrite Hl. cbn [Game.lines game_with_board].
      by destruct (progress_eq_fields _ _ Hp1) as (_ & -> & _). }
    pose proof (compact_count (Game.board (lock_piece g1)) (proj2 Hwf2))
      as Hcompact.
    assert (count_filled (Game.board (lock_piece g1)) =
            (count_filled (Game.board g1) + 4)%nat) as Hlock.
    { rewrite <- (piece_ok_popcount (Game.cur (game w)) Hcur), <- Hm1.
      apply (lock_cells_count (Game.cur g1) cells4 (Game.board g1) Hwf1
               cells4_NoDup).
      intros r c Hin Hm. apply in_cells4 in Hin as [Hr Hc].
      by apply (collide_false_iff g1 (Game.cur g1) (Piece.x (Game.cur g1))
                  (Piece.y (Game.cur g1))); [apply Hf1 | | |]. }
    rewrite <- Hb1. lia.
Qed.

End ClearEdge.

Lemma clear_lines_no_full_row_witness :
  clear_lines start_world = Done (tt, start_world).
Proof.
  apply (clear_lines_no_full_row start_world);
    [apply zero_board_wf | reflexivity].
Defined.

Lemma lock_cell_account_witness :
  exists w',
    run_op OpHard start_world = Done (tt, w') /\
    ((Game.board (game w') = Game.board (game start_world) /\
      Game.lines (game w') = Game.lines (game start_world)) \/
     (exists cleared : nat,
        (cleared <= 4)%nat /\
        Game.lines (game w') =
          Game.lines (game start_world) + Z.of_nat cleared /\
        (count_filled (Game.board (game w')) + 10 * cleared =
         count_filled (Game.board (game start_world)) + 4)%nat)).
Proof.
  eexists. split; [vm_compute; reflexivity |].
  apply (lock_cell_account OpHard start_world);
    [apply reach_reset | reflexivity | discriminate | vm_compute; reflexivity].
Defined.

(** ** Particles: update, colours and the random numbers drawn *)

Lemma imin_min (a b : Z) : imin a b = Z.min a b.
Proof. unfold imin. destruct (Z.ltb_spec a b); lia. Qed.

Lemma jitter_range (ch d : Z) : 0 <= jitter ch d <= 255.
Proof.
  unfold jitter. rewrite imax_max, imin_min. rewrite Z.mod_small by lia. lia.
Qed.

(** X14. The colour jitter [(Uint8)imax(0, imin(255, ch + d - 20))] is
    the clamp of [ch + d - 20] to 0..255: the cast to [Uint8] never
    wraps, and for a channel in 0..255 and the [d] in 0..39 the source
    draws, the result differs from the channel by at most 20. *)
Theorem jitter_clamps (ch d : Z) :
  jitter ch d = Z.max 0 (Z.min 255 (ch + d - 20)) /\
  0 <= jitter ch d <= 255 /\
  (0 <= ch <= 255 -> 0 <= d < 40 -> Z.abs (jitter ch d - ch) <= 20).
Proof.
  unfold jitter. rewrite imax_max, imin_min.
  rewrite Z.mod_small by lia. lia.
Qed.

Section Particles.
Context {F : Type} `{FloatOps F}.

Implicit Types ps : list (Particle.t F).

Lemma particle_step_alive (dt : F) (p : Particle.t F) :
  Particle.alive (particle_step dt p) =
  Particle.alive p &&
  negb (f_ge (f_add (Particle.life p) dt) (Particle.maxlife p)).
Proof.
  unfold particle_step. destruct (Particle.alive p) eqn:Ha; [| by rewrite Ha].
  by destruct (f_ge _ _).
Qed.

Lemma particles_update_alive_le (dt : F) ps :
  (alive_count (map (particle_step dt) ps) <= alive_count ps)%nat.
Proof.
  unfold alive_count. induction ps as [| p ps IH]; [done |].
  simpl. rewrite particle_step_alive.
  destruct (Particle.alive p); simpl; [| exact IH].
  destruct (negb _); simpl; lia.
Qed.

(** X12. [particles_update] touches the pool only: a dead slot is left
    exactly as it is, so no particle comes back to life; a live particle
    ages by [dt] and stays alive exactly when its new age is below its
    lifespan; lifespan and colour never change.  The number of live
    particles does not grow and the pool keeps its size. *)
Theorem particles_update_spec (dt : F) (w : World F) :
  let w' := particles_update dt w in
  game w' = game w /\ rng w' = rng w /\
  length (particles w') = length (particles w) /\
  (alive_count (particles w') <= alive_count (particles w))%nat /\
  forall i p, particles w !! i = Some p ->
    exists p', particles w' !! i = Some p' /\
      (Particle.alive p = false -> p' = p) /\
      Particle.alive p' =
        Particle.alive p &&
        negb (f_ge (f_add (Particle.life p) dt) (Particle.maxlife p)) /\
      (Particle.alive p = true ->
       Particle.life p' = f_add (Particle.life p) dt) /\
      Particle.maxlife p' = Particle.maxlife p /\
      Particle.c p' = Particle.c p.
Proof.
  intros w'. subst w'. unfold particles_update. cbn [game rng particles].
  split; [reflexivity |]. split; [reflexivity |].
  split; [apply length_map |]. split; [apply particles_update_alive_le |].
  intros i p Hp. exists (particle_step dt p).
  split; [by rewrite list_lookup_fmap, Hp |].
  split; [intros Hdead; unfold particle_step; by rewrite Hdead |].
  split; [apply particle_step_alive |].
  unfold particle_step.
  destruct (Particle.alive p); [| by repeat split].
  by destruct (f_ge _ _).
Qed.

(** *** Random numbers drawn *)

Lemma make_particle_rng cx cy base (s : Rng) :
  snd (make_particle cx cy base s) = mkRng (tape s) (7 + cursor s).
Proof. reflexivity. Qed.

(** One request draws seven numbers when it fills a slot and none when
    it is dropped. *)
Lemma spawn_one_rng cx cy base (w : World F) :
  (length (particles w) <= MAX_PARTICLES)%nat ->
  tape (rng (spawn_one cx cy base w)) = tape (rng w) /\
  (cursor (rng (spawn_one cx cy base w)) + 7 * alive_count (particles w) =
   cursor (rng w) + 7 * alive_count (particles (spawn_one cx cy base w)))%nat.
Proof.
  intros Hlen.
  destruct (spawn_one_pool cx cy base w Hlen) as (_ & Hcount & _ & Hfull & _).
  destruct (first_dead (particles w)) as [i |] eqn:Hfirst.
  - assert (alive_count (particles w) <> length (particles w)) as Hne.
    { intros Heq. apply first_dead_None in Heq. congruence. }
    pose proof (alive_count_le (particles w)) as Hle.
    rewrite Hcount. clear Hcount.
    rewrite (spawn_one_fills cx cy base w i Hlen Hfirst).
    cbn [rng]. rewrite make_particle_rng. cbn [tape cursor].
    split; [reflexivity |]. case_decide; lia.
  - rewrite (spawn_one_drops cx cy base w Hlen Hfirst). by split.
Qed.

Lemma iter_spawn_one_rng cx cy base (n : nat) (w : World F) :
  (length (particles w) <= MAX_PARTICLES)%nat ->
  let w' := Nat.iter n (spawn_one cx cy base) w in
  tape (rng w') = tape (rng w) /\
  (cursor (rng w') + 7 * alive_count (particles w) =
   cursor (rng w) + 7 * alive_count (particles w'))%nat.
Proof.
  intros Hlen w'. subst w'. induction n as [| n IH]; [by split |].
  change (Nat.iter (S n) (spawn_one cx cy base) w)
    with (spawn_one cx cy base (Nat.iter n (spawn_one cx cy base) w)).
  set (w1 := Nat.iter n (spawn_one cx cy base) w) in *.
  destruct IH as [IHt IHc].
  destruct (iter_spawn_one_pool cx cy base n w Hlen) as (Hl1 & _).
  fold w1 in Hl1.
  destruct (spawn_one_rng cx cy base w1) as [Ht Hc]; [lia |].
  split; [congruence | lia].
Qed.

(** X13. [spawn_explosion] on the pool draws one random number for the
    count and seven for every particle it creates, none for a request it
    drops; [new_bag_piece] and [spawn_piece] draw two and [game_reset]
    four.  The tape itself is never changed. *)
Theorem rand_draws cx cy base (w : World F) :
  length (particles w) = MAX_PARTICLES ->
  let w' := spawn_explosion cx cy base w in
  (tape (rng w') = tape (rng w) /\
   (cursor (rng w') + 7 * alive_count (particles w) =
    cursor (rng w) + 1 + 7 * alive_count (particles w'))%nat) /\
  (alive_count (particles w) = MAX_PARTICLES ->
   cursor (rng w') = S (cursor (rng w))) /\
  snd (new_bag_piece (rng w)) = mkRng (tape (rng w)) (2 + cursor (rng w)) /\
  rng (spawn_piece w) = mkRng (tape (rng w)) (2 + cursor (rng w)) /\
  rng (game_reset w) = mkRng (tape (rng w)) (4 + cursor (rng w)).
Proof.
  intros Hlen w'. subst w'.
  assert (tape (rng (spawn_explosion cx cy base w)) = tape (rng w) /\
          (cursor (rng (spawn_explosion cx cy base w)) +
             7 * alive_count (particles w) =
           cursor (rng w) + 1 +
             7 * alive_count (particles (spawn_explosion cx cy base w)))%nat)
    as Hdraw.
  { unfold spawn_explosion, rand.
    destruct (iter_spawn_one_rng cx cy base
                (Z.to_nat (explosion_count
                   (Z.of_N (tape (rng w) (cursor (rng w))))))
                (mkWorld (game w) (particles w)
                   (mkRng (tape (rng w)) (S (cursor (rng w))))))
      as [Ht Hc]; [cbn [particles]; lia |].
    cbn [rng particles tape cursor] in Ht, Hc. split; [exact Ht | lia]. }
  split; [exact Hdraw |].
  split.
  { intros Hfull.
    destruct (spawn_explosion_pool cx cy base w Hlen) as (_ & _ & _ & Hsame).
    destruct Hdraw as [_ Hc]. rewrite (Hsame Hfull) in Hc. lia. }
  split; [reflexivity |].
  split; [reflexivity | reflexivity].
Qed.

End Particles.

Lemma rand_draws_witness :
  cursor (rng (spawn_piece start_world)) = 6%nat.
Proof.
  destruct (rand_draws 160 624 clear_base start_world eq_refl)
    as (_ & _ & _ & Hspawn & _).
  rewrite Hspawn. reflexivity.
Defined.

(** ** Restart *)

Section Restart.
Context {F : Type} `{FloatOps F}.

(** X15. [game_reset] forgets everything but the state of [rand]: the
    result is the same for two worlds with the same generator.  It leaves
    the empty board, zero score, lines and level, the starting fall
    interval, an empty hold slot, [can_hold] set, [game_over] clear, the
    current piece at the spawn position where it fits, and a pool of
    4096 dead particles. *)
Theorem game_reset_fresh (w0 : World F) :
  let w := game_reset w0 in
  let g := game w in
  (forall w1 : World F, rng w1 = rng w0 -> game_reset w1 = w) /\
  Game.board g = zero_board /\ count_filled (Game.board g) = 0%nat /\
  (Game.score g = 0 /\ Game.lines g = 0 /\ Game.level g = 0 /\
   Game.fall_ms g = START_SPEED_MS /\ Game.fall_accum g = 0) /\
  (Game.has_hold g = false /\ Game.can_hold g = true /\
   Game.game_over g = false) /\
  (Piece.x (Game.cur g) = spawn_x /\ Piece.y (Game.cur g) = 0 /\
   collide g (Game.cur g) spawn_x 0 = false) /\
  length (particles w) = MAX_PARTICLES /\ alive_count (particles w) = 0%nat.
Proof.
  intros w g. subst w g.
  pose proof (game_reset_fits w0) as Hfits. unfold fits in Hfits.
  split.
  { intros w1 Hrng. unfold game_reset. by rewrite Hrng. }
  revert Hfits. unfold game_reset.
  destruct (new_bag_piece (rng w0)) as [c s1].
  destruct (new_bag_piece s1) as [n s2].
  unfold particles_reset. cbn [game particles Game.board Game.score Game.lines
    Game.level Game.fall_ms Game.fall_accum Game.has_hold Game.can_hold
    Game.game_over Game.cur piece_with_xy Piece.x Piece.y].
  intros Hfits.
  split; [reflexivity |]. split; [reflexivity |]. split; [by repeat split |].
  split; [by repeat split |].
  split; [split; [reflexivity | split; [reflexivity | exact Hfits]] |].
  split; [apply length_replicate |].
  unfold alive_count. generalize MAX_PARTICLES. intros m.
  induction m as [| m IH]; [reflexivity | exact IH].
Qed.

End Restart.

(** ** The loop of [main] *)

Lemma to_uint32_small (z : Z) : 0 <= z < 2 ^ 32 -> to_uint32 z = z.
Proof. apply Z.mod_small. Qed.

Lemma to_uint32_range (z : Z) : 0 <= to_uint32 z < 2 ^ 32.
Proof. apply Z.mod_pos_bound. lia. Qed.

Section MainLoopFacts.
Context {F : Type} `{FloatOps F}.
Variable f_to_uint : F -> Z.

Lemma reachable_fall_ms (w : World F) :
  reachable w -> MIN_SPEED_MS <= Game.fall_ms (game w) <= START_SPEED_MS.
Proof.
  intros Hr. destruct (reachable_progress w Hr) as (Hlv & Hms & _ & Hl).
  rewrite Hms, fall_interval_max, Hlv.
  assert (0 <= Z.quot (Game.lines (game w)) 10) by (apply Z.quot_pos; lia).
  unfold MIN_SPEED_MS, START_SPEED_MS, SPEED_STEP_MS. lia.
Qed.

Lemma spawn_piece_fall_accum (w : World F) :
  Game.fall_accum (game (spawn_piece w)) = Game.fall_accum (game w).
Proof.
  unfold spawn_piece. destruct (new_bag_piece (rng w)) as [p s].
  rewrite check_game_over_result. reflexivity.
Qed.

Lemma locked_cleared_fall_accum (g : Game.t) :
  Game.fall_accum (locked_cleared g) = Game.fall_accum g.
Proof.
  unfold locked_cleared, score_update.
  destruct (full_rows _); [reflexivity |].
  destruct (score_tbl !! _); reflexivity.
Qed.

(** [soft_step] leaves the accumulator to its caller. *)
Lemma soft_step_fall_accum (w w' : World F) :
  game_inv (game w) -> soft_step w = Done (tt, w') ->
  Game.fall_accum (game w') = Game.fall_accum (game w).
Proof.
  intros Hinv. unfold soft_step, bind, get_game.
  destruct (negb _).
  - unfold lift. intros [= <-]. reflexivity.
  - destruct (lock_clear_spawn_exact w Hinv) as (w2 & Hrun & Hg).
    rewrite Hrun. intros [= <-].
    rewrite spawn_piece_fall_accum, Hg. apply locked_cleared_fall_accum.
Qed.

(** The gravity loop ends within the passes the accumulator pays for. *)
Lemma gravity_loop_ends (fuel : nat) : forall w : World F,
  reachable w -> 0 <= Game.fall_accum (game w) < 2 ^ 32 ->
  (Z.to_nat (Z.quot (Game.fall_accum (game w)) MIN_SPEED_MS) < fuel)%nat ->
  exists w', gravity_loop fuel w = Done (tt, w') /\ reachable w' /\
             0 <= Game.fall_accum (game w') < Game.fall_ms (game w').
Proof.
  induction fuel as [| fuel IH]; intros w Hr Ha Hf; [lia |].
  pose proof (reachable_fall_ms w Hr) as Hms.
  unfold MIN_SPEED_MS, START_SPEED_MS in Hms.
  cbn [gravity_loop]. unfold bind at 1, get_game.
  rewrite (to_uint32_small (Game.fall_ms (game w))) by lia.
  destruct (Game.fall_accum (game w) >=? Game.fall_ms (game w)) eqn:Hge.
  - apply Z.geb_le in Hge.
    rewrite (to_uint32_small (Game.fall_accum (game w) - Game.fall_ms (game w)))
      by lia.
    set (a1 := Game.fall_accum (game w) - Game.fall_ms (game w)).
    unfold bind at 1, lift.
    set (w1 := on_game (set_fall_accum a1) w).
    assert (reachable w1) as Hr1
      by (apply (reach_op (OpAccum a1) w); [exact Hr | reflexivity]).
    destruct (soft_step_inv w1 (reachable_inv w1 Hr1)) as (w2 & Hrun & _).
    unfold bind. rewrite Hrun.
    assert (reachable w2) as Hr2 by (by apply (reach_op OpSoft w1)).
    pose proof (soft_step_fall_accum w1 w2 (reachable_inv w1 Hr1) Hrun) as Ha2.
    change (Game.fall_accum (game w1)) with a1 in Ha2.
    apply IH; [exact Hr2 | rewrite Ha2; subst a1; lia |].
    rewrite Ha2. subst a1. revert Hf. unfold MIN_SPEED_MS.
    rewrite !Z.quot_div_nonneg by lia. intros Hf.
    assert ((Game.fall_accum (game w) - Game.fall_ms (game w)) / 90
            <= (Game.fall_accum (game w) - 90) / 90) as Hle
      by (apply Z.div_le_mono; lia).
    replace (Game.fall_accum (game w) - 90)
      with (Game.fall_accum (game w) + (-1) * 90) in Hle by lia.
    rewrite Z.div_add in Hle by lia.
    assert (0 <= (Game.fall_accum (game w) - Game.fall_ms (game w)) / 90)
      by (apply Z.div_pos; lia).
    lia.
  - exists w. split; [reflexivity |]. split; [exact Hr |].
    rewrite Z.geb_leb in Hge. apply Z.leb_gt in Hge. lia.
Qed.

(** The gravity block returns; started neither paused nor over it leaves
    less than one fall interval on the accumulator. *)
Lemma gravity_ends (dt : F) (l : Loop) :
  reachable (world l) ->
  exists l', gravity f_to_uint dt l = Done l' /\ reachable (world l') /\
             running l' = running l /\ paused l' = paused l /\
             (paused l = false ->
              Game.game_over (game (world l)) = false ->
              0 <= Game.fall_accum (game (world l'))
                < Game.fall_ms (game (world l'))).
Proof.
  intros Hr. unfold gravity.
  destruct (negb (paused l) && negb (Game.game_over (game (world l))))
    eqn:Hgo.
  - set (accum := to_uint32 _).
    pose proof (to_uint32_range
      (Game.fall_accum (game (world l)) +
       to_uint32 (f_to_uint (f_mul dt (f_lit 1000 0))))) as Hrange.
    fold accum in Hrange.
    destruct (gravity_loop_ends (gravity_fuel accum)
                (on_game (set_fall_accum accum) (world l)))
      as (w' & Hrun & Hr' & Hacc).
    + apply (reach_op (OpAccum accum) (world l)); [exact Hr | reflexivity].
    + exact Hrange.
    + unfold gravity_fuel.
      change (Game.fall_accum (game (on_game (set_fall_accum accum) (world l))))
        with accum.
      lia.
    + rewrite Hrun. eexists. split; [reflexivity |].
      split; [exact Hr' |]. split; [reflexivity |]. split; [reflexivity |].
      intros _ _. exact Hacc.
  - exists l. split; [reflexivity |]. split; [exact Hr |].
    split; [reflexivity |]. split; [reflexivity |].
    intros Hp Hg. rewrite Hp, Hg in Hgo. discriminate.
Qed.

(** A key command is one of the commands of [run_op], or nothing. *)
Lemma key_command_reachable (k : Key) (w : World F) :
  reachable w ->
  exists w', key_command k w = Done (tt, w') /\ reachable w'.
Proof.
  intros Hr.
  assert (key_command k = ret tt \/ exists o, key_command k = run_op o)
    as [-> | [o ->]].
  { destruct k; try (by left); right.
    - by exists OpLeft.
    - by exists OpRight.
    - by exists OpSoft.
    - by exists OpHard.
    - by exists OpHold.
    - by exists (OpRotate false).
    - by exists (OpRotate true). }
  - by exists w.
  - destruct (run_op_inv o w (reachable_inv w Hr)) as (w' & Hrun & _).
    exists w'. split; [exact Hrun |]. by apply (reach_op o w).
Qed.

Lemma on_event_reachable (e : Event) (l : Loop) :
  reachable (world l) ->
  exists l', on_event e l = Done l' /\ reachable (world l').
Proof.
  intros Hr. destruct e as [| k |].
  - eexists. split; [reflexivity | exact Hr].
  - unfold on_event.
    set (l1 := match k with
               | SDLK_ESCAPE => _ | SDLK_p => _ | SDLK_r => _ | _ => l end).
    assert (reachable (world l1)) as Hr1.
    { subst l1. destruct k; try exact Hr. apply reach_reset. }
    clearbody l1.
    destruct (Game.game_over (game (world l1)) || paused l1).
    + by exists l1.
    + destruct (key_command_reachable k (world l1) Hr1) as (w' & -> & Hr').
      eexists. split; [reflexivity | exact Hr'].
  - by exists l.
Qed.

Lemma on_events_reachable (es : list Event) : forall l : Loop,
  reachable (world l) ->
  exists l', on_events es l = Done l' /\ reachable (world l').
Proof.
  induction es as [| e es IH]; intros l Hr.
  - by exists l.
  - destruct (on_event_reachable e l Hr) as (l1 & Hrun & Hr1).
    cbn [on_events]. rewrite Hrun. by apply IH.
Qed.

Lemma frame_reachable (es : list Event) (dt : F) (l : Loop) :
  reachable (world l) ->
  exists l', frame f_to_uint es dt l = Done l' /\ reachable (world l').
Proof.
  intros Hr. unfold frame.
  destruct (on_events_reachable es l Hr) as (l1 & -> & Hr1).
  destruct (gravity_ends dt l1 Hr1) as (l2 & -> & Hr2 & _).
  eexists. split; [reflexivity |].
  by apply (reach_op (OpParticles dt) (world l2)).
Qed.

Lemma main_reachable_world (l : Loop) :
  main_reachable f_to_uint l -> reachable (world l).
Proof.
  induction 1 as [w0 | es dt l l' _ IH _ Hrun].
  - apply reach_reset.
  - destruct (frame_reachable es dt l IH) as (l2 & Hrun2 & Hr2).
    rewrite Hrun in Hrun2. by injection Hrun2 as <-.
Qed.

(** X16. Started neither paused nor after game over, upon a world the
    game's operations can reach, the gravity block of [main] ends
    normally and leaves less than one fall interval on the accumulator;
    it changes neither [running] nor [paused], and its world is again
    one the operations reach. *)
Theorem gravity_catches_up (dt : F) (l : Loop) :
  reachable (world l) -> paused l = false ->
  Game.game_over (game (world l)) = false ->
  exists l', gravity f_to_uint dt l = Done l' /\ reachable (world l') /\
             running l' = running l /\ paused l' = paused l /\
             0 <= Game.fall_accum (game (world l'))
               < Game.fall_ms (game (world l')).
Proof.
  intros Hr Hp Hg.
  destruct (gravity_ends dt l Hr) as (l' & Hrun & Hr' & Hrn & Hpa & Hacc).
  exists l'. split; [exact Hrun |]. split; [exact Hr' |].
  split; [exact Hrn |]. split; [exact Hpa |]. by apply Hacc.
Qed.

(** X17. From every state at the top of the loop of [main], whatever the
    events and the frame time, one more pass of the loop returns
    normally: no read past [score_tbl], and the loops of [hard_drop],
    [clear_lines] and the gravity block end.  The state after it is
    again one of the loop when [running] held. *)
Theorem main_frames_return (l : Loop) (es : list Event) (dt : F) :
  main_reachable f_to_uint l ->
  exists l', frame f_to_uint es dt l = Done l' /\
             (running l = true -> main_reachable f_to_uint l').
Proof.
  intros Hm.
  destruct (frame_reachable es dt l (main_reachable_world l Hm))
    as (l' & Hrun & _).
  exists l'. split; [exact Hrun |].
  intros Hrn. by apply (main_reach_frame f_to_uint es dt l l').
Qed.

(** X18. The key [r] always restarts the game and ends the pause.  While
    the game is paused or over no other key changes the world: the game,
    the particles and the state of [rand] stay as they were. *)
Theorem keys_while_stopped (k : Key) (l : Loop) :
  (k = SDLK_r ->
   on_event (SDL_KEYDOWN k) l =
     Done (mkLoop (game_reset (world l)) (running l) false)) /\
  (k <> SDLK_r ->
   paused l = true \/ Game.game_over (game (world l)) = true ->
   exists r p, on_event (SDL_KEYDOWN k) l = Done (mkLoop (world l) r p)).
Proof.
  split.
  - intros ->. unfold on_event. cbn [world paused running].
    assert (Game.game_over (game (game_reset (world l))) = false) as ->.
    { unfold game_reset.
      destruct (new_bag_piece (rng (world l))) as [c s1].
      destruct (new_bag_piece s1) as [n s2]. reflexivity. }
    reflexivity.
  - destruct l as [w r p]. cbn [world paused running].
    intros Hk [Hp | Hg].
    + subst p.
      destruct k; try contradiction; unfold on_event;
        cbn [world paused running key_command ret negb];
        rewrite ?orb_true_r; try (by eexists _, _).
      destruct (Game.game_over (game w)); by eexists _, _.
    + destruct k; try contradiction; unfold on_event;
        cbn [world paused running]; rewrite Hg; by eexists _, _.
Qed.

End MainLoopFacts.

Lemma gravity_catches_up_witness :
  exists l', gravity (fun z : Z => z) 1 (main_start start_world) = Done l' /\
             0 <= Game.fall_accum (game (world l'))
               < Game.fall_ms (game (world l')).
Proof.
  destruct (gravity_catches_up (fun z : Z => z) 1 (main_start start_world))
    as (l' & Hrun & _ & _ & _ & Hacc).
  - apply reach_reset.
  - reflexivity.
  - reflexivity.
  - by exists l'.
Defined.

Lemma main_frames_return_witness :
  exists l', frame (fun z : Z => z) [SDL_KEYDOWN SDLK_SPACE] 1
               (main_start start_world) = Done l'.
Proof.
  destruct (main_frames_return (fun z : Z => z) (main_start start_world)
              [SDL_KEYDOWN SDLK_SPACE] 1 (main_reach_start _ _))
    as (l' & Hrun & _).
  by exists l'.
Defined.
